(** * Autocomplete engine (word serch/autocomplete.cpp): trie with per-node Top-K caches

    A shallow embedding of [AutocompleteEngine] and of the stream
    operations it uses, followed by the properties of the prefix index
    and its bounded ranking caches.

    Modelling conventions
    - [int] and [long long] values are integers in [Z]; the sum computed by
      [freqs[idx] += freq] is wrapped to 64 bits ([wrap64]).
    - [std::string] is [string], a [char] is an [ascii] (a byte).
    - [std::vector] is a [list]; [v[i] = x] is stdpp's list insert.
    - [std::unordered_map] is a [gmap].
    - A [TrieNode*] owned by its parent is the child node itself; a loop
      that walks down the trie and mutates the node it stands on is a
      recursive function that rebuilds the path it walked. *)

From Stdlib Require Import ZArith List String Ascii Lia Sorted Permutation.
From Stdlib Require Import DecimalString DecimalZ DecimalN DecimalPos.
From stdpp Require Import gmap strings list fin_maps sorting.

Set Warnings "-register-all".
Local Open Scope Z_scope.

(** ** Machine integers *)

Definition INT64_MIN : Z := - 2 ^ 63.
Definition INT64_MAX : Z := 2 ^ 63 - 1.

Definition in_int64 (z : Z) : Prop := INT64_MIN <= z <= INT64_MAX.

(** Two's complement wrap-around of a [long long] result. *)
Definition wrap64 (z : Z) : Z := (z + 2 ^ 63) mod 2 ^ 64 - 2 ^ 63.

(** ** Config *)

Definition DEFAULT_PER_NODE_K : Z := 10.

(** ** struct TrieNode *)

Inductive TrieNode : Type :=
  mkNode { children : gmap ascii TrieNode; wordIndex : Z; topK : list Z }.

(** [new TrieNode()] *)
Definition newNode : TrieNode := mkNode ∅ (-1) [].

Definition set_children (n : TrieNode) (m : gmap ascii TrieNode) : TrieNode :=
  mkNode m (wordIndex n) (topK n).
Definition set_wordIndex (n : TrieNode) (i : Z) : TrieNode :=
  mkNode (children n) i (topK n).
Definition set_topK (n : TrieNode) (v : list Z) : TrieNode :=
  mkNode (children n) (wordIndex n) v.

(** ** struct RankHelper *)

Module RankHelper.

(** [(a >= 0 && a < (int)freqs.size()) ? freqs[a] : 0] *)
Definition freq_or_0 (freqs : list Z) (a : Z) : Z :=
  if (0 <=? a) && (a <? Z.of_nat (length freqs))
  then nth (Z.to_nat a) freqs 0 else 0.

(** [dict[a]]; the source does not guard this access, an index outside
    the vector is read as the empty string here. *)
Definition dict_at (dict : list string) (a : Z) : string :=
  nth (Z.to_nat a) dict EmptyString.

(** [higher(a, b)]: true if [a] should come before [b]. *)
Definition higher (freqs : list Z) (dict : list string) (a b : Z) : bool :=
  let fa := freq_or_0 freqs a in
  let fb := freq_or_0 freqs b in
  if negb (fa =? fb) then fb <? fa
  else String.ltb (dict_at dict a) (dict_at dict b).

End RankHelper.

(** ** std::sort, std::find, vector::erase, vector::resize *)

(** [std::sort(v.begin(), v.end(), comp)] as insertion sort.  The standard
    leaves the algorithm open; [std_sort_unique] below shows that for the
    comparators used here every sorting algorithm returns this list. *)
Fixpoint sorted_insert (comp : Z -> Z -> bool) (x : Z) (l : list Z) : list Z :=
  match l with
  | [] => [x]
  | y :: l' => if comp x y then x :: l else y :: sorted_insert comp x l'
  end.

Definition std_sort (comp : Z -> Z -> bool) (l : list Z) : list Z :=
  fold_right (sorted_insert comp) [] l.

(** [find(v.begin(), v.end(), idx) != v.end()] *)
Fixpoint found (idx : Z) (v : list Z) : bool :=
  match v with
  | [] => false
  | y :: v' => if y =? idx then true else found idx v'
  end.

(** [it = find(v.begin(), v.end(), idx); if (it != v.end()) v.erase(it)]:
    the first occurrence is erased. *)
Fixpoint erase_first (idx : Z) (v : list Z) : list Z :=
  match v with
  | [] => []
  | y :: v' => if y =? idx then v' else y :: erase_first idx v'
  end.

(** [if ((int)v.size() > perNodeK) v.resize(perNodeK)], for a capacity
    that is not negative.  With a negative capacity the condition holds
    for every cache and [resize] throws [std::length_error]: the
    properties below are stated for engines whose capacity is not
    negative ([reachable], or [0 <= perNodeK e]). *)
Definition trim (perNodeK : Z) (v : list Z) : list Z :=
  if perNodeK <? Z.of_nat (length v) then firstn (Z.to_nat perNodeK) v else v.

(** ** class AutocompleteEngine *)

Record Engine : Type := mkEngine {
  root : TrieNode;
  perNodeK : Z;
  dict : list string;             (* index -> word *)
  freqs : list Z;                 (* index -> freq *)
  wordSeen : list bool;           (* index -> word is to be saved *)
  wordToIndex : gmap string Z     (* word -> index *)
}.

(** [AutocompleteEngine(int perNodeK = DEFAULT_PER_NODE_K)] *)
Definition new_engine (k : Z) : Engine :=
  mkEngine newNode k [] [] [] ∅.

(** [ensureWordIndex]: the index of [word], allocated if it has none.  The
    new index is [dict.size()] stored in an [int]: the registry is taken
    to hold fewer than [2^31] words. *)
Definition ensureWordIndex (e : Engine) (word : string) : Engine * Z :=
  match wordToIndex e !! word with
  | Some i => (e, i)
  | None =>
      let idx := Z.of_nat (length (dict e)) in
      (mkEngine (root e) (perNodeK e) (dict e ++ [word]) (freqs e ++ [0])
                (wordSeen e ++ [false]) (<[word := idx]> (wordToIndex e)),
       idx)
  end.

(** One round of the loop body of [updateTopKForWord] on the cache [v] of
    the node just entered. *)
Definition update_cache (k : Z) (fs : list Z) (d : list string)
    (idx : Z) (v : list Z) : list Z :=
  let v1 := if found idx v then v else v ++ [idx] in
  trim k (std_sort (RankHelper.higher fs d) v1).

(** [updateTopKForWord(word, idx)], started at [node] (the root in every
    call): for each character the child is created when missing, entered,
    and its cache updated; the node reached last gets [wordIndex = idx]. *)
Fixpoint updateTopKForWord (k : Z) (fs : list Z) (d : list string)
    (word : string) (idx : Z) (node : TrieNode) : TrieNode :=
  match word with
  | EmptyString => set_wordIndex node idx
  | String c rest =>
      let child := default newNode (children node !! c) in
      let child' := set_topK child (update_cache k fs d idx (topK child)) in
      set_children node
        (<[c := updateTopKForWord k fs d rest idx child']> (children node))
  end.

(** The first loop of [insertIntoTrie]: the path is created and
    [wordIndex] set at its end. *)
Fixpoint insertPath (word : string) (idx : Z) (node : TrieNode) : TrieNode :=
  match word with
  | EmptyString => set_wordIndex node idx
  | String c rest =>
      let child := default newNode (children node !! c) in
      set_children node (<[c := insertPath rest idx child]> (children node))
  end.

(** [insertIntoTrie(word, idx)] *)
Definition insertIntoTrie (e : Engine) (word : string) (idx : Z) : Engine :=
  let r1 := insertPath word idx (root e) in
  let r2 := updateTopKForWord (perNodeK e) (freqs e) (dict e) word idx r1 in
  mkEngine r2 (perNodeK e) (dict e) (freqs e)
           (<[Z.to_nat idx := true]> (wordSeen e)) (wordToIndex e).

(** [removeIndexFromPath(word, idx)], started at [node]: stops at the first
    missing child. *)
Fixpoint removeIndexFromPath (word : string) (idx : Z) (node : TrieNode)
    : TrieNode :=
  match word with
  | EmptyString => node
  | String c rest =>
      match children node !! c with
      | None => node
      | Some child =>
          let child' := set_topK child (erase_first idx (topK child)) in
          set_children node
            (<[c := removeIndexFromPath rest idx child']> (children node))
      end
  end.

(** The walk of [remove] that ends in [node->wordIndex = -1]; [None] is the
    [return] taken inside the loop when a child is missing. *)
Fixpoint clearWordIndex (word : string) (node : TrieNode) : option TrieNode :=
  match word with
  | EmptyString => Some (set_wordIndex node (-1))
  | String c rest =>
      match children node !! c with
      | None => None
      | Some child =>
          match clearWordIndex rest child with
          | None => None
          | Some child' =>
              Some (set_children node (<[c := child']> (children node)))
          end
      end
  end.

Definition is_empty (s : string) : bool :=
  match s with EmptyString => true | _ => false end.

(** [insert(keyword, freq)] with [autosaveAppendFile] empty: the effect on
    the engine. *)
Definition insert (e : Engine) (keyword : string) (freq : Z) : Engine :=
  if is_empty keyword then e else
  let '(e1, idx) := ensureWordIndex e keyword in
  let i := Z.to_nat idx in
  let fs := <[i := wrap64 (nth i (freqs e1) 0 + freq)]> (freqs e1) in
  let seen := <[i := true]> (wordSeen e1) in
  mkEngine (updateTopKForWord (perNodeK e1) fs (dict e1) keyword idx (root e1))
           (perNodeK e1) (dict e1) fs seen (wordToIndex e1).

(** [updateFrequency(keyword, newFreq)] *)
Definition updateFrequency (e : Engine) (keyword : string) (newFreq : Z)
    : Engine :=
  if is_empty keyword then e else
  let '(e1, idx) := ensureWordIndex e keyword in
  let i := Z.to_nat idx in
  let fs := <[i := newFreq]> (freqs e1) in
  let seen := <[i := true]> (wordSeen e1) in
  mkEngine (updateTopKForWord (perNodeK e1) fs (dict e1) keyword idx (root e1))
           (perNodeK e1) (dict e1) fs seen (wordToIndex e1).

(** [remove(keyword)] *)
Definition remove (e : Engine) (keyword : string) : Engine :=
  if is_empty keyword then e else
  match wordToIndex e !! keyword with
  | None => e
  | Some idx =>
      let i := Z.to_nat idx in
      let fs := <[i := 0]> (freqs e) in
      let seen := <[i := false]> (wordSeen e) in
      match clearWordIndex keyword (root e) with
      | None => mkEngine (root e) (perNodeK e) (dict e) fs seen (wordToIndex e)
      | Some r1 =>
          mkEngine (removeIndexFromPath keyword idx r1)
                   (perNodeK e) (dict e) fs seen (wordToIndex e)
      end
  end.

(** [setPerNodeK(k)] *)
Definition setPerNodeK (e : Engine) (k : Z) : Engine :=
  mkEngine (root e) (Z.max 1 k) (dict e) (freqs e) (wordSeen e) (wordToIndex e).

(** [m[c]] on an [unordered_map]: the entry is created when absent. *)
Definition map_subscript (m : gmap ascii TrieNode) (c : ascii)
    : gmap ascii TrieNode * TrieNode :=
  match m !! c with
  | Some n => (m, n)
  | None => (<[c := newNode]> m, newNode)
  end.

(** The walk of [getTopK], which is not a [const] member and steps down
    with [node->children[c]].  The result is the node the walk leaves
    behind and the node it reached ([None] for the [return out] inside
    the loop). *)
Fixpoint getTopK_walk (prefix : string) (node : TrieNode)
    : TrieNode * option TrieNode :=
  match prefix with
  | EmptyString => (node, Some node)
  | String c rest =>
      match children node !! c with
      | None => (node, None)
      | Some _ =>
          let '(m, child) := map_subscript (children node) c in
          let '(child', dest) := getTopK_walk rest child in
          (set_children node (<[c := child']> m), dest)
      end
  end.

(** [out.emplace_back(dict[idx], freqs[idx])] *)
Definition resolve (e : Engine) (idx : Z) : string * Z :=
  (RankHelper.dict_at (dict e) idx, nth (Z.to_nat idx) (freqs e) 0).

(** [getTopK(prefix, K)]: the engine after the call and the suggestions. *)
Definition getTopK_run (e : Engine) (prefix : string) (K : Z)
    : Engine * list (string * Z) :=
  if K <=? 0 then (e, []) else
  let '(r, dest) := getTopK_walk prefix (root e) in
  let e' := mkEngine r (perNodeK e) (dict e) (freqs e) (wordSeen e)
                     (wordToIndex e) in
  match dest with
  | None => (e', [])
  | Some node =>
      let upto := Z.min K (Z.of_nat (length (topK node))) in
      (e', map (resolve e') (firstn (Z.to_nat upto) (topK node)))
  end.

Definition getTopK (e : Engine) (prefix : string) (K : Z)
    : list (string * Z) :=
  snd (getTopK_run e prefix K).

(** ** Stream extraction and insertion *)

(** [std::isspace] in the "C" locale. *)
Definition isspace (c : ascii) : bool :=
  let n := N_of_ascii c in
  ((n =? 32) || ((9 <=? n) && (n <=? 13)))%N.

Fixpoint skipws (s : string) : string :=
  match s with
  | EmptyString => EmptyString
  | String c r => if isspace c then skipws r else s
  end.

(** The longest run of non-space characters, and what follows it. *)
Fixpoint take_word (s : string) : string * string :=
  match s with
  | EmptyString => (EmptyString, EmptyString)
  | String c r =>
      if isspace c then (EmptyString, s)
      else let '(w, r') := take_word r in (String c w, r')
  end.

(** [fin >> word]: [None] when no character could be extracted. *)
Definition read_word (s : string) : option (string * string) :=
  match skipws s with
  | EmptyString => None
  | s' => Some (take_word s')
  end.

Definition digit_of (c : ascii) : option Z :=
  let n := N_of_ascii c in
  if ((48 <=? n) && (n <=? 57))%N then Some (Z.of_N n - 48) else None.

Fixpoint take_digits (acc : Z) (s : string) : Z * string :=
  match s with
  | EmptyString => (acc, EmptyString)
  | String c r =>
      match digit_of c with
      | Some d => take_digits (10 * acc + d) r
      | None => (acc, s)
      end
  end.

(** [fin >> freq] for a [long long]: optional sign, then decimal digits;
    it fails without a digit and when the value does not fit. *)
Definition read_long_long (s : string) : option (Z * string) :=
  let s1 := skipws s in
  let '(neg, s2) :=
    match s1 with
    | String "-"%char r => (true, r)
    | String "+"%char r => (false, r)
    | _ => (false, s1)
    end in
  match s2 with
  | EmptyString => None
  | String c _ =>
      match digit_of c with
      | None => None
      | Some _ =>
          let '(v, rest) := take_digits 0 s2 in
          let z := if neg then - v else v in
          if (INT64_MIN <=? z) && (z <=? INT64_MAX) then Some (z, rest)
          else None
      end
  end.

(** [fout << x] for a [long long]: decimal, with [-] when negative. *)
Definition show_long_long (z : Z) : string :=
  NilZero.string_of_int (Z.to_int z).

(** The body of the loop of [loadFromFile] for one extracted pair. *)
Definition load_entry (e : Engine) (word : string) (freq : Z) : Engine :=
  let '(e1, idx) := ensureWordIndex e word in
  let e2 := mkEngine (root e1) (perNodeK e1) (dict e1)
                     (<[Z.to_nat idx := freq]> (freqs e1))
                     (wordSeen e1) (wordToIndex e1) in
  insertIntoTrie e2 word idx.

(** [while (fin >> word >> freq) { ... }] on the unread input [s].  Every
    round extracts at least one character, so [fuel] rounds with [fuel]
    above the length of [s] run the loop to its end ([load_loop_fuel]). *)
Fixpoint load_loop (fuel : nat) (s : string) (e : Engine) : Engine :=
  match fuel with
  | O => e
  | S fuel' =>
      match read_word s with
      | None => e
      | Some (word, s1) =>
          match read_long_long s1 with
          | None => e
          | Some (freq, s2) => load_loop fuel' s2 (load_entry e word freq)
          end
      end
  end.

(** [loadFromFile(filename)]; [file] is the content of the file, [None]
    when it cannot be opened. *)
Definition loadFromFile (e : Engine) (file : option string) : Engine * bool :=
  match file with
  | None => (e, false)
  | Some content => (load_loop (S (String.length content)) content e, true)
  end.

(** The indices collected by the first loop of [saveToFile]: those marked
    in [wordSeen], in index order. *)
Definition known_indices (e : Engine) : list Z :=
  filter (fun i => nth (Z.to_nat i) (wordSeen e) false)
         (map Z.of_nat (seq 0 (length (dict e)))).

(** The indices written by [saveToFile]: sorted by word. *)
Definition save_indices (e : Engine) : list Z :=
  std_sort
    (fun a b => String.ltb (RankHelper.dict_at (dict e) a)
                           (RankHelper.dict_at (dict e) b))
    (known_indices e).

(** [fout << dict[id] << " " << freqs[id] << "\n"] *)
Definition save_line (e : Engine) (id : Z) : string :=
  RankHelper.dict_at (dict e) id +:+ " " +:+
  show_long_long (nth (Z.to_nat id) (freqs e) 0) +:+ String "010" EmptyString.

(** [saveToFile(filename)]: the new content of the file, [None] when it
    cannot be opened (the call then returns [false]). *)
Definition saveToFile (e : Engine) (can_open : bool) : option string :=
  if can_open
  then Some (fold_right String.append EmptyString
                        (map (save_line e) (save_indices e)))
  else None.

(** [isNew] in [insert]: the word has frequency 0 and is not marked in
    [wordSeen] once its index is there. *)
Definition insert_isNew (e : Engine) (keyword : string) : bool :=
  let '(e1, idx) := ensureWordIndex e keyword in
  let i := Z.to_nat idx in
  (nth i (freqs e1) 0 =? 0)
  && String.eqb (RankHelper.dict_at (dict e1) idx) keyword
  && negb (nth i (wordSeen e1) false).

(** The line appended by [insert(keyword, freq, autosaveAppendFile)] when
    [autosaveAppendFile] is not empty and opens: only for a new word. *)
Definition insert_autosave_line (e : Engine) (keyword : string) (freq : Z)
    : option string :=
  if is_empty keyword then None else
  let '(e1, idx) := ensureWordIndex e keyword in
  let i := Z.to_nat idx in
  if insert_isNew e keyword
  then Some (keyword +:+ " " +:+
             show_long_long (wrap64 (nth i (freqs e1) 0 + freq)) +:+
             String "010" EmptyString)
  else None.

(** The pairs extracted by the loop of [loadFromFile] from the input [s],
    and the engine after the loop body has run on each of them. *)
Fixpoint extracted (fuel : nat) (s : string) : list (string * Z) :=
  match fuel with
  | O => []
  | S fuel' =>
      match read_word s with
      | None => []
      | Some (word, s1) =>
          match read_long_long s1 with
          | None => []
          | Some (freq, s2) => (word, freq) :: extracted fuel' s2
          end
      end
  end.

Definition load_entries (e : Engine) (entries : list (string * Z)) : Engine :=
  fold_left (fun e wf => load_entry e (fst wf) (snd wf)) entries e.

(** ** Lines of the vocabulary file *)

Definition newline : string := String "010" EmptyString.

(** No character of [w] is a space character. *)
Fixpoint no_space (w : string) : bool :=
  match w with
  | EmptyString => true
  | String c r => negb (isspace c) && no_space r
  end.

Fixpoint all_space (s : string) : bool :=
  match s with
  | EmptyString => true
  | String c r => isspace c && all_space r
  end.

(** A line [<text><sep><frequency>] of the file, closed by a line end. *)
Record Line : Type := mkLine {
  line_text : string;
  line_sep : string;
  line_freq : Z
}.

Definition line_entry (l : Line) : string * Z := (line_text l, line_freq l).

Definition render_line (l : Line) : string :=
  line_text l +:+ line_sep l +:+ show_long_long (line_freq l) +:+ newline.

Definition render_lines (ls : list Line) : string :=
  fold_right String.append EmptyString (map render_line ls).

(** What the load loop asks of a line to extract its pair: a text without
    space characters, a separator of space characters, and a frequency
    that is a [long long]. *)
Record line_ok (l : Line) : Prop := {
  line_text_nonempty : line_text l <> EmptyString;
  line_text_no_space : no_space (line_text l) = true;
  line_sep_nonempty : line_sep l <> EmptyString;
  line_sep_space : all_space (line_sep l) = true;
  line_freq_int64 : in_int64 (line_freq l)
}.

(** The input goes on with a space character, or ends. *)
Definition at_space (s : string) : Prop :=
  match s with
  | EmptyString => True
  | String c _ => isspace c = true
  end.

(** A numeral starts with a digit, which is neither a sign nor a space. *)
Definition digit_head (s : string) : Prop :=
  match s with
  | EmptyString => False
  | String c _ =>
      is_Some (digit_of c) /\ isspace c = false /\
      c <> "-"%char /\ c <> "+"%char
  end.

(** The input does not start with a decimal digit. *)
Definition no_leading_digit (s : string) : Prop :=
  match s with
  | EmptyString => True
  | String c _ => digit_of c = None
  end.

(** The line [saveToFile] writes for the index [id]. *)
Definition saved_line (e : Engine) (id : Z) : Line :=
  mkLine (RankHelper.dict_at (dict e) id) " "
         (nth (Z.to_nat id) (freqs e) 0).

(** The [(text, frequency)] pairs of the terms marked in [wordSeen]. *)
Definition known_pairs (e : Engine) : list (string * Z) :=
  map (resolve e) (known_indices e).

(** A well-formed line of the file: its frequency is not negative. *)
Definition wellformed_line (l : Line) : Prop :=
  line_ok l /\ 0 <= line_freq l.

(** After space characters the input starts with a decimal numeral with
    an optional sign. *)
Definition starts_number (s : string) : bool :=
  match skipws s with
  | EmptyString => false
  | String c r =>
      if (Ascii.eqb c "-" || Ascii.eqb c "+")%bool
      then match r with
           | EmptyString => false
           | String c' _ => bool_decide (is_Some (digit_of c'))
           end
      else bool_decide (is_Some (digit_of c))
  end.

(** ** Operations and reachable engine states *)

Inductive Op : Type :=
| OpInsert (keyword : string) (freq : Z)
| OpUpdateFrequency (keyword : string) (newFreq : Z)
| OpRemove (keyword : string)
| OpSetPerNodeK (k : Z)
| OpLoadFromFile (file : option string)
| OpGetTopK (prefix : string) (K : Z).

Definition step (e : Engine) (o : Op) : Engine :=
  match o with
  | OpInsert w f => insert e w f
  | OpUpdateFrequency w f => updateFrequency e w f
  | OpRemove w => remove e w
  | OpSetPerNodeK k => setPerNodeK e k
  | OpLoadFromFile file => fst (loadFromFile e file)
  | OpGetTopK p K => fst (getTopK_run e p K)
  end.

(** A frequency passed to the engine is a [long long]. *)
Definition op_typed (o : Op) : Prop :=
  match o with
  | OpInsert _ f | OpUpdateFrequency _ f => in_int64 f
  | _ => True
  end.

Definition run (e : Engine) (ops : list Op) : Engine := fold_left step ops e.

(** The engines a program can hold: constructed with a capacity that is
    not negative, then driven through the public member functions. *)
Inductive reachable : Engine -> Prop :=
| reachable_new k : 0 <= k -> reachable (new_engine k)
| reachable_step e o : reachable e -> op_typed o -> reachable (step e o).

(** The operation inserts or updates [text], directly or by loading a
    file in which [text] is one of the extracted words. *)
Definition reinserts (text : string) (o : Op) : Prop :=
  match o with
  | OpInsert w _ | OpUpdateFrequency w _ => w = text
  | OpLoadFromFile (Some content) =>
      text ∈ map fst (extracted (S (String.length content)) content)
  | _ => False
  end.

(** ** Vocabulary of the properties *)

(** The node at the end of the path [p] below [node], if the path exists. *)
Fixpoint walk (p : string) (node : TrieNode) : option TrieNode :=
  match p with
  | EmptyString => Some node
  | String c rest =>
      match children node !! c with
      | None => None
      | Some child => walk rest child
      end
  end.

(** The loops over the characters of a word have one shape: step into the
    child (created first when [create] is set, the loop ending otherwise),
    apply [enter] to it, and apply [finish] to the node reached last. *)
Fixpoint along_path (create : bool) (enter finish : TrieNode -> TrieNode)
    (word : string) (node : TrieNode) : TrieNode :=
  match word with
  | EmptyString => finish node
  | String c rest =>
      match children node !! c with
      | Some child =>
          set_children node
            (<[c := along_path create enter finish rest (enter child)]>
               (children node))
      | None =>
          if create
          then set_children node
                 (<[c := along_path create enter finish rest (enter newNode)]>
                    (children node))
          else node
      end
  end.

(** [i] is an index of the dictionary. *)
Definition in_dict (d : list string) (i : Z) : Prop :=
  0 <= i < Z.of_nat (length d).

(** The node at path [p] is entered when the word [w] is walked. *)
Definition on_path (p w : string) : Prop :=
  p <> EmptyString /\ String.prefix p w = true.

Definition ranked (fs : list Z) (d : list string) (a b : Z) : Prop :=
  RankHelper.higher fs d a b = true.

(** The cache [v] of the node at path [p]: no index twice, sorted by the
    ranking, and only indices of words that pass through the node. *)
Record cache_ok (fs : list Z) (d : list string) (p : string) (v : list Z)
    : Prop := {
  cache_nodup : NoDup v;
  cache_sorted : StronglySorted (ranked fs d) v;
  cache_members : Forall (fun i => in_dict d i /\
                                   on_path p (RankHelper.dict_at d i)) v
}.

(** The index [idx] is in no cache below [r]. *)
Definition absent (idx : Z) (r : TrieNode) : Prop :=
  forall p n, walk p r = Some n -> idx ∉ topK n.

(** The registry: parallel vectors of one length, with [wordToIndex] the
    inverse of [dict]. *)
Record registry_ok (e : Engine) : Prop := {
  reg_len_freqs : length (freqs e) = length (dict e);
  reg_len_seen : length (wordSeen e) = length (dict e);
  reg_index : forall w i,
    wordToIndex e !! w = Some i <->
    0 <= i /\ dict e !! Z.to_nat i = Some w;
  reg_nonempty : forall w, w ∈ dict e -> w <> EmptyString;
  reg_int64 : Forall in_int64 (freqs e);
  reg_capacity : 0 <= perNodeK e
}.

Definition caches_ok (fs : list Z) (d : list string) (r : TrieNode) : Prop :=
  forall p n, walk p r = Some n -> cache_ok fs d p (topK n).

Definition paths_ok (d : list string) (r : TrieNode) : Prop :=
  forall w, w ∈ d -> is_Some (walk w r).

(** A word that is not marked in [wordSeen] is in no cache. *)
Definition unseen_absent (d : list string) (seen : list bool) (r : TrieNode)
    : Prop :=
  forall i, in_dict d i -> nth (Z.to_nat i) seen false = false -> absent i r.

Record inv (e : Engine) : Prop := {
  inv_registry : registry_ok e;
  inv_caches : caches_ok (freqs e) (dict e) (root e);
  inv_paths : paths_ok (dict e) (root e);
  inv_unseen : unseen_absent (dict e) (wordSeen e) (root e)
}.

(** [text] has the index [idx], and the index is in no cache. *)
Definition excluded (text : string) (idx : Z) (e : Engine) : Prop :=
  inv e /\ wordToIndex e !! text = Some idx /\ absent idx (root e).

(** A cache that is in order under the frequencies [fs] and does not
    hold the index [t]. *)
Definition fresh_cache (fs : list Z) (d : list string) (t : Z) (v : list Z)
    : Prop :=
  NoDup v /\ (t ∉ v) /\ Forall (in_dict d) v /\
  StronglySorted (ranked fs d) v.

(** No cache is longer than the capacity. *)
Definition bounded (k : Z) (r : TrieNode) : Prop :=
  forall p n, walk p r = Some n -> Z.of_nat (length (topK n)) <= k.

(** The elements of [l] are pairwise ordered by [comp]. *)
Definition comparable (comp : Z -> Z -> bool) (l : list Z) : Prop :=
  forall x y, x ∈ l -> y ∈ l -> x <> y -> comp x y = true \/ comp y x = true.

(** Byte-wise lexicographic order, as [operator<] on [std::string]. *)
Inductive bytewise_lt : string -> string -> Prop :=
| bytewise_lt_nil c s : bytewise_lt EmptyString (String c s)
| bytewise_lt_head c1 c2 s1 s2 :
    (N_of_ascii c1 < N_of_ascii c2)%N ->
    bytewise_lt (String c1 s1) (String c2 s2)
| bytewise_lt_tail c s1 s2 :
    bytewise_lt s1 s2 -> bytewise_lt (String c s1) (String c s2).

(** [a] is ranked before [b] by the comparator [comp]. *)
Definition precedes (comp : Z -> Z -> bool) (a b : Z) : Prop :=
  comp a b = true.

(** The pairs in the order in which [saveToFile] writes them. *)
Definition saved_pairs (e : Engine) : list (string * Z) :=
  map (resolve e) (save_indices e).

(** The first pair has the smaller text. *)
Definition text_before (p q : string * Z) : Prop :=
  bytewise_lt (fst p) (fst q).

(** ** Example engines *)

(** The rank-order example: "cat" (5), "car" (3), "cart" (10). *)
Definition ex_cat : Engine :=
  insert (insert (insert (new_engine DEFAULT_PER_NODE_K) "cat" 5) "car" 3)
         "cart" 10.

(** The three insertions of the rank-order example. *)
Definition ex_cat_ops : list Op :=
  [OpInsert "cat" 5; OpInsert "car" 3; OpInsert "cart" 10].

(** The [K] best-ranked known terms of the whole vocabulary, as the
    empty-prefix property describes the answer to [topK("", K)]. *)
Definition global_top (e : Engine) (K : Z) : list (string * Z) :=
  map (resolve e)
      (take (Z.to_nat K)
         (std_sort (RankHelper.higher (freqs e) (dict e))
                   (known_indices e))).

(** Two words below "a" cached with capacity 2, then the capacity set to 1. *)
Definition ex_shrunk : Engine :=
  setPerNodeK (insert (insert (new_engine 2) "a" 1) "ab" 2) 1.

(** One word below "a", cached with capacity 1. *)
Definition ex_ab : Engine := insert (new_engine 1) "ab" 5.

(** A word with a space character in it. *)
Definition ex_space : Engine := insert (new_engine DEFAULT_PER_NODE_K) "a b" 1.

(** A file whose first line has no separator and whose second line is a
    number. *)
Definition ex_file : string := "ab" +:+ newline +:+ "7" +:+ newline +:+
                               "cd 5" +:+ newline.

(** ** Further members of the engine *)

(** [countNodes(n)] for a node that is there: the node and the nodes
    below it. *)
Fixpoint countNodes (n : TrieNode) : nat :=
  S (map_fold (fun _ child cnt => (cnt + countNodes child)%nat) 0%nat
              (children n)).

(** The sum taken by the loop of [countNodes] over the children [m]. *)
Definition countBelow (m : gmap ascii TrieNode) : nat :=
  map_fold (fun _ child cnt => (cnt + countNodes child)%nat) 0%nat m.

(** The two numbers printed by [debugStats]. *)
Definition debugStats (e : Engine) : nat * nat :=
  (length (dict e), countNodes (root e)).

(** The loop of [loadFromFile] with [updateFrequency] in the place of its
    body. *)
Definition update_entries (e : Engine) (entries : list (string * Z))
    : Engine :=
  fold_left (fun e wf => updateFrequency e (fst wf) (snd wf)) entries e.

(** The characters of [word] for which a walk from [node] finds no child:
    those from the first missing child on. *)
Fixpoint missing (word : string) (node : TrieNode) : nat :=
  match word with
  | EmptyString => 0%nat
  | String c rest =>
      match children node !! c with
      | Some child => missing rest child
      | None => String.length word
      end
  end.

(** The [wordIndex] a node at path [p] is to carry: the index of [p] when
    [p] is a word marked in [wordSeen], and [-1] otherwise. *)
Definition expected_marker (e : Engine) (p : string) : Z :=
  match wordToIndex e !! p with
  | Some i => if nth (Z.to_nat i) (wordSeen e) false then i else -1
  | None => -1
  end.

Definition markers_ok (e : Engine) : Prop :=
  forall p n, walk p (root e) = Some n -> wordIndex n = expected_marker e p.

(** [wordIndex] of the node at the end of a walk, [-1] as in a new node
    when the walk finds none. *)
Definition marker_of (o : option TrieNode) : Z :=
  wordIndex (default newNode o).

(** A suggestion comes before another one: it has the higher frequency,
    or the same frequency and the smaller text. *)
Definition suggestion_before (a b : string * Z) : Prop :=
  snd a > snd b \/ (snd a = snd b /\ bytewise_lt (fst a) (fst b)).

(** No operation of the sequence lowers the capacity. *)
Fixpoint capacity_kept (e : Engine) (ops : list Op) : Prop :=
  match ops with
  | [] => True
  | o :: ops' =>
      perNodeK e <= perNodeK (step e o) /\ capacity_kept (step e o) ops'
  end.

(** The operation neither removes a word nor sets the capacity. *)
Definition grows (o : Op) : Prop :=
  match o with
  | OpRemove _ | OpSetPerNodeK _ => False
  | _ => True
  end.

(** The cache [v] of the node at path [p] is full, or it holds the index
    of every word of the dictionary that passes through the node, the
    index [skip] left aside. *)
Definition full_or_complete (k : Z) (d : list string) (skip : option Z)
    (p : string) (v : list Z) : Prop :=
  Z.of_nat (length v) = k \/
  forall i, in_dict d i -> skip <> Some i ->
            on_path p (RankHelper.dict_at d i) -> i ∈ v.

Definition saturated (k : Z) (d : list string) (skip : option Z)
    (r : TrieNode) : Prop :=
  forall p n, walk p r = Some n -> p <> EmptyString ->
              full_or_complete k d skip p (topK n).

(** The frequency the registry holds for [w], [0] for a word that has no
    index. *)
Definition frequency_of (e : Engine) (w : string) : Z :=
  match wordToIndex e !! w with
  | Some i => nth (Z.to_nat i) (freqs e) 0
  | None => 0
  end.

(** [w] has an index that is marked in [wordSeen]. *)
Definition is_known (e : Engine) (w : string) : bool :=
  match wordToIndex e !! w with
  | Some i => nth (Z.to_nat i) (wordSeen e) false
  | None => false
  end.

(** An index that is not marked in [wordSeen] has the frequency [0]. *)
Definition unseen_zero (e : Engine) : Prop :=
  forall i, in_dict (dict e) i ->
            nth (Z.to_nat i) (wordSeen e) false = false ->
            nth (Z.to_nat i) (freqs e) 0 = 0.

(** The pair is not the one of the text [w]. *)
Definition other_text (w : string) (wf : string * Z) : Prop := fst wf <> w.

(** ** The command line *)

Module Cli.

(** [while (!s.empty() && isspace(s.back())) s.pop_back()] *)
Fixpoint pop_back_spaces (s : string) : string :=
  match s with
  | EmptyString => EmptyString
  | String c r =>
      match pop_back_spaces r with
      | EmptyString => if isspace c then EmptyString else String c EmptyString
      | r' => String c r'
      end
  end.

(** [trim(s)]: the space characters at the back are popped, then those
    at the front are erased. *)
Definition trim (s : string) : string := skipws (pop_back_spaces s).

End Cli.

(** The first, and the last, character of [s] is a space character. *)
Definition starts_with_space (s : string) : bool :=
  match s with
  | EmptyString => false
  | String c _ => isspace c
  end.

Fixpoint ends_with_space (s : string) : bool :=
  match s with
  | EmptyString => false
  | String c EmptyString => isspace c
  | String _ r => ends_with_space r
  end.

(** ** The best-ranked words of a prefix *)

(** Every index of a word through the node at [p] that is not in the
    cache [v] is ranked after every index that is, the index [skip] left
    aside. *)
Definition dominant (fs : list Z) (d : list string) (skip : option Z)
    (p : string) (v : list Z) : Prop :=
  forall i j, in_dict d i -> skip <> Some i ->
              on_path p (RankHelper.dict_at d i) ->
              i ∉ v -> j ∈ v -> ranked fs d j i.

Definition dominant_all (fs : list Z) (d : list string) (skip : option Z)
    (r : TrieNode) : Prop :=
  forall p n, walk p r = Some n -> p <> EmptyString ->
              dominant fs d skip p (topK n).

(** The entries of a file do not lower the frequency of a known word. *)
Fixpoint raising_entries (e : Engine) (entries : list (string * Z)) : Prop :=
  match entries with
  | [] => True
  | wf :: rest =>
      (is_known e (fst wf) = true -> frequency_of e (fst wf) <= snd wf) /\
      raising_entries (updateFrequency e (fst wf) (snd wf)) rest
  end.

(** The operation removes no word, does not set the capacity, and does
    not lower the frequency of a known word: an insertion adds a delta
    that is not negative, without overflow, and an update or a loaded
    entry sets a frequency that is not below the current one. *)
Definition raises (e : Engine) (o : Op) : Prop :=
  match o with
  | OpInsert w f =>
      is_known e w = true -> 0 <= f /\ frequency_of e w + f <= INT64_MAX
  | OpUpdateFrequency w f =>
      is_known e w = true -> frequency_of e w <= f
  | OpLoadFromFile (Some content) =>
      raising_entries e (extracted (S (String.length content)) content)
  | OpLoadFromFile None => True
  | OpGetTopK _ _ => True
  | OpRemove _ => False
  | OpSetPerNodeK _ => False
  end.

Fixpoint raising_run (e : Engine) (ops : list Op) : Prop :=
  match ops with
  | [] => True
  | o :: ops' => raises e o /\ raising_run (step e o) ops'
  end.

(** What the raising operations keep: the invariant of the reachable
    engines, caches within the capacity, and every cache holding the
    best-ranked words through its node. *)
Record tops (e : Engine) : Prop := {
  tops_inv : inv e;
  tops_bounded : bounded (perNodeK e) (root e);
  tops_saturated : saturated (perNodeK e) (dict e) None (root e);
  tops_dominant : dominant_all (freqs e) (dict e) None (root e)
}.

(** The indices of the known words that start with [p]. *)
Definition prefix_indices (e : Engine) (p : string) : list Z :=
  filter (fun i => String.prefix p (RankHelper.dict_at (dict e) i))
         (known_indices e).

(** The [K] best-ranked known words that start with [p], with their
    frequencies. *)
Definition prefix_top (e : Engine) (p : string) (K : Z)
    : list (string * Z) :=
  map (resolve e)
      (take (Z.to_nat K)
         (std_sort (RankHelper.higher (freqs e) (dict e))
                   (prefix_indices e p))).

(** ** The vocabulary as a map *)

(** The known words with their frequencies. *)
Definition known_map (e : Engine) : gmap string Z :=
  list_to_map (known_pairs e).

(** What an operation does to the map of the known words. *)
Definition model_step (m : gmap string Z) (o : Op) : gmap string Z :=
  match o with
  | OpInsert w f =>
      if is_empty w then m
      else <[w := wrap64 (default 0 (m !! w) + f)]> m
  | OpUpdateFrequency w f => if is_empty w then m else <[w := f]> m
  | OpRemove w => delete w m
  | OpLoadFromFile (Some content) =>
      fold_left (fun m wf => <[fst wf := snd wf]> m)
                (extracted (S (String.length content)) content) m
  | OpLoadFromFile None => m
  | OpSetPerNodeK _ => m
  | OpGetTopK _ _ => m
  end.

(** * Properties *)

(** ** Byte-wise order on strings *)

Lemma ascii_compare_eq c1 c2 : Ascii.compare c1 c2 = Eq <-> c1 = c2.
Proof.
  unfold Ascii.compare. rewrite N.compare_eq_iff. split; [|congruence].
  intros H. rewrite <- (ascii_N_embedding c1), <- (ascii_N_embedding c2).
  congruence.
Qed.

Lemma string_compare_lt s1 s2 :
  String.compare s1 s2 = Lt <-> bytewise_lt s1 s2.
Proof.
  revert s2. induction s1 as [|c1 s1 IH]; intros [|c2 s2]; simpl.
  - split; [discriminate | inversion 1].
  - split; [constructor | reflexivity].
  - split; [discriminate | inversion 1].
  - destruct (Ascii.compare c1 c2) eqn:E.
    + apply ascii_compare_eq in E as ->. rewrite IH. split.
      * by constructor.
      * inversion 1; subst; [lia | done].
    + unfold Ascii.compare in E. apply N.compare_lt_iff in E.
      split; [by constructor | done].
    + unfold Ascii.compare in E. apply N.compare_gt_iff in E.
      split; [discriminate |]. inversion 1; subst; lia.
Qed.

Lemma string_ltb_lt s1 s2 : String.ltb s1 s2 = true <-> bytewise_lt s1 s2.
Proof.
  rewrite <- string_compare_lt. unfold String.ltb.
  destruct (String.compare s1 s2); split; congruence.
Qed.

Lemma bytewise_lt_irrefl s : ~ bytewise_lt s s.
Proof. induction s; inversion 1; subst; [lia | auto]. Qed.

Lemma bytewise_lt_trans s1 s2 s3 :
  bytewise_lt s1 s2 -> bytewise_lt s2 s3 -> bytewise_lt s1 s3.
Proof.
  intros H. revert s3. induction H; inversion 1; subst.
  - constructor.
  - constructor.
  - apply bytewise_lt_head. lia.
  - by apply bytewise_lt_head.
  - by apply bytewise_lt_head.
  - apply bytewise_lt_tail. auto.
Qed.

Lemma bytewise_lt_total s1 s2 :
  s1 <> s2 -> bytewise_lt s1 s2 \/ bytewise_lt s2 s1.
Proof.
  revert s2. induction s1 as [|c1 s1 IH]; intros [|c2 s2] Hne.
  - done.
  - left. constructor.
  - right. constructor.
  - destruct (N.lt_total (N_of_ascii c1) (N_of_ascii c2)) as [?|[E|?]].
    + left. by constructor.
    + assert (c1 = c2) as ->.
      { rewrite <- (ascii_N_embedding c1), <- (ascii_N_embedding c2).
        congruence. }
      destruct (IH s2) as [?|?]; [congruence | left | right];
        by apply bytewise_lt_tail.
    + right. by constructor.
Qed.

(** ** The ranking *)

Section ranking.
Context (fs : list Z) (d : list string).

Lemma higher_iff a b :
  RankHelper.higher fs d a b = true <->
  RankHelper.freq_or_0 fs b < RankHelper.freq_or_0 fs a \/
  (RankHelper.freq_or_0 fs a = RankHelper.freq_or_0 fs b /\
   bytewise_lt (RankHelper.dict_at d a) (RankHelper.dict_at d b)).
Proof.
  unfold RankHelper.higher. rewrite <- string_ltb_lt.
  destruct (Z.eqb_spec (RankHelper.freq_or_0 fs a)
                       (RankHelper.freq_or_0 fs b)) as [E|E]; simpl.
  - rewrite E. intuition lia.
  - rewrite Z.ltb_lt. intuition lia.
Qed.

Lemma ranked_irrefl a : ~ ranked fs d a a.
Proof.
  unfold ranked. rewrite higher_iff. intros [?|[_ H]]; [lia|].
  by apply bytewise_lt_irrefl in H.
Qed.

Lemma ranked_trans a b c :
  ranked fs d a b -> ranked fs d b c -> ranked fs d a c.
Proof.
  unfold ranked. rewrite !higher_iff.
  intros [?|[? H1]] [?|[? H2]]; try (left; lia).
  right. split; [lia|]. eapply bytewise_lt_trans; eauto.
Qed.

Lemma ranked_asym a b : ranked fs d a b -> ranked fs d b a -> False.
Proof. intros H1 H2. apply (ranked_irrefl a). eapply ranked_trans; eauto. Qed.

Lemma ranked_total a b :
  RankHelper.dict_at d a <> RankHelper.dict_at d b ->
  ranked fs d a b \/ ranked fs d b a.
Proof.
  intros Hne. unfold ranked. rewrite !higher_iff.
  destruct (Z.lt_total (RankHelper.freq_or_0 fs a)
                       (RankHelper.freq_or_0 fs b)) as [?|[E|?]]; auto.
  destruct (bytewise_lt_total _ _ Hne); auto.
Qed.

Lemma freq_or_0_in a :
  length fs = length d -> in_dict d a ->
  RankHelper.freq_or_0 fs a = nth (Z.to_nat a) fs 0.
Proof.
  intros Hlen [H0 H1]. unfold RankHelper.freq_or_0. rewrite Hlen.
  destruct (Z.leb_spec 0 a); [|lia].
  destruct (Z.ltb_spec a (Z.of_nat (length d))); [done | lia].
Qed.

Lemma dict_at_lookup a :
  in_dict d a -> d !! Z.to_nat a = Some (RankHelper.dict_at d a).
Proof.
  intros [H0 H1]. unfold RankHelper.dict_at. rewrite nth_lookup.
  destruct (lookup_lt_is_Some_2 d (Z.to_nat a)) as [w ->]; [lia | done].
Qed.

Lemma dict_at_inj a b :
  NoDup d -> in_dict d a -> in_dict d b ->
  RankHelper.dict_at d a = RankHelper.dict_at d b -> a = b.
Proof.
  intros Hnd Ha Hb E.
  pose proof (dict_at_lookup a Ha) as H1.
  pose proof (dict_at_lookup b Hb) as H2. rewrite <- E in H2.
  pose proof (NoDup_lookup d _ _ _ Hnd H1 H2).
  destruct Ha, Hb. lia.
Qed.

Lemma ranked_total_in a b :
  NoDup d -> in_dict d a -> in_dict d b -> a <> b ->
  ranked fs d a b \/ ranked fs d b a.
Proof.
  intros Hnd Ha Hb Hne. apply ranked_total. intros E.
  by apply Hne, dict_at_inj.
Qed.

End ranking.

(** ** Sorting *)

Section sorting.
Context (comp : Z -> Z -> bool).
Abbreviation R := (precedes comp).
Hypothesis R_trans : forall a b c, R a b -> R b c -> R a c.
Hypothesis R_irrefl : forall a, ~ R a a.

Lemma sorted_insert_perm x l : sorted_insert comp x l ≡ₚ x :: l.
Proof using Type.
  induction l as [|y l IH]; simpl; [done|].
  destruct (comp x y); [done|]. rewrite IH. apply Permutation_swap.
Qed.

Lemma std_sort_perm l : std_sort comp l ≡ₚ l.
Proof using Type.
  induction l as [|x l IH]; simpl; [done|].
  rewrite sorted_insert_perm. by constructor.
Qed.

Lemma sorted_insert_sorted x l :
  (forall y, y ∈ l -> R x y \/ R y x) ->
  StronglySorted R l -> StronglySorted R (sorted_insert comp x l).
Proof using R_trans.
  intros Hcmp Hs. induction Hs as [|y l Hs IH Hy]; simpl.
  - repeat constructor.
  - destruct (comp x y) eqn:E.
    + constructor; [by constructor|]. constructor; [done|].
      eapply Forall_impl; [exact Hy|]. intros z Hz. by eapply R_trans.
    + constructor.
      * apply IH. intros z Hz. apply Hcmp. by right.
      * rewrite sorted_insert_perm. constructor; [|done].
        destruct (Hcmp y) as [H|H]; [by left | | done].
        unfold R in H. congruence.
Qed.

Lemma std_sort_sorted l :
  NoDup l -> comparable comp l -> StronglySorted R (std_sort comp l).
Proof using R_trans.
  intros Hnd Hcmp. induction Hnd as [|x l Hx Hnd IH]; simpl.
  - constructor.
  - apply sorted_insert_sorted.
    + intros y Hy. rewrite std_sort_perm in Hy. apply Hcmp.
      * by left.
      * by right.
      * intros ->. done.
    + apply IH. intros a b Ha Hb. apply Hcmp; by right.
Qed.

(** Any sorted arrangement of the elements is the one [std_sort] returns. *)
Lemma std_sort_unique l l' :
  NoDup l -> comparable comp l ->
  l' ≡ₚ l -> StronglySorted R l' -> l' = std_sort comp l.
Proof using R_trans R_irrefl.
  intros Hnd Hcmp Hp Hs.
  apply (StronglySorted_unique_strong R); [|done| |].
  - intros a b _ _ H1 H2. destruct (R_irrefl a). by eapply R_trans.
  - by apply std_sort_sorted.
  - by rewrite std_sort_perm.
Qed.

Lemma std_sort_sorted_id l :
  StronglySorted R l -> std_sort comp l = l.
Proof using R_trans R_irrefl.
  intros Hs. induction Hs as [|x l Hs IH Hx]; simpl; [done|].
  rewrite IH. destruct l as [|y l]; simpl; [done|].
  inversion Hx as [|? ? Hxy _]; subst. unfold R in Hxy. by rewrite Hxy.
Qed.

Lemma StronglySorted_sublist (l1 l2 : list Z) :
  l1 `sublist_of` l2 -> StronglySorted R l2 -> StronglySorted R l1.
Proof using Type.
  intros Hsub Hs. revert l1 Hsub.
  induction Hs as [|x l2 Hs IH Hx]; intros l1 Hsub.
  - apply sublist_nil_r in Hsub as ->. constructor.
  - apply sublist_cons_r in Hsub as [Hsub|(l1' & -> & Hsub)]; [by apply IH|].
    constructor; [by apply IH|].
    rewrite Forall_forall in Hx |- *. intros y Hy. apply Hx.
    eapply elem_of_sublist; eauto.
Qed.

End sorting.

(** ** Vector helpers *)

Lemma found_iff idx v : found idx v = true <-> idx ∈ v.
Proof.
  induction v as [|y v IH]; simpl.
  - split; [discriminate | by intros ?%elem_of_nil].
  - rewrite elem_of_cons. destruct (Z.eqb_spec y idx); [intuition|].
    rewrite IH. intuition congruence.
Qed.

Lemma found_false idx v : found idx v = false <-> idx ∉ v.
Proof. rewrite <- found_iff. destruct (found idx v); intuition congruence. Qed.

Lemma erase_first_sublist idx v : erase_first idx v `sublist_of` v.
Proof.
  induction v as [|y v IH]; simpl; [done|].
  destruct (y =? idx); [by apply sublist_cons | by apply sublist_skip].
Qed.

Lemma erase_first_not_elem idx v : NoDup v -> idx ∉ erase_first idx v.
Proof.
  induction 1 as [|y v Hy Hnd IH]; simpl; [by intros ?%elem_of_nil|].
  destruct (Z.eqb_spec y idx) as [->|Hne]; [done|].
  rewrite elem_of_cons. intuition congruence.
Qed.

Lemma erase_first_other idx v x : x <> idx -> x ∈ v -> x ∈ erase_first idx v.
Proof.
  intros Hne. induction v as [|y v IH]; simpl; [done|].
  rewrite elem_of_cons. destruct (Z.eqb_spec y idx) as [->|Hy].
  - intuition congruence.
  - rewrite elem_of_cons. intuition.
Qed.

Lemma erase_first_absent idx v : idx ∉ v -> erase_first idx v = v.
Proof.
  induction v as [|y v IH]; simpl; [done|].
  rewrite elem_of_cons. intros H. destruct (Z.eqb_spec y idx) as [->|?].
  - tauto.
  - f_equal. tauto.
Qed.

Lemma trim_take k v : 0 <= k -> trim k v = take (Z.to_nat k) v.
Proof.
  intros Hk. unfold trim. destruct (Z.ltb_spec k (Z.of_nat (length v))); [done|].
  rewrite take_ge; [done | lia].
Qed.

Lemma trim_sublist k v : 0 <= k -> trim k v `sublist_of` v.
Proof. intros Hk. rewrite trim_take by done. apply sublist_take. Qed.

Lemma trim_length k v : 0 <= k -> Z.of_nat (length (trim k v)) <= k.
Proof. intros Hk. rewrite trim_take, length_take by done. lia. Qed.

(** ** Caches *)

Lemma higher_ext fs d fs' d' a b :
  RankHelper.freq_or_0 fs' a = RankHelper.freq_or_0 fs a ->
  RankHelper.freq_or_0 fs' b = RankHelper.freq_or_0 fs b ->
  RankHelper.dict_at d' a = RankHelper.dict_at d a ->
  RankHelper.dict_at d' b = RankHelper.dict_at d b ->
  RankHelper.higher fs' d' a b = RankHelper.higher fs d a b.
Proof. unfold RankHelper.higher. by intros -> -> -> ->. Qed.

Lemma cache_ok_nil fs d p : cache_ok fs d p [].
Proof. split; constructor. Qed.

Lemma cache_ok_sublist fs d p v v' :
  v' `sublist_of` v -> cache_ok fs d p v -> cache_ok fs d p v'.
Proof.
  intros Hsub [H1 H2 H3]. split.
  - by eapply sublist_NoDup.
  - by eapply StronglySorted_sublist.
  - rewrite Forall_forall in H3 |- *. intros x Hx. apply H3.
    by eapply elem_of_sublist.
Qed.

(** A cache stays in order when the registry changes away from its
    members. *)
Lemma cache_ok_ext fs d fs' d' p v :
  (forall i, i ∈ v ->
     RankHelper.freq_or_0 fs' i = RankHelper.freq_or_0 fs i) ->
  (forall i, in_dict d i -> RankHelper.dict_at d' i = RankHelper.dict_at d i) ->
  (length d <= length d')%nat ->
  cache_ok fs d p v -> cache_ok fs' d' p v.
Proof.
  intros Hf Hd Hlen [H1 H2 H3]. rewrite Forall_forall in H3. split; [done| |].
  - clear H1. induction H2 as [|x l Hs IH Hx]; [constructor|].
    constructor.
    + apply IH; intros; [apply Hf | apply H3]; by right.
    + rewrite Forall_forall in Hx |- *. intros y Hy. unfold ranked.
      rewrite (higher_ext fs d); [by apply Hx|..].
      * apply Hf. by left.
      * apply Hf. by right.
      * apply Hd, H3. by left.
      * apply Hd, H3. by right.
  - rewrite Forall_forall. intros i Hi. destruct (H3 i Hi) as [Hin Hp].
    rewrite Hd by done. split; [|done]. unfold in_dict in *. lia.
Qed.

Lemma cache_ok_root fs d v : cache_ok fs d EmptyString v -> v = [].
Proof.
  intros [_ _ H]. destruct v as [|i v]; [done|].
  inversion H as [|? ? [_ [Hne _]] _]; subst. done.
Qed.

Lemma update_cache_ok k fs d p idx v :
  0 <= k -> NoDup d ->
  NoDup v ->
  Forall (fun i => in_dict d i /\ on_path p (RankHelper.dict_at d i)) v ->
  in_dict d idx -> on_path p (RankHelper.dict_at d idx) ->
  cache_ok fs d p (update_cache k fs d idx v).
Proof.
  intros Hk Hd Hnd Hv Hidx Hp. unfold update_cache.
  set (v1 := if found idx v then v else v ++ [idx]).
  assert (NoDup v1) as Hnd1.
  { unfold v1. destruct (found idx v) eqn:E; [done|].
    apply found_false in E. apply NoDup_app. split_and!; [done| |].
    - intros x Hx ->%list_elem_of_singleton. done.
    - apply NoDup_singleton. }
  assert (Forall (fun i => in_dict d i /\
                           on_path p (RankHelper.dict_at d i)) v1) as Hv1.
  { unfold v1. destruct (found idx v); [done|].
    apply Forall_app. split; [done|]. by apply Forall_singleton. }
  apply (cache_ok_sublist _ _ _ (std_sort (RankHelper.higher fs d) v1));
    [by apply trim_sublist|].
  rewrite Forall_forall in Hv1. split.
  - by rewrite std_sort_perm.
  - apply std_sort_sorted; [apply ranked_trans | done |].
    intros x y Hx Hy Hne. apply (ranked_total_in fs d); [done|..|done].
    + by apply Hv1.
    + by apply Hv1.
  - rewrite Forall_forall. intros x Hx. rewrite std_sort_perm in Hx. auto.
Qed.

Lemma update_cache_elem k fs d idx v x :
  0 <= k -> x ∈ update_cache k fs d idx v -> x = idx \/ x ∈ v.
Proof.
  intros Hk Hx. unfold update_cache in Hx.
  eapply elem_of_sublist in Hx; [|by apply trim_sublist].
  rewrite std_sort_perm in Hx. destruct (found idx v); [by right|].
  apply elem_of_app in Hx as [?|?%list_elem_of_singleton]; auto.
Qed.

(** ** Walking the trie *)

Lemma walk_newNode p : p <> EmptyString -> walk p newNode = None.
Proof. destruct p; [done|]. intros _. simpl. by rewrite lookup_empty. Qed.

Lemma prefix_empty_r p : String.prefix p EmptyString = true -> p = EmptyString.
Proof. by destruct p. Qed.

Lemma prefix_empty_l w : String.prefix EmptyString w = true.
Proof. by destruct w. Qed.

Lemma prefix_cons c p c' w :
  String.prefix (String c p) (String c' w) = true <->
  c = c' /\ String.prefix p w = true.
Proof.
  simpl. destruct (ascii_dec c c'); intuition congruence.
Qed.

Lemma prefix_refl w : String.prefix w w = true.
Proof. induction w as [|c w IH]; [done|]. apply prefix_cons. auto. Qed.

Lemma on_path_cons c p c' w :
  on_path (String c p) (String c' w) <-> c = c' /\ String.prefix p w = true.
Proof. unfold on_path. rewrite prefix_cons. intuition congruence. Qed.

Lemma on_path_empty w : ~ on_path EmptyString w.
Proof. by intros [? _]. Qed.

Section along_path.
Context (create : bool) (enter finish : TrieNode -> TrieNode).
Context (fc : list Z -> list Z).
Hypothesis enter_children : forall n, children (enter n) = children n.
Hypothesis enter_topK : forall n, topK (enter n) = fc (topK n).
Hypothesis finish_children : forall n, children (finish n) = children n.
Hypothesis finish_topK : forall n, topK (finish n) = topK n.

Lemma walk_enter p n : p <> EmptyString -> walk p (enter n) = walk p n.
Proof using enter_children.
  destruct p; [done|]. intros _. simpl. by rewrite enter_children.
Qed.

(** The cache found at any path after the loop, in terms of the trie
    before it. *)
Lemma walk_along_path word : forall node p n',
  walk p (along_path create enter finish word node) = Some n' ->
  (p = EmptyString /\ topK n' = topK node) \/
  (on_path p word /\
   topK n' = fc (topK (default newNode (walk p node))) /\
   (create = false -> is_Some (walk p node))) \/
  (String.prefix p word = false /\
   exists n, walk p node = Some n /\ topK n' = topK n).
Proof using All.
  induction word as [|c rest IH]; intros node p n' Hw.
  - simpl in Hw. destruct p as [|c' p'].
    + simpl in Hw. injection Hw as <-. left. by rewrite finish_topK.
    + right. right. split; [done|]. exists n'. split; [|done].
      simpl in *. by rewrite finish_children in Hw.
  - destruct p as [|c' p'].
    { left. split; [done|]. simpl in Hw.
      destruct (children node !! c); [|destruct create];
        by injection Hw as <-. }
    assert (forall child,
      (children node !! c = Some child \/
       children node !! c = None /\ child = newNode /\ create = true) ->
      walk (String c' p')
        (set_children node
           (<[c := along_path create enter finish rest (enter child)]>
              (children node))) = Some n' ->
      (on_path (String c' p') (String c rest) /\
       topK n' = fc (topK (default newNode (walk (String c' p') node))) /\
       (create = false -> is_Some (walk (String c' p') node))) \/
      (String.prefix (String c' p') (String c rest) = false /\
       exists n, walk (String c' p') node = Some n /\ topK n' = topK n))
      as Hcase.
    { intros child Hchild Hw'. simpl in Hw'.
      destruct (decide (c = c')) as [<-|Hne].
      - rewrite lookup_insert_eq in Hw'.
        assert (forall q, q <> EmptyString ->
                  walk (String c q) node = walk q child) as Hsub.
        { intros q Hq. simpl.
          destruct Hchild as [->|(-> & -> & _)]; [done|].
          by rewrite walk_newNode. }
        assert (walk (String c EmptyString) node = Some child \/
                walk (String c EmptyString) node = None /\ child = newNode
                /\ create = true) as Hhere.
        { simpl. destruct Hchild as [->|(-> & -> & ->)]; auto. }
        destruct (IH _ _ _ Hw') as [[-> Ht]|[(Hp & Ht & Hc)|(Hp & n & Hn & Ht)]].
        + left. split; [apply on_path_cons; auto using prefix_empty_l|].
          split.
          * rewrite Ht, enter_topK.
            destruct Hhere as [->|(-> & -> & _)]; done.
          * intros Hcr. destruct Hhere as [->|(_ & _ & ?)]; [done|congruence].
        + left. destruct Hp as [Hp1 Hp2].
          split; [by apply on_path_cons|].
          rewrite walk_enter in Ht, Hc by done.
          rewrite Hsub by done. done.
        + assert (p' <> EmptyString) as Hp'.
          { intros ->. by rewrite prefix_empty_l in Hp. }
          right. split.
          * apply not_true_iff_false. rewrite prefix_cons.
            intros [_ ?]. congruence.
          * exists n. rewrite walk_enter in Hn by done.
            by rewrite Hsub.
      - rewrite lookup_insert_ne in Hw' by done. right. split.
        + simpl. destruct (ascii_dec c' c); [congruence | done].
        + exists n'. done. }
    simpl in Hw. destruct (children node !! c) as [child|] eqn:E.
    + right. apply (Hcase child); auto.
    + destruct create eqn:Ecr.
      * right. apply (Hcase newNode); auto.
      * right. right. split.
        -- simpl. destruct (ascii_dec c' c) as [->|?]; [|done].
           simpl in Hw. rewrite E in Hw. done.
        -- by exists n'.
Qed.

(** Paths that exist survive the loop. *)
Lemma walk_along_path_some word : forall node p,
  is_Some (walk p node) ->
  is_Some (walk p (along_path create enter finish word node)).
Proof using enter_children finish_children.
  induction word as [|c rest IH]; intros node p Hp.
  - simpl. destruct p; [done|]. simpl in *. by rewrite finish_children.
  - destruct p as [|c' p']; [done|]. simpl in Hp |- *.
    destruct (children node !! c) as [child|] eqn:E.
    + simpl. destruct (decide (c = c')) as [<-|Hne].
      * rewrite lookup_insert_eq. rewrite E in Hp. apply IH.
        destruct p'; [done|]. by rewrite walk_enter.
      * by rewrite lookup_insert_ne.
    + destruct create; [|done]. simpl.
      destruct (decide (c = c')) as [<-|Hne].
      * by rewrite E in Hp.
      * by rewrite lookup_insert_ne.
Qed.

End along_path.

Lemma walk_along_path_word enter finish word : forall node,
  is_Some (walk word (along_path true enter finish word node)).
Proof.
  induction word as [|c rest IH]; intros node; [done|].
  simpl. destruct (children node !! c); simpl; rewrite lookup_insert_eq;
    by apply IH.
Qed.

(** The loops of the source are instances of [along_path]. *)

Lemma updateTopKForWord_along k fs d idx word : forall node,
  updateTopKForWord k fs d word idx node =
  along_path true
    (fun n => set_topK n (update_cache k fs d idx (topK n)))
    (fun n => set_wordIndex n idx) word node.
Proof.
  induction word as [|c rest IH]; intros node; simpl; [done|].
  rewrite IH. by destruct (children node !! c).
Qed.

Lemma insertPath_along idx word : forall node,
  insertPath word idx node =
  along_path true (fun n => n) (fun n => set_wordIndex n idx) word node.
Proof.
  induction word as [|c rest IH]; intros node; simpl; [done|].
  rewrite IH. by destruct (children node !! c).
Qed.

Lemma removeIndexFromPath_along idx word : forall node,
  removeIndexFromPath word idx node =
  along_path false
    (fun n => set_topK n (erase_first idx (topK n))) (fun n => n) word node.
Proof.
  induction word as [|c rest IH]; intros node; simpl; [done|].
  destruct (children node !! c); [|done]. by rewrite IH.
Qed.

Lemma clearWordIndex_along word : forall node,
  is_Some (walk word node) ->
  clearWordIndex word node =
  Some (along_path false (fun n => n) (fun n => set_wordIndex n (-1))
                   word node).
Proof.
  induction word as [|c rest IH]; intros node Hw; simpl; [done|].
  simpl in Hw. destruct (children node !! c) as [child|]; [|by destruct Hw].
  by rewrite IH.
Qed.

Lemma clearWordIndex_none word : forall node,
  walk word node = None -> clearWordIndex word node = None.
Proof.
  induction word as [|c rest IH]; intros node Hw; simpl in *; [done|].
  destruct (children node !! c) as [child|]; [|done]. by rewrite IH.
Qed.

(** ** The registry *)

Lemma wrap64_range z : in_int64 (wrap64 z).
Proof.
  unfold in_int64, wrap64, INT64_MIN, INT64_MAX.
  pose proof (Z.mod_pos_bound (z + 2 ^ 63) (2 ^ 64)). lia.
Qed.

Lemma wrap64_id z : in_int64 z -> wrap64 z = z.
Proof.
  unfold in_int64, wrap64, INT64_MIN, INT64_MAX. intros H.
  rewrite Z.mod_small; lia.
Qed.

Lemma registry_NoDup e : registry_ok e -> NoDup (dict e).
Proof.
  intros He. apply NoDup_alt. intros i j w Hi Hj.
  assert (wordToIndex e !! w = Some (Z.of_nat i)) as H1.
  { apply (reg_index e He). rewrite Nat2Z.id. split; [lia | done]. }
  assert (wordToIndex e !! w = Some (Z.of_nat j)) as H2.
  { apply (reg_index e He). rewrite Nat2Z.id. split; [lia | done]. }
  rewrite H1 in H2. injection H2. lia.
Qed.

Lemma registry_lookup e w i :
  registry_ok e -> wordToIndex e !! w = Some i ->
  in_dict (dict e) i /\ RankHelper.dict_at (dict e) i = w /\ w ∈ dict e.
Proof.
  intros He Hi. apply (reg_index e He) in Hi as [H0 Hw].
  pose proof (lookup_lt_Some _ _ _ Hw). split; [unfold in_dict; lia|].
  split.
  - unfold RankHelper.dict_at. by rewrite nth_lookup, Hw.
  - by eapply list_elem_of_lookup_2.
Qed.

Lemma freq_or_0_app fs i : 
  RankHelper.freq_or_0 (fs ++ [0]) i = RankHelper.freq_or_0 fs i.
Proof.
  unfold RankHelper.freq_or_0. rewrite length_app. simpl.
  destruct (Z.leb_spec 0 i); simpl; [|done].
  destruct (Z.ltb_spec i (Z.of_nat (length fs))).
  - destruct (Z.ltb_spec i (Z.of_nat (length fs + 1))); [|lia].
    rewrite app_nth1; [done | lia].
  - destruct (Z.ltb_spec i (Z.of_nat (length fs + 1))); [|done].
    rewrite app_nth2 by lia.
    replace (Z.to_nat i - length fs)%nat with 0%nat by lia. done.
Qed.

Lemma freq_or_0_insert_ne fs idx x i :
  0 <= idx -> i <> idx ->
  RankHelper.freq_or_0 (<[Z.to_nat idx := x]> fs) i = RankHelper.freq_or_0 fs i.
Proof.
  intros H0 Hne. unfold RankHelper.freq_or_0. rewrite length_insert.
  destruct (Z.leb_spec 0 i); simpl; [|done].
  destruct (Z.ltb_spec i (Z.of_nat (length fs))); [|done].
  rewrite !nth_lookup, list_lookup_insert_ne; [done | lia].
Qed.

Lemma dict_at_app d w i :
  in_dict d i -> RankHelper.dict_at (d ++ [w]) i = RankHelper.dict_at d i.
Proof.
  intros [H0 H1]. unfold RankHelper.dict_at. rewrite app_nth1; [done | lia].
Qed.

(** What [ensureWordIndex] returns and leaves behind. *)
Lemma ensureWordIndex_spec e w e1 idx :
  inv e -> w <> EmptyString -> ensureWordIndex e w = (e1, idx) ->
  registry_ok e1 /\
  caches_ok (freqs e1) (dict e1) (root e1) /\
  in_dict (dict e1) idx /\ RankHelper.dict_at (dict e1) idx = w /\
  wordToIndex e1 !! w = Some idx /\
  perNodeK e1 = perNodeK e /\
  (forall w', w' ∈ dict e1 -> w' <> w -> is_Some (walk w' (root e1))) /\
  unseen_absent (dict e1) (wordSeen e1) (root e1).
Proof.
  intros [Hreg Hc Hp Hu] Hw. unfold ensureWordIndex.
  destruct (wordToIndex e !! w) as [i|] eqn:E; intros [= <- <-].
  - destruct (registry_lookup _ _ _ Hreg E) as (? & ? & ?).
    split_and!; auto.
  - destruct Hreg as [Hlf Hls Hidx Hne Hrange Hk]. simpl.
    assert (in_dict (dict e ++ [w]) (Z.of_nat (length (dict e)))) as Hin.
    { unfold in_dict. rewrite length_app. simpl. lia. }
    split_and!; [split; simpl|..]; auto.
    + rewrite !length_app. simpl. lia.
    + rewrite !length_app. simpl. lia.
    + intros w' i. destruct (decide (w' = w)) as [->|Hw'].
      * rewrite lookup_insert_eq. split.
        -- intros [= <-]. split; [lia|]. rewrite Nat2Z.id.
           by rewrite lookup_app_r, Nat.sub_diag.
        -- intros [H0 Hl]. f_equal.
           destruct (decide (Z.to_nat i < length (dict e))%nat) as [Hlt|Hge].
           ++ rewrite lookup_app_l in Hl by done.
              assert (wordToIndex e !! w = Some i) by (by apply Hidx).
              congruence.
           ++ pose proof (lookup_lt_Some _ _ _ Hl) as Hlt.
              rewrite length_app in Hlt. simpl in Hlt. lia.
      * rewrite lookup_insert_ne by done. rewrite Hidx.
        split; intros [H0 Hl]; (split; [done|]).
        -- apply lookup_app_l_Some. done.
        -- apply lookup_app_Some in Hl as [?|[_ Hl]]; [done|].
           apply list_lookup_singleton_Some in Hl as [_ ?]. congruence.
    + intros w' [?|?%list_elem_of_singleton]%elem_of_app; [auto|congruence].
    + apply Forall_app. split; [done|]. apply Forall_singleton.
      unfold in_int64, INT64_MIN, INT64_MAX. lia.
    + intros p n Hn. eapply cache_ok_ext; [| | |by apply Hc].
      * intros i _. apply freq_or_0_app.
      * intros i Hi. by apply dict_at_app.
      * rewrite length_app. lia.
    + unfold RankHelper.dict_at. rewrite Nat2Z.id.
      rewrite app_nth2, Nat.sub_diag; [done | lia].
    + apply lookup_insert_eq.
    + intros w' [?|?%list_elem_of_singleton]%elem_of_app ?; [auto|congruence].
    + intros i [Hi0 Hi1] Hs.
      destruct (decide (i < Z.of_nat (length (dict e)))) as [Hlt|Hge].
      * apply Hu; [done|]. rewrite app_nth1 in Hs; [done | lia].
      * intros p n Hn Hmem. destruct (Hc p n Hn) as [_ _ Hm].
        rewrite Forall_forall in Hm. destruct (Hm i Hmem) as [[_ ?] _]. lia.
Qed.

(** Assigning a frequency and the [wordSeen] flag at an index. *)
Lemma registry_ok_assign e r idx x b :
  registry_ok e -> 0 <= idx -> in_int64 x ->
  registry_ok (mkEngine r (perNodeK e) (dict e)
                        (<[Z.to_nat idx := x]> (freqs e))
                        (<[Z.to_nat idx := b]> (wordSeen e)) (wordToIndex e)).
Proof.
  intros [Hlf Hls Hidx Hne Hrange Hk] H0 Hx. split; simpl; auto.
  - by rewrite length_insert.
  - by rewrite length_insert.
  - apply Forall_insert; done.
Qed.

(** ** Cache maintenance keeps every cache in order *)

Lemma caches_ok_update k fs fs' d w idx r :
  0 <= k -> NoDup d -> in_dict d idx -> RankHelper.dict_at d idx = w ->
  (forall i, i <> idx ->
     RankHelper.freq_or_0 fs' i = RankHelper.freq_or_0 fs i) ->
  caches_ok fs d r ->
  caches_ok fs' d (updateTopKForWord k fs' d w idx r).
Proof.
  intros Hk Hnd Hidx Hw Hfs Hc p n' Hn'.
  rewrite updateTopKForWord_along in Hn'.
  apply (walk_along_path _ _ _ (update_cache k fs' d idx)) in Hn'; try done.
  destruct Hn' as [[-> Ht]|[(Hp & Ht & _)|(Hp & n & Hn & Ht)]].
  - rewrite Ht. rewrite (cache_ok_root fs d (topK r)); [apply cache_ok_nil|].
    by apply Hc.
  - rewrite Ht. apply update_cache_ok; try done; [| |by rewrite Hw].
    + destruct (walk p r) as [n|] eqn:E; simpl; [|constructor].
      by destruct (Hc p n E).
    + destruct (walk p r) as [n|] eqn:E; simpl; [|constructor].
      by destruct (Hc p n E).
  - rewrite Ht. pose proof (Hc p n Hn) as Hok.
    eapply cache_ok_ext; [| | |exact Hok]; [|done|done].
    intros i Hi. apply Hfs. intros ->.
    destruct Hok as [_ _ Hm]. rewrite Forall_forall in Hm.
    destruct (Hm idx Hi) as [_ [_ Hpre]]. congruence.
Qed.

Lemma caches_ok_remove fs fs' d w idx r :
  in_dict d idx -> RankHelper.dict_at d idx = w ->
  (forall i, i <> idx ->
     RankHelper.freq_or_0 fs' i = RankHelper.freq_or_0 fs i) ->
  caches_ok fs d r ->
  caches_ok fs' d (removeIndexFromPath w idx r).
Proof.
  intros Hidx Hw Hfs Hc p n' Hn'.
  rewrite removeIndexFromPath_along in Hn'.
  apply (walk_along_path _ _ _ (erase_first idx)) in Hn'; try done.
  destruct Hn' as [[-> Ht]|[(Hp & Ht & Hs)|(Hp & n & Hn & Ht)]].
  - rewrite Ht. rewrite (cache_ok_root fs d (topK r)); [apply cache_ok_nil|].
    by apply Hc.
  - destruct Hs as [n Hn]; [done|]. rewrite Hn in Ht. simpl in Ht.
    rewrite Ht. pose proof (Hc p n Hn) as Hok.
    eapply cache_ok_ext;
      [| | |eapply cache_ok_sublist; [apply erase_first_sublist|exact Hok]];
      [|done|done].
    intros i Hi. apply Hfs. intros ->.
    by apply (erase_first_not_elem idx (topK n)); [destruct Hok|].
  - rewrite Ht. pose proof (Hc p n Hn) as Hok.
    eapply cache_ok_ext; [| | |exact Hok]; [|done|done].
    intros i Hi. apply Hfs. intros ->.
    destruct Hok as [_ _ Hm]. rewrite Forall_forall in Hm.
    destruct (Hm idx Hi) as [_ [_ Hpre]]. congruence.
Qed.

(** A loop that leaves the caches alone. *)
Lemma caches_ok_along create finish fs d w r :
  (forall n, children (finish n) = children n) ->
  (forall n, topK (finish n) = topK n) ->
  caches_ok fs d r ->
  caches_ok fs d (along_path create (fun n => n) finish w r).
Proof.
  intros Hf1 Hf2 Hc p n' Hn'.
  apply (walk_along_path _ _ _ (fun v => v)) in Hn'; try done.
  destruct Hn' as [[-> Ht]|[(Hp & Ht & _)|(Hp & n & Hn & Ht)]].
  - rewrite Ht. by apply Hc.
  - rewrite Ht. destruct (walk p r) as [n|] eqn:E; simpl.
    + by apply Hc.
    + apply cache_ok_nil.
  - rewrite Ht. by apply Hc.
Qed.

Lemma paths_ok_along create enter finish d w r :
  (forall n, children (enter n) = children n) ->
  (forall n, children (finish n) = children n) ->
  paths_ok d r -> paths_ok d (along_path create enter finish w r).
Proof. intros He Hf Hp w' Hw'. apply walk_along_path_some; auto. Qed.

(** ** Indices that are in no cache *)

Lemma ensureWordIndex_root e w e1 idx :
  ensureWordIndex e w = (e1, idx) ->
  root e1 = root e /\ perNodeK e1 = perNodeK e.
Proof.
  unfold ensureWordIndex.
  destruct (wordToIndex e !! w); by intros [= <- <-].
Qed.

Lemma ensureWordIndex_keeps e w e1 idx text i :
  ensureWordIndex e w = (e1, idx) ->
  wordToIndex e !! text = Some i -> wordToIndex e1 !! text = Some i.
Proof.
  unfold ensureWordIndex.
  destruct (wordToIndex e !! w) eqn:E; intros [= <- <-] Ht; [done|].
  simpl. rewrite lookup_insert_ne; [done | congruence].
Qed.

Lemma absent_update k fs d w idx' idx r :
  0 <= k -> idx' <> idx ->
  absent idx r -> absent idx (updateTopKForWord k fs d w idx' r).
Proof.
  intros Hk Hne Ha p n' Hn'. rewrite updateTopKForWord_along in Hn'.
  apply (walk_along_path _ _ _ (update_cache k fs d idx')) in Hn'; try done.
  destruct Hn' as [[-> Ht]|[(Hp & Ht & _)|(Hp & n & Hn & Ht)]]; rewrite Ht.
  - by apply (Ha EmptyString).
  - intros [?|Hi]%update_cache_elem; [done| |done].
    destruct (walk p r) as [n|] eqn:E; simpl in Hi.
    + by apply (Ha p n).
    + by apply elem_of_nil in Hi.
  - by apply (Ha p n).
Qed.

(** A loop that only takes indices out of the caches. *)
Lemma absent_along create enter finish fc idx w r :
  (forall n, children (enter n) = children n) ->
  (forall n, topK (enter n) = fc (topK n)) ->
  (forall n, children (finish n) = children n) ->
  (forall n, topK (finish n) = topK n) ->
  (forall v x, x ∈ fc v -> x ∈ v) ->
  absent idx r -> absent idx (along_path create enter finish w r).
Proof.
  intros H1 H2 H3 H4 Hfc Ha p n' Hn'.
  apply (walk_along_path _ _ _ fc) in Hn'; try done.
  destruct Hn' as [[-> Ht]|[(Hp & Ht & _)|(Hp & n & Hn & Ht)]]; rewrite Ht.
  - by apply (Ha EmptyString).
  - intros Hi%Hfc. destruct (walk p r) as [n|] eqn:E; simpl in Hi.
    + by apply (Ha p n).
    + by apply elem_of_nil in Hi.
  - by apply (Ha p n).
Qed.

Lemma absent_removeIndexFromPath idx' idx w r :
  absent idx r -> absent idx (removeIndexFromPath w idx' r).
Proof.
  intros Ha. rewrite removeIndexFromPath_along.
  apply (absent_along _ _ _ (erase_first idx')); try done.
  intros v x Hx. eapply elem_of_sublist; [done | apply erase_first_sublist].
Qed.

Lemma absent_id_along create finish idx w r :
  (forall n, children (finish n) = children n) ->
  (forall n, topK (finish n) = topK n) ->
  absent idx r -> absent idx (along_path create (fun n => n) finish w r).
Proof. intros H1 H2. by apply (absent_along _ _ _ (fun v => v)). Qed.

(** After the loops of [remove] the index of the word is in no cache. *)
Lemma absent_removed fs d text idx r :
  caches_ok fs d r -> RankHelper.dict_at d idx = text ->
  is_Some (walk text r) ->
  absent idx
    (removeIndexFromPath text idx
       (along_path false (fun n => n) (fun n => set_wordIndex n (-1)) text r)).
Proof.
  intros Hc Hw Hs.
  set (r1 := along_path false (fun n => n) (fun n => set_wordIndex n (-1))
                        text r).
  assert (caches_ok fs d r1) as Hc1 by (by apply caches_ok_along).
  intros p n' Hn'. rewrite removeIndexFromPath_along in Hn'.
  apply (walk_along_path _ _ _ (erase_first idx)) in Hn'; try done.
  destruct Hn' as [[-> Ht]|[(Hpth & Ht & Hex)|(Hpth & n & Hn & Ht)]];
    rewrite Ht.
  - rewrite (cache_ok_root fs d (topK r1)).
    + by intros ?%elem_of_nil.
    + by apply Hc1.
  - destruct Hex as [n Hn]; [done|]. rewrite Hn. simpl.
    apply erase_first_not_elem. by destruct (Hc1 p n Hn).
  - intros Hi. destruct (Hc1 p n Hn) as [_ _ Hm].
    rewrite Forall_forall in Hm. destruct (Hm idx Hi) as [_ [_ Hpre]].
    congruence.
Qed.

(** ** Queries read *)

Lemma set_children_id node : set_children node (children node) = node.
Proof. by destruct node. Qed.

Lemma getTopK_walk_spec prefix : forall node,
  getTopK_walk prefix node = (node, walk prefix node).
Proof.
  induction prefix as [|c rest IH]; intros node; simpl; [done|].
  unfold map_subscript. destruct (children node !! c) as [child|] eqn:E; [|done].
  rewrite IH. f_equal. rewrite insert_id by done. apply set_children_id.
Qed.

Lemma getTopK_run_engine e prefix K : fst (getTopK_run e prefix K) = e.
Proof.
  unfold getTopK_run. destruct (K <=? 0); [done|].
  rewrite getTopK_walk_spec. destruct e as [r k d fs seen m]. simpl.
  by destruct (walk prefix r).
Qed.

(** ** The invariant of reachable engines *)

Lemma inv_new k : 0 <= k -> inv (new_engine k).
Proof.
  intros Hk. split; [split|..]; simpl; try done.
  - intros w i. rewrite lookup_empty. split; [done|]. by intros [_ ?].
  - by intros w ?%elem_of_nil.
  - intros p n Hn. destruct p; simpl in Hn.
    + injection Hn as <-. apply cache_ok_nil.
    + by rewrite lookup_empty in Hn.
  - by intros w ?%elem_of_nil.
  - intros i [? Hi]. simpl in Hi. lia.
Qed.

Lemma paths_ok_update k fs d w idx r :
  (forall w', w' ∈ d -> w' <> w -> is_Some (walk w' r)) ->
  paths_ok d (updateTopKForWord k fs d w idx r).
Proof.
  intros Hp w' Hw'. rewrite updateTopKForWord_along.
  destruct (decide (w' = w)) as [->|Hne].
  - apply walk_along_path_word.
  - apply walk_along_path_some; auto.
Qed.

(** The common core of [insert], [updateFrequency] and the load loop:
    a frequency is assigned at [idx] and the caches are updated. *)
Lemma inv_assign_update e1 w idx x r0 :
  registry_ok e1 -> in_dict (dict e1) idx ->
  RankHelper.dict_at (dict e1) idx = w -> in_int64 x ->
  caches_ok (freqs e1) (dict e1) r0 ->
  (forall w', w' ∈ dict e1 -> w' <> w -> is_Some (walk w' r0)) ->
  unseen_absent (dict e1) (wordSeen e1) r0 ->
  inv (mkEngine
         (updateTopKForWord (perNodeK e1) (<[Z.to_nat idx := x]> (freqs e1))
                            (dict e1) w idx r0)
         (perNodeK e1) (dict e1) (<[Z.to_nat idx := x]> (freqs e1))
         (<[Z.to_nat idx := true]> (wordSeen e1)) (wordToIndex e1)).
Proof.
  intros Hreg Hidx Hw Hx Hc Hp Hu. split; simpl.
  - apply registry_ok_assign; [done | by destruct Hidx | done].
  - apply (caches_ok_update _ (freqs e1)); try done.
    + by destruct Hreg.
    + by apply registry_NoDup.
    + intros i Hi. apply freq_or_0_insert_ne; [by destruct Hidx | done].
  - by apply paths_ok_update.
  - intros i Hi Hs. destruct (decide (i = idx)) as [->|Hne].
    + rewrite nth_lookup, list_lookup_insert_eq in Hs; [done|].
      rewrite (reg_len_seen e1 Hreg). destruct Hidx. lia.
    + rewrite nth_lookup, list_lookup_insert_ne, <- nth_lookup in Hs.
      * apply absent_update; [by destruct Hreg | done | by apply Hu].
      * destruct Hi, Hidx. lia.
Qed.

Lemma inv_insert e w f : inv e -> inv (insert e w f).
Proof.
  intros He. unfold insert. destruct (is_empty w) eqn:Ew; [done|].
  destruct (ensureWordIndex e w) as [e1 idx] eqn:E.
  apply ensureWordIndex_spec in E
    as (Hreg & Hc & Hidx & Hw & _ & _ & Hp & Hu); [|done|by intros ->].
  apply inv_assign_update; auto using wrap64_range.
Qed.

Lemma inv_updateFrequency e w f :
  inv e -> in_int64 f -> inv (updateFrequency e w f).
Proof.
  intros He Hf. unfold updateFrequency. destruct (is_empty w) eqn:Ew; [done|].
  destruct (ensureWordIndex e w) as [e1 idx] eqn:E.
  apply ensureWordIndex_spec in E
    as (Hreg & Hc & Hidx & Hw & _ & _ & Hp & Hu); [|done|by intros ->].
  apply inv_assign_update; auto.
Qed.

Lemma inv_load_entry e w f :
  inv e -> w <> EmptyString -> in_int64 f -> inv (load_entry e w f).
Proof.
  intros He Hne Hf. unfold load_entry.
  destruct (ensureWordIndex e w) as [e1 idx] eqn:E.
  apply ensureWordIndex_spec in E
    as (Hreg & Hc & Hidx & Hw & _ & _ & Hp & Hu); [|done..].
  unfold insertIntoTrie. simpl.
  apply (inv_assign_update e1 w idx f (insertPath w idx (root e1)));
    try done.
  - rewrite insertPath_along. by apply caches_ok_along.
  - intros w' Hw' Hne'. rewrite insertPath_along.
    apply walk_along_path_some; auto.
  - intros i Hi Hs. rewrite insertPath_along. apply absent_id_along; auto.
Qed.

Lemma inv_remove e w : inv e -> inv (remove e w).
Proof.
  intros He. unfold remove. destruct (is_empty w); [done|].
  destruct (wordToIndex e !! w) as [idx|] eqn:E; [|done].
  destruct He as [Hreg Hc Hp Hu].
  destruct (registry_lookup _ _ _ Hreg E) as (Hidx & Hw & Hin).
  rewrite clearWordIndex_along by auto.
  split; simpl.
  - apply registry_ok_assign; [done | by destruct Hidx |].
    unfold in_int64, INT64_MIN, INT64_MAX. lia.
  - apply (caches_ok_remove (freqs e)); try done.
    + intros i Hi. apply freq_or_0_insert_ne; [by destruct Hidx | done].
    + by apply caches_ok_along.
  - rewrite removeIndexFromPath_along.
    apply paths_ok_along; [done..|]. by apply paths_ok_along.
  - intros i Hi Hs. destruct (decide (i = idx)) as [->|Hne].
    + apply (absent_removed (freqs e) (dict e)); auto.
    + rewrite nth_lookup, list_lookup_insert_ne, <- nth_lookup in Hs.
      * apply absent_removeIndexFromPath, absent_id_along; auto.
      * destruct Hi, Hidx. lia.
Qed.

Lemma inv_setPerNodeK e k : inv e -> inv (setPerNodeK e k).
Proof.
  intros [[? ? ? ? ? ?] Hc Hp Hu]. split; [split|..]; simpl; auto. lia.
Qed.

(** ** Stream extraction *)

Lemma take_word_nonempty c s :
  isspace c = false -> fst (take_word (String c s)) <> EmptyString.
Proof. intros Hc. simpl. rewrite Hc. by destruct (take_word s). Qed.

Lemma skipws_head s c r : skipws s = String c r -> isspace c = false.
Proof.
  induction s as [|c' s IH]; simpl; [done|].
  destruct (isspace c') eqn:E; [done|]. by intros [= <- <-].
Qed.

Lemma read_word_nonempty s w r : read_word s = Some (w, r) -> w <> EmptyString.
Proof.
  unfold read_word. destruct (skipws s) as [|c s'] eqn:E; [done|].
  intros H. apply skipws_head in E.
  pose proof (take_word_nonempty c s' E) as Hne.
  destruct (take_word (String c s')) as [w' r']. simpl in Hne. congruence.
Qed.

Lemma read_long_long_range s z r :
  read_long_long s = Some (z, r) -> in_int64 z.
Proof.
  unfold read_long_long.
  destruct (match skipws s with
            | String "-"%char r0 => (true, r0)
            | String "+"%char r0 => (false, r0)
            | _ => (false, skipws s)
            end) as [neg s2].
  destruct s2 as [|c s2]; [done|]. destruct (digit_of c); [|done].
  destruct (take_digits 0 (String c s2)) as [v rest].
  destruct ((INT64_MIN <=? (if neg then - v else v)) &&
            ((if neg then - v else v) <=? INT64_MAX)) eqn:E; [|done].
  intros [= <- <-]. apply andb_true_iff in E as [?%Z.leb_le ?%Z.leb_le].
  done.
Qed.

Lemma inv_load_loop fuel : forall s e, inv e -> inv (load_loop fuel s e).
Proof.
  induction fuel as [|fuel IH]; intros s e He; simpl; [done|].
  destruct (read_word s) as [[w s1]|] eqn:Ew; [|done].
  destruct (read_long_long s1) as [[f s2]|] eqn:Ef; [|done].
  apply IH, inv_load_entry; [done|..].
  - by eapply read_word_nonempty.
  - by eapply read_long_long_range.
Qed.

Lemma inv_step e o : inv e -> op_typed o -> inv (step e o).
Proof.
  intros He Ho. destruct o as [w f|w f|w|k|[content|]|p K]; unfold step.
  - by apply inv_insert.
  - by apply inv_updateFrequency.
  - by apply inv_remove.
  - by apply inv_setPerNodeK.
  - by apply inv_load_loop.
  - done.
  - by rewrite getTopK_run_engine.
Qed.

Lemma reachable_inv e : reachable e -> inv e.
Proof. induction 1; [by apply inv_new | by apply inv_step]. Qed.

Lemma reachable_ex_cat : reachable ex_cat.
Proof.
  unfold ex_cat.
  apply (reachable_step _ (OpInsert "cart" 10)); [|by vm_compute].
  apply (reachable_step _ (OpInsert "car" 3)); [|by vm_compute].
  apply (reachable_step _ (OpInsert "cat" 5)); [|by vm_compute].
  by apply reachable_new.
Defined.

(** C8: [getTopK] leaves the whole engine as it was (registry, trie
    structure, caches and [wordIndex] markers), for every prefix and every
    [K]: the walk steps down with [children[c]] only after [count(c)] has
    found the child, so that no entry is created. *)
Theorem getTopK_pure_read e prefix K : fst (getTopK_run e prefix K) = e.
Proof. apply getTopK_run_engine. Qed.

(** C10: in every reachable engine the three vectors of the registry
    have one length, every index in the cache of any node is an index of
    the registry ([0 <= i < dict.size()]), and each pair [getTopK] returns
    is read at an index that is inside both [dict] and [freqs]. *)
Theorem cached_ids_in_bounds e :
  reachable e ->
  length (freqs e) = length (dict e) /\
  length (wordSeen e) = length (dict e) /\
  (forall p n i, walk p (root e) = Some n -> i ∈ topK n ->
     0 <= i < Z.of_nat (length (dict e))) /\
  (forall prefix K w f, (w, f) ∈ getTopK e prefix K ->
     exists i, 0 <= i /\ dict e !! Z.to_nat i = Some w /\
               freqs e !! Z.to_nat i = Some f).
Proof.
  intros [[Hlf Hls _ _ _ _] Hc _ _]%reachable_inv.
  assert (forall p n i, walk p (root e) = Some n -> i ∈ topK n ->
            in_dict (dict e) i) as Hin.
  { intros p n i Hn Hi. destruct (Hc p n Hn) as [_ _ Hm].
    rewrite Forall_forall in Hm. by destruct (Hm i Hi). }
  split_and!; [done..|].
  intros prefix K w f. unfold getTopK, getTopK_run.
  destruct (K <=? 0); [by intros ?%elem_of_nil|].
  rewrite getTopK_walk_spec.
  destruct (walk prefix (root e)) as [n|] eqn:E; simpl;
    [|by intros ?%elem_of_nil].
  intros (i & Hr & Hi)%list_elem_of_fmap.
  apply (elem_of_sublist _ (topK n)) in Hi; [|apply sublist_take].
  pose proof (Hin _ _ _ E Hi) as [H0 H1]. exists i.
  unfold resolve in Hr. simpl in Hr. injection Hr as -> ->.
  split; [done|]. unfold RankHelper.dict_at. rewrite !nth_lookup.
  destruct (lookup_lt_is_Some_2 (dict e) (Z.to_nat i)) as [w ->]; [lia|].
  destruct (lookup_lt_is_Some_2 (freqs e) (Z.to_nat i)) as [f ->]; [lia|].
  done.
Qed.

Lemma cached_ids_in_bounds_witness :
  length (freqs ex_cat) = length (dict ex_cat) /\
  length (wordSeen ex_cat) = length (dict ex_cat) /\
  (forall p n i, walk p (root ex_cat) = Some n -> i ∈ topK n ->
     0 <= i < Z.of_nat (length (dict ex_cat))) /\
  (forall prefix K w f, (w, f) ∈ getTopK ex_cat prefix K ->
     exists i, 0 <= i /\ dict ex_cat !! Z.to_nat i = Some w /\
               freqs ex_cat !! Z.to_nat i = Some f).
Proof. apply (cached_ids_in_bounds ex_cat). exact reachable_ex_cat. Defined.

(** ** The empty prefix *)

Lemma getTopK_spec e prefix K :
  getTopK e prefix K =
  if K <=? 0 then []
  else match walk prefix (root e) with
       | None => []
       | Some node =>
           map (resolve e)
               (take (Z.to_nat (Z.min K (Z.of_nat (length (topK node)))))
                     (topK node))
       end.
Proof.
  unfold getTopK, getTopK_run. destruct (K <=? 0); [done|].
  rewrite getTopK_walk_spec. destruct e as [r k d fs seen m]. simpl.
  by destruct (walk prefix r).
Qed.

(** C1, as stated, fails: with "cat", "car" and "cart" inserted, the three
    best-ranked terms of the vocabulary are not what [getTopK("", 3)]
    returns. *)
Lemma empty_prefix_not_global_top :
  global_top ex_cat 3 = [("cart", 10); ("cat", 5); ("car", 3)]%string /\
  getTopK ex_cat "" 3 <> global_top ex_cat 3.
Proof. split; [by vm_compute|]. vm_compute. discriminate. Qed.

(** C1, amended: [getTopK("", K)] returns the first [min(K, size)] entries
    of the cache of the root, and that cache is empty in every reachable
    engine, because cache maintenance only touches the nodes entered after
    at least one character; the answer to the empty prefix is empty. *)
Theorem empty_prefix_returns_root_cache e K :
  reachable e ->
  getTopK e "" K =
    (if K <=? 0 then []
     else map (resolve e)
              (take (Z.to_nat (Z.min K (Z.of_nat (length (topK (root e))))))
                    (topK (root e)))) /\
  topK (root e) = [] /\
  getTopK e "" K = [].
Proof.
  intros [_ Hc _ _]%reachable_inv.
  assert (topK (root e) = []) as Hroot.
  { apply (cache_ok_root (freqs e) (dict e)). by apply (Hc EmptyString). }
  rewrite getTopK_spec. simpl walk. cbv beta iota. rewrite Hroot.
  split_and!; [done..|]. rewrite take_nil. by destruct (K <=? 0).
Qed.

Lemma empty_prefix_returns_root_cache_witness :
  getTopK ex_cat "" 3 =
    (if 3 <=? 0 then []
     else map (resolve ex_cat)
              (take (Z.to_nat (Z.min 3 (Z.of_nat (length (topK (root ex_cat))))))
                    (topK (root ex_cat)))) /\
  topK (root ex_cat) = [] /\
  getTopK ex_cat "" 3 = [].
Proof.
  apply (empty_prefix_returns_root_cache ex_cat 3). exact reachable_ex_cat.
Defined.

(** ** Capacity *)

(** C2, on its failing input: capacity 2, "a" and "ab" inserted, capacity
    set to 1 by [setPerNodeK]; [getTopK("a", 5)] then returns two entries,
    more than the capacity.  [setPerNodeK] does not trim the caches, which
    the comment on [topK] ("size <= perNodeK") asks for. *)
Theorem getTopK_exceeds_lowered_capacity :
  perNodeK ex_shrunk = 1 /\
  getTopK ex_shrunk "a" 5 = [("ab", 2); ("a", 1)]%string /\
  ~ (Z.of_nat (length (getTopK ex_shrunk "a" 5)) <= perNodeK ex_shrunk).
Proof. split_and!; [by vm_compute..|]. vm_compute. intros H. by apply H. Qed.

(** C3, on its failing input: after [setPerNodeK(1)] the node of "a"
    still holds a cache of two indices.  The caches are sorted in every
    reachable engine ([reachable_caches_sorted]) and stay within the
    capacity under every call but a [setPerNodeK] that lowers it
    ([bounded_step]). *)
Theorem cache_exceeds_lowered_capacity :
  perNodeK ex_shrunk = 1 /\
  topK <$> walk "a" (root ex_shrunk) = Some [1; 0].
Proof. split; by vm_compute. Qed.

(** ** The ranking policy *)

(** ** The load loop as a fold over the extracted pairs *)

Lemma load_loop_extracted fuel : forall s e,
  load_loop fuel s e = load_entries e (extracted fuel s).
Proof.
  induction fuel as [|fuel IH]; intros s e; simpl; [done|].
  destruct (read_word s) as [[w s1]|]; [|done].
  destruct (read_long_long s1) as [[f s2]|]; [|done].
  by rewrite IH.
Qed.

(** ** Removal *)

Lemma registry_index_inj e w1 w2 i :
  registry_ok e ->
  wordToIndex e !! w1 = Some i -> wordToIndex e !! w2 = Some i -> w1 = w2.
Proof.
  intros He H1 H2. apply (reg_index e He) in H1 as [_ H1].
  apply (reg_index e He) in H2 as [_ H2]. congruence.
Qed.

Section removal_exclusion.
Context (text : string) (idx : Z).

Abbreviation excluded := (excluded text idx).

Lemma excluded_assign e w x (r0 : TrieNode) e1 idx' :
  inv e -> w <> text -> w <> EmptyString ->
  wordToIndex e !! text = Some idx ->
  ensureWordIndex e w = (e1, idx') ->
  absent idx r0 ->
  wordToIndex e1 !! text = Some idx /\
  absent idx (updateTopKForWord (perNodeK e1)
                (<[Z.to_nat idx' := x]> (freqs e1)) (dict e1) w idx' r0).
Proof.
  intros He Hne Hw Ht E Ha.
  pose proof (ensureWordIndex_keeps _ _ _ _ _ _ E Ht) as Ht1.
  pose proof (ensureWordIndex_root _ _ _ _ E) as [Hr Hk].
  apply ensureWordIndex_spec in E as (Hreg & _ & _ & _ & Hw1 & _ & _ & _);
    [|done..].
  split; [done|]. apply absent_update; [|  |done].
  - rewrite Hk. by destruct He as [[]].
  - intros ->. apply Hne. by eapply registry_index_inj.
Qed.

Lemma excluded_insert e w f :
  excluded e -> w <> text -> excluded (insert e w f).
Proof.
  intros (He & Ht & Ha) Hne. split; [by apply inv_insert|].
  unfold insert. destruct (is_empty w) eqn:Ew; [done|].
  destruct (ensureWordIndex e w) as [e1 idx'] eqn:E. simpl.
  pose proof (ensureWordIndex_root _ _ _ _ E) as [Hr _].
  eapply excluded_assign; eauto; [by intros -> | by rewrite Hr].
Qed.

Lemma excluded_updateFrequency e w f :
  excluded e -> in_int64 f -> w <> text ->
  excluded (updateFrequency e w f).
Proof.
  intros (He & Ht & Ha) Hf Hne. split; [by apply inv_updateFrequency|].
  unfold updateFrequency. destruct (is_empty w) eqn:Ew; [done|].
  destruct (ensureWordIndex e w) as [e1 idx'] eqn:E. simpl.
  pose proof (ensureWordIndex_root _ _ _ _ E) as [Hr _].
  eapply excluded_assign; eauto; [by intros -> | by rewrite Hr].
Qed.

Lemma excluded_load_entry e w f :
  excluded e -> w <> EmptyString -> in_int64 f -> w <> text ->
  excluded (load_entry e w f).
Proof.
  intros (He & Ht & Ha) Hw Hf Hne. split; [by apply inv_load_entry|].
  unfold load_entry.
  destruct (ensureWordIndex e w) as [e1 idx'] eqn:E.
  unfold insertIntoTrie. simpl.
  pose proof (ensureWordIndex_root _ _ _ _ E) as [Hr _].
  eapply excluded_assign; eauto.
  rewrite insertPath_along, Hr. by apply absent_id_along.
Qed.

Lemma excluded_load_loop fuel : forall s e,
  excluded e -> text ∉ map fst (extracted fuel s) ->
  excluded (load_loop fuel s e).
Proof.
  induction fuel as [|fuel IH]; intros s e He Hn; simpl in *; [done|].
  destruct (read_word s) as [[w s1]|] eqn:Ew; [|done].
  destruct (read_long_long s1) as [[f s2]|] eqn:Ef; [|done].
  simpl in Hn. apply not_elem_of_cons in Hn as [Hne Hn].
  apply IH; [|done]. apply excluded_load_entry; [done|..].
  - by eapply read_word_nonempty.
  - by eapply read_long_long_range.
  - done.
Qed.

Lemma excluded_remove e w : excluded e -> excluded (remove e w).
Proof.
  intros (He & Ht & Ha). split; [by apply inv_remove|].
  unfold remove. destruct (is_empty w); [done|].
  destruct (wordToIndex e !! w) as [i|] eqn:E; [|done].
  destruct He as [Hreg Hc Hp Hu].
  destruct (registry_lookup _ _ _ Hreg E) as (_ & _ & Hin).
  rewrite clearWordIndex_along by auto. simpl. split; [done|].
  apply absent_removeIndexFromPath. by apply absent_id_along.
Qed.

Lemma excluded_step e o :
  excluded e -> op_typed o -> ~ reinserts text o -> excluded (step e o).
Proof.
  intros He Ho Hn.
  pose proof (getTopK_run_engine e) as Hq.
  destruct o as [w f|w f|w|k|[content|]|p K];
    unfold step, reinserts, loadFromFile, fst in *.
  - by apply excluded_insert.
  - by apply excluded_updateFrequency.
  - by apply excluded_remove.
  - destruct He as (He & Ht & Ha). split; [by apply inv_setPerNodeK|done].
  - by apply excluded_load_loop.
  - done.
  - by rewrite Hq.
Qed.

Lemma excluded_run ops : forall e,
  excluded e -> Forall op_typed ops ->
  Forall (fun o => ~ reinserts text o) ops -> excluded (run e ops).
Proof.
  induction ops as [|o ops IH]; intros e He Ht Hn; [done|].
  inversion Ht as [|? ? Hto Ht']; inversion Hn as [|? ? Hno Hn']; subst.
  simpl. apply IH; [|done..]. by apply excluded_step.
Qed.

Lemma excluded_getTopK e p K : excluded e -> text ∉ map fst (getTopK e p K).
Proof.
  intros ([Hreg Hc Hp Hu] & Ht & Ha). rewrite getTopK_spec.
  destruct (K <=? 0); [by intros ?%elem_of_nil|].
  destruct (walk p (root e)) as [n|] eqn:E; [|by intros ?%elem_of_nil].
  rewrite <- list_fmap_compose.
  intros (i & Hi & Hin)%list_elem_of_fmap. simpl in Hi.
  apply (elem_of_sublist _ (topK n)) in Hin; [|apply sublist_take].
  destruct (Hc p n E) as [_ _ Hm]. rewrite Forall_forall in Hm.
  destruct (Hm i Hin) as [Hi' _].
  destruct (registry_lookup _ _ _ Hreg Ht) as (Hidx & Hw & _).
  assert (i = idx) as ->.
  { apply (dict_at_inj (dict e)); [by apply registry_NoDup|done..|congruence]. }
  by apply (Ha p n).
Qed.

End removal_exclusion.

(** C5: for a text that has an index in the registry, after
    [remove(text)] and any further calls that neither insert nor update
    [text] (nor load a file that holds it), [getTopK] does not return
    [text], for any query string and so for every prefix of [text], and
    for any [K]. *)
Theorem removed_text_never_suggested e text ops p K :
  reachable e ->
  is_Some (wordToIndex e !! text) ->
  Forall op_typed ops ->
  Forall (fun o => ~ reinserts text o) ops ->
  text ∉ map fst (getTopK (run (remove e text) ops) p K).
Proof.
  intros He%reachable_inv [idx Hidx] Ht Hn.
  apply (excluded_getTopK text idx), excluded_run; [|done..].
  assert (text <> EmptyString) as Hne.
  { destruct He as [Hreg _ _ _].
    destruct (registry_lookup _ _ _ Hreg Hidx) as (_ & _ & Hin).
    by apply (reg_nonempty e Hreg). }
  split_and!.
  - by apply inv_remove.
  - unfold remove. destruct (is_empty text); [done|]. rewrite Hidx.
    by destruct (clearWordIndex text (root e)).
  - destruct He as [Hreg Hc Hp Hu].
    destruct (registry_lookup _ _ _ Hreg Hidx) as (Hin & Hw & Hd).
    unfold remove. destruct (is_empty text) eqn:Ee; [by destruct text|].
    rewrite Hidx, clearWordIndex_along by auto. simpl.
    apply (absent_removed (freqs e) (dict e)); auto.
Qed.

Lemma removed_text_never_suggested_witness :
  "car"%string ∉
  map fst (getTopK (run (remove ex_cat "car")
                        [OpInsert "cab" 7; OpSetPerNodeK 3; OpRemove "cat"])
                   "ca" 5).
Proof.
  apply (removed_text_never_suggested ex_cat "car"
           [OpInsert "cab" 7; OpSetPerNodeK 3; OpRemove "cat"] "ca" 5).
  - exact reachable_ex_cat.
  - exists 1. by vm_compute.
  - repeat constructor; by vm_compute.
  - repeat constructor; simpl; try tauto. discriminate.
Defined.

(** ** Inserting one index into a sorted, truncated cache *)

Section insert_take.
Context (comp : Z -> Z -> bool) (t : Z).

Lemma take_insert_take v : forall k,
  take k (sorted_insert comp t (take k v)) = take k (sorted_insert comp t v).
Proof.
  induction v as [|y v IH]; intros [|k]; simpl; try done.
  destruct (comp t y); simpl.
  - f_equal. destruct k as [|k]; simpl; [done|].
    by rewrite take_take, Nat.min_l by lia.
  - by rewrite IH.
Qed.

Lemma take_insert_absent v : forall k,
  t ∉ take k (sorted_insert comp t v) ->
  take k (sorted_insert comp t v) = take k v.
Proof.
  induction v as [|y v IH]; intros [|k]; simpl; try done.
  - rewrite take_nil. intros H. destruct H. by left.
  - destruct (comp t y); simpl.
    + intros H. destruct H. by left.
    + rewrite not_elem_of_cons. intros [_ H]. by rewrite IH.
Qed.

Lemma erase_take_insert v : forall k,
  t ∉ v -> t ∈ take k (sorted_insert comp t v) ->
  erase_first t (take k (sorted_insert comp t v)) = take (k - 1) v.
Proof.
  induction v as [|y v IH]; intros k Hv Hin.
  { destruct k as [|k]; [by apply elem_of_nil in Hin|].
    simpl. by rewrite Z.eqb_refl, !take_nil. }
  destruct k as [|k]; [by apply elem_of_nil in Hin|].
  replace (S k - 1)%nat with k by lia.
  apply not_elem_of_cons in Hv as [Hy Hv]. simpl in Hin |- *.
  destruct (comp t y) eqn:E; simpl in Hin |- *.
  - by rewrite Z.eqb_refl.
  - destruct (Z.eqb_spec y t) as [->|_]; [done|].
    apply elem_of_cons in Hin as [?|Hin]; [congruence|].
    rewrite IH by done. destruct k as [|k]; [by apply elem_of_nil in Hin|].
    by replace (S k - 1)%nat with k by lia.
Qed.

Lemma take_insert_take_pred v : forall k,
  t ∉ v -> t ∈ take k (sorted_insert comp t v) ->
  take k (sorted_insert comp t (take (k - 1) v)) =
  take k (sorted_insert comp t v).
Proof.
  induction v as [|y v IH]; intros k Hv Hin.
  { by rewrite take_nil. }
  destruct k as [|k]; [done|].
  replace (S k - 1)%nat with k by lia.
  apply not_elem_of_cons in Hv as [Hy Hv]. simpl in Hin |- *.
  destruct (comp t y) eqn:E.
  - destruct k as [|k]; simpl; [done|]. rewrite E. simpl.
    by rewrite take_take, Nat.min_id.
  - simpl in Hin. apply elem_of_cons in Hin as [?|Hin]; [congruence|].
    destruct k as [|k]; [by apply elem_of_nil in Hin|].
    simpl. rewrite E. simpl. f_equal.
    specialize (IH (S k) Hv Hin).
    by replace (S k - 1)%nat with k in IH by lia.
Qed.

End insert_take.

(** An index that ranks at least as high under [comp2] as under [comp1]
    is kept by the truncation under [comp2] when it is under [comp1]. *)
Lemma insert_moves_up comp1 comp2 t v : forall k,
  (forall y, y ∈ v -> comp1 t y = true -> comp2 t y = true) ->
  t ∈ take k (sorted_insert comp1 t v) ->
  t ∈ take k (sorted_insert comp2 t v).
Proof.
  induction v as [|y v IH]; intros [|k] Hup; simpl; try done.
  destruct (comp2 t y) eqn:E2; [intros _; by left|].
  destruct (comp1 t y) eqn:E1.
  - rewrite Hup in E2; [done | by left | done].
  - simpl. rewrite !elem_of_cons. intros [?|Hin]; [by left|]. right.
    apply IH; [|done]. intros z Hz. apply Hup. by right.
Qed.

Section sort_insert.
Context (comp : Z -> Z -> bool).
Hypothesis comp_trans :
  forall a b c, precedes comp a b -> precedes comp b c -> precedes comp a c.
Hypothesis comp_irrefl : forall a, ~ precedes comp a a.

Lemma std_sort_snoc l t :
  NoDup l -> t ∉ l -> comparable comp (t :: l) ->
  StronglySorted (precedes comp) l ->
  std_sort comp (l ++ [t]) = sorted_insert comp t l.
Proof using comp_trans comp_irrefl.
  intros Hnd Ht Hcmp Hs. symmetry. apply std_sort_unique; try done.
  - apply NoDup_app. split_and!; [done| |apply NoDup_singleton].
    by intros x Hx ->%list_elem_of_singleton.
  - intros x y Hx Hy. apply Hcmp.
    + apply elem_of_app in Hx as [?|?%list_elem_of_singleton];
        [by right | subst; by left].
    + apply elem_of_app in Hy as [?|?%list_elem_of_singleton];
        [by right | subst; by left].
  - rewrite sorted_insert_perm. by rewrite Permutation_app_comm.
  - apply sorted_insert_sorted; [done| |done].
    intros y Hy. apply Hcmp; [by left | by right | by intros ->].
Qed.

Lemma erase_first_perm t l : t ∈ l -> t :: erase_first t l ≡ₚ l.
Proof using Type.
  induction l as [|y l IH]; simpl; [by intros ?%elem_of_nil|].
  destruct (Z.eqb_spec y t) as [->|Hne]; [done|].
  rewrite elem_of_cons. intros [?|Hin]; [congruence|].
  rewrite Permutation_swap. by rewrite IH.
Qed.

Lemma std_sort_reinsert l t :
  NoDup l -> t ∈ l -> comparable comp l ->
  StronglySorted (precedes comp) (erase_first t l) ->
  std_sort comp l = sorted_insert comp t (erase_first t l).
Proof using comp_trans comp_irrefl.
  intros Hnd Ht Hcmp Hs. symmetry. apply std_sort_unique; try done.
  - rewrite sorted_insert_perm. by apply erase_first_perm.
  - apply sorted_insert_sorted; [done| |done].
    intros y Hy. apply Hcmp; [done| |].
    + eapply elem_of_sublist; [done | apply erase_first_sublist].
    + intros ->. by apply (erase_first_not_elem y l).
Qed.

End sort_insert.

(** ** Updating a cache twice for a word whose frequency grew *)

Lemma StronglySorted_ranked_ext fs fs' d v :
  (forall i, i ∈ v ->
     RankHelper.freq_or_0 fs' i = RankHelper.freq_or_0 fs i) ->
  StronglySorted (ranked fs d) v -> StronglySorted (ranked fs' d) v.
Proof.
  intros Hf Hs. induction Hs as [|x l Hs IH Hx]; [constructor|].
  constructor.
  - apply IH. intros i Hi. apply Hf. by right.
  - rewrite Forall_forall in Hx |- *. intros y Hy. unfold ranked.
    rewrite (higher_ext fs d); [by apply Hx|..|done|done].
    + apply Hf. by left.
    + apply Hf. by right.
Qed.

Section update_twice.
Context (k : Z) (fs1 fs2 : list Z) (d : list string) (t : Z).
Hypothesis k_nonneg : 0 <= k.
Hypothesis d_nodup : NoDup d.
Hypothesis t_in : in_dict d t.
Hypothesis fs_same : forall i, i <> t ->
  RankHelper.freq_or_0 fs2 i = RankHelper.freq_or_0 fs1 i.
Hypothesis fs_grows :
  RankHelper.freq_or_0 fs1 t <= RankHelper.freq_or_0 fs2 t.

Abbreviation fresh_cache := (fresh_cache fs1 d t).

Lemma higher_grows y :
  y <> t ->
  RankHelper.higher fs1 d t y = true -> RankHelper.higher fs2 d t y = true.
Proof using fs_same fs_grows.
  intros Hy. rewrite !higher_iff, (fs_same y Hy).
  intros [?|[? ?]]; [left; lia|].
  destruct (decide (RankHelper.freq_or_0 fs1 t = RankHelper.freq_or_0 fs2 t));
    [right; split; [lia | done] | left; lia].
Qed.

Lemma update_cache_twice v :
  fresh_cache v ->
  update_cache k fs2 d t (update_cache k fs1 d t v) =
  update_cache k fs2 d t v.
Proof using All.
  intros (Hnd & Ht & Hin & Hs1). unfold update_cache.
  rewrite !trim_take by done. set (n := Z.to_nat k).
  assert (found t v = false) as -> by (by apply found_false).
  rewrite Forall_forall in Hin.
  assert (forall fs, comparable (RankHelper.higher fs d) (t :: v)) as Hcmp.
  { intros fs x y Hx Hy Hne. apply (ranked_total_in fs d); [done|..|done].
    - apply elem_of_cons in Hx as [->|?]; auto.
    - apply elem_of_cons in Hy as [->|?]; auto. }
  assert (StronglySorted (ranked fs2 d) v) as Hs2.
  { apply (StronglySorted_ranked_ext fs1); [|done].
    intros i Hi. apply fs_same. by intros ->. }
  rewrite (std_sort_snoc _ (ranked_trans fs1 d) (ranked_irrefl fs1 d))
    by done.
  rewrite (std_sort_snoc _ (ranked_trans fs2 d) (ranked_irrefl fs2 d) v t)
    by done.
  set (A := take n (sorted_insert (RankHelper.higher fs1 d) t v)).
  assert (forall x, x ∈ A -> x ∈ t :: v) as HA.
  { intros x Hx. rewrite <- (sorted_insert_perm (RankHelper.higher fs1 d)).
    eapply elem_of_sublist; [exact Hx | apply sublist_take]. }
  destruct (found t A) eqn:EA.
  - apply found_iff in EA.
    assert (erase_first t A = take (n - 1) v) as HeA
      by (by apply erase_take_insert).
    rewrite (std_sort_reinsert _ (ranked_trans fs2 d) (ranked_irrefl fs2 d)
               A t); [|..|done| |].
    + rewrite HeA. apply take_insert_take_pred; [done|].
      apply (insert_moves_up (RankHelper.higher fs1 d)); [|done].
      intros y Hy. apply higher_grows. by intros ->.
    + apply (sublist_NoDup _ (sorted_insert (RankHelper.higher fs1 d) t v));
        [|apply sublist_take].
      rewrite sorted_insert_perm. by constructor.
    + intros x y Hx Hy. apply Hcmp; auto.
    + rewrite HeA.
      apply (StronglySorted_sublist _ _ v); [apply sublist_take|done].
  - apply found_false in EA.
    assert (A = take n v) as -> by (by apply take_insert_absent).
    rewrite (std_sort_snoc _ (ranked_trans fs2 d) (ranked_irrefl fs2 d)).
    + apply take_insert_take.
    + apply (sublist_NoDup _ v); [done|apply sublist_take].
    + intros Hx. apply Ht. eapply elem_of_sublist; [done|apply sublist_take].
    + intros x y Hx Hy. apply Hcmp.
      * apply elem_of_cons in Hx as [->|Hx]; [by left|right].
        eapply elem_of_sublist; [done|apply sublist_take].
      * apply elem_of_cons in Hy as [->|Hy]; [by left|right].
        eapply elem_of_sublist; [done|apply sublist_take].
    + apply (StronglySorted_sublist _ _ v); [apply sublist_take|done].
Qed.

Lemma updateTopKForWord_topK fs w node :
  topK (updateTopKForWord k fs d w t node) = topK node.
Proof using Type. by destruct w. Qed.

Lemma set_topK_updateTopKForWord fs w node v :
  set_topK (updateTopKForWord k fs d w t node) v =
  updateTopKForWord k fs d w t (set_topK node v).
Proof using Type. by destruct w. Qed.

(** Running the maintenance loop under the old and then under the new
    frequencies leaves the trie that the loop under the new
    frequencies builds on its own. *)
Lemma updateTopKForWord_twice w : forall node,
  (forall p n, p <> EmptyString -> walk p node = Some n ->
               fresh_cache (topK n)) ->
  updateTopKForWord k fs2 d w t (updateTopKForWord k fs1 d w t node) =
  updateTopKForWord k fs2 d w t node.
Proof using All.
  induction w as [|c rest IH]; intros node Hn; simpl; [done|].
  rewrite lookup_insert_eq. simpl. rewrite insert_insert_eq.
  f_equal. f_equal.
  rewrite updateTopKForWord_topK. simpl.
  set (child := default newNode (children node !! c)).
  assert (fresh_cache (topK child)) as Hc.
  { unfold child. destruct (children node !! c) as [ch|] eqn:E; simpl.
    - apply (Hn (String c EmptyString)); [done|]. simpl. by rewrite E.
    - split_and!; [constructor|by intros ?%elem_of_nil|constructor..]. }
  rewrite update_cache_twice by done.
  rewrite set_topK_updateTopKForWord. apply IH.
  intros p n Hp Hw. destruct p as [|c' p']; [done|]. simpl in Hw.
  unfold child in Hw. destruct (children node !! c) as [ch|] eqn:E; simpl in Hw.
  - apply (Hn (String c (String c' p'))); [done|]. simpl. by rewrite E.
  - by rewrite lookup_empty in Hw.
Qed.

End update_twice.

(** ** Inserting a new word twice *)

Lemma reachable_ex_ab : reachable ex_ab.
Proof.
  apply (reachable_step _ (OpInsert "ab" 5)); [|by vm_compute].
  by apply reachable_new.
Defined.

(** Deltas are not negative in the contract of the registry.  With a
    negative second delta the two inserts can leave other caches than the
    single one: with capacity 1 and "ab" (5) cached at "a", inserting "ac"
    with 10 and then with -8 leaves "ac" in the cache of "a", while a
    single insert with 2 leaves "ab". *)
Lemma reinsert_negative_delta_differs :
  insert_isNew ex_ab "ac" = true /\
  getTopK (insert (insert ex_ab "ac" 10) "ac" (-8)) "a" 1 = [("ac", 2)]%string /\
  getTopK (insert ex_ab "ac" (10 + -8)) "a" 1 = [("ab", 5)]%string /\
  insert (insert ex_ab "ac" 10) "ac" (-8) <> insert ex_ab "ac" (10 + -8).
Proof.
  split_and!; [by vm_compute..|]. intros H.
  apply (f_equal (fun e => getTopK e "a" 1)) in H. vm_compute in H.
  discriminate.
Qed.

(** C6: for a word that is new to [insert] (frequency 0 and not marked in
    [wordSeen]), a first delta [d1] and a second delta [d2] that is not
    negative, with [d1 + d2] a [long long]: the two inserts leave the
    engine that one insert of [d1 + d2] leaves, with the frequency of the
    word equal to [d1 + d2]. *)
Theorem reinsert_adds_deltas e text d1 d2 :
  reachable e -> text <> EmptyString -> insert_isNew e text = true ->
  in_int64 d1 -> 0 <= d2 -> in_int64 (d1 + d2) ->
  insert (insert e text d1) text d2 = insert e text (d1 + d2) /\
  exists idx,
    wordToIndex (insert e text (d1 + d2)) !! text = Some idx /\
    freqs (insert e text (d1 + d2)) !! Z.to_nat idx = Some (d1 + d2).
Proof.
  intros He%reachable_inv Hne Hnew Hr1 H2 Hr12.
  unfold insert_isNew in Hnew. unfold insert.
  destruct (is_empty text) eqn:Ee; [by destruct text|].
  destruct (ensureWordIndex e text) as [e1 idx] eqn:E.
  apply ensureWordIndex_spec in E
    as (Hreg & Hc & Hidx & Hw & Hw1 & _ & _ & Hu); [|done..].
  apply andb_true_iff in Hnew as [[Hf0%Z.eqb_eq _]%andb_true_iff Hs].
  apply negb_true_iff in Hs.
  pose proof (Hu idx Hidx Hs) as Habs.
  assert (Z.to_nat idx < length (freqs e1))%nat as Hlt.
  { rewrite (reg_len_freqs e1 Hreg). destruct Hidx. lia. }
  assert (0 <= idx) as Hidx0 by (by destruct Hidx).
  rewrite Hf0. rewrite !Z.add_0_l, (wrap64_id d1), (wrap64_id (d1 + d2))
    by done.
  unfold ensureWordIndex at 1. simpl. rewrite Hw1. simpl.
  rewrite nth_lookup, list_lookup_insert_eq by done. simpl.
  rewrite (wrap64_id (d1 + d2)) by done.
  rewrite !list_insert_insert_eq. split.
  - f_equal.
    apply (updateTopKForWord_twice (perNodeK e1)
             (<[Z.to_nat idx := d1]> (freqs e1))
             (<[Z.to_nat idx := d1 + d2]> (freqs e1)) (dict e1) idx).
    + by destruct Hreg.
    + by apply registry_NoDup.
    + done.
    + intros i Hi. by rewrite !freq_or_0_insert_ne by done.
    + unfold RankHelper.freq_or_0. rewrite !length_insert.
      destruct ((0 <=? idx) && (idx <? Z.of_nat (length (freqs e1))));
        [|done].
      rewrite !nth_lookup, !list_lookup_insert_eq by done. simpl. lia.
    + intros p n _ Hn. destruct (Hc p n Hn) as [Hnd Hs' Hm]. split_and!.
      * done.
      * by apply (Habs p n).
      * eapply Forall_impl; [exact Hm|]. by intros i [? _].
      * apply (StronglySorted_ranked_ext (freqs e1)); [|done].
        intros i Hi. apply freq_or_0_insert_ne; [done|].
        intros ->. by apply (Habs p n).
  - exists idx. simpl. split; [done|]. by apply list_lookup_insert_eq.
Qed.

Lemma reinsert_adds_deltas_witness :
  insert (insert ex_ab "ac" 10) "ac" 8 = insert ex_ab "ac" (10 + 8) /\
  exists idx,
    wordToIndex (insert ex_ab "ac" (10 + 8)) !! "ac"%string = Some idx /\
    freqs (insert ex_ab "ac" (10 + 8)) !! Z.to_nat idx = Some (10 + 8).
Proof.
  apply (reinsert_adds_deltas ex_ab "ac" 10 8).
  - exact reachable_ex_ab.
  - discriminate.
  - by vm_compute.
  - by vm_compute.
  - lia.
  - by vm_compute.
Defined.

(** ** Extraction from rendered lines *)

Lemma string_app_nil (s : string) : EmptyString +:+ s = s.
Proof. reflexivity. Qed.

Lemma string_app_cons c (a b : string) :
  String c a +:+ b = String c (a +:+ b).
Proof. reflexivity. Qed.

Lemma string_app_nil_r (s : string) : s +:+ EmptyString = s.
Proof.
  induction s as [|c s IH]; [done|]. by rewrite string_app_cons, IH.
Qed.

Lemma string_app_assoc (a b c : string) : (a +:+ b) +:+ c = a +:+ (b +:+ c).
Proof.
  induction a as [|x a IH]; [done|]. by rewrite !string_app_cons, IH.
Qed.

Lemma string_app_length (a b : string) :
  String.length (a +:+ b) = (String.length a + String.length b)%nat.
Proof.
  induction a as [|x a IH]; [done|]. rewrite string_app_cons. simpl.
  by rewrite IH.
Qed.

(** [append] is unfolded by rewriting, one character at a time. *)
Ltac step_app := rewrite ?string_app_cons, ?string_app_nil.

Lemma skipws_all_space ws s : all_space ws = true -> skipws (ws +:+ s) = skipws s.
Proof.
  induction ws as [|c ws IH]; [done|]. step_app. simpl.
  intros [Hc Hws]%andb_true_iff. rewrite Hc. auto.
Qed.

Lemma skipws_no_space c s : isspace c = false -> skipws (String c s) = String c s.
Proof. intros Hc. simpl. by rewrite Hc. Qed.

Lemma take_word_token w s :
  no_space w = true -> at_space s -> take_word (w +:+ s) = (w, s).
Proof.
  intros Hw Hs. induction w as [|c w IH]; step_app.
  - destruct s as [|c s]; simpl in *; [done|]. by rewrite Hs.
  - simpl in Hw. apply andb_true_iff in Hw as [Hc%negb_true_iff Hw].
    simpl. rewrite Hc, IH by done. done.
Qed.

Lemma read_word_token ws w s :
  all_space ws = true -> w <> EmptyString -> no_space w = true ->
  at_space s ->
  read_word (ws +:+ w +:+ s) = Some (w, s).
Proof.
  intros Hws Hne Hw Hs. unfold read_word. rewrite skipws_all_space by done.
  destruct w as [|c w]; [done|]. simpl in Hw.
  apply andb_true_iff in Hw as [Hc%negb_true_iff Hw].
  rewrite string_app_cons, skipws_no_space by done.
  rewrite <- string_app_cons.
  f_equal. apply take_word_token; [|done]. simpl. by rewrite Hc, Hw.
Qed.

Lemma read_word_all_space ws : all_space ws = true -> read_word ws = None.
Proof.
  intros Hws. unfold read_word. rewrite <- (string_app_nil_r ws).
  by rewrite skipws_all_space.
Qed.

(** *** Decimal numerals *)

Lemma take_digits_stop acc s :
  no_leading_digit s -> take_digits acc s = (acc, s).
Proof. destruct s as [|c s]; simpl; [done|]. by intros ->. Qed.

Lemma take_digits_pos d : forall acc s,
  no_leading_digit s ->
  take_digits (Z.pos acc) (NilEmpty.string_of_uint d +:+ s) =
  (Z.pos (Pos.of_uint_acc d acc), s).
Proof.
  induction d; intros acc s Hs; simpl; step_app;
    [by apply take_digits_stop|..];
    simpl; rewrite <- IHd by done; f_equal; lia.
Qed.

Lemma take_digits_uint d : forall s,
  no_leading_digit s ->
  take_digits 0 (NilEmpty.string_of_uint d +:+ s) = (Z.of_uint d, s).
Proof.
  induction d; intros s Hs; simpl; step_app;
    [by apply take_digits_stop | by apply IHd|..];
    by apply (take_digits_pos d).
Qed.

Lemma string_of_uint_head d s :
  d <> Decimal.Nil -> digit_head (NilEmpty.string_of_uint d +:+ s).
Proof.
  destruct d; [done|..]; intros _; simpl; step_app; simpl;
    split_and!; by eauto.
Qed.

Lemma read_digits d ws s :
  d <> Decimal.Nil -> all_space ws = true -> no_leading_digit s ->
  in_int64 (Z.of_uint d) ->
  read_long_long (ws +:+ NilEmpty.string_of_uint d +:+ s) =
  Some (Z.of_uint d, s).
Proof.
  intros Hd Hws Hs Hr. unfold read_long_long.
  rewrite skipws_all_space by done.
  pose proof (string_of_uint_head d s Hd) as Hh.
  pose proof (take_digits_uint d s Hs) as Ht.
  destruct (NilEmpty.string_of_uint d +:+ s) as [|c r] eqn:E; [done|].
  destruct Hh as ([x Hx] & Hc & Hm & Hp). rewrite skipws_no_space by done.
  assert ((match String c r with
           | String "-"%char r0 => (true, r0)
           | String "+"%char r0 => (false, r0)
           | _ => (false, String c r)
           end) = (false, String c r)) as ->.
  { destruct c as [[] [] [] [] [] [] [] []]; try done. }
  rewrite Hx, Ht.
  destruct Hr as [?%Z.leb_le ?%Z.leb_le]. by rewrite H, H0.
Qed.

Lemma read_negative_digits d ws s :
  d <> Decimal.Nil -> all_space ws = true -> no_leading_digit s ->
  in_int64 (- Z.of_uint d) ->
  read_long_long (ws +:+ String "-" (NilEmpty.string_of_uint d) +:+ s) =
  Some (- Z.of_uint d, s).
Proof.
  intros Hd Hws Hs Hr. unfold read_long_long.
  rewrite skipws_all_space by done. rewrite string_app_cons. simpl.
  pose proof (string_of_uint_head d s Hd) as Hh.
  pose proof (take_digits_uint d s Hs) as Ht.
  destruct (NilEmpty.string_of_uint d +:+ s) as [|c r] eqn:E; [done|].
  destruct Hh as ([x Hx] & Hc & Hm & Hp).
  rewrite Hx, Ht.
  destruct Hr as [?%Z.leb_le ?%Z.leb_le]. by rewrite H, H0.
Qed.

Lemma string_of_uint_nonnil d :
  d <> Decimal.Nil -> NilZero.string_of_uint d = NilEmpty.string_of_uint d.
Proof. by destruct d. Qed.

(** [fin >> freq] reads back what [fout << freq] wrote. *)
Lemma read_long_long_show z ws s :
  all_space ws = true -> no_leading_digit s -> in_int64 z ->
  read_long_long (ws +:+ show_long_long z +:+ s) = Some (z, s).
Proof.
  intros Hws Hs Hz. unfold show_long_long.
  pose proof (DecimalZ.of_to z) as Hof.
  destruct z as [|p|p]; unfold Z.to_int, Z.of_int in *;
    unfold NilZero.string_of_int.
  - apply (read_digits (Decimal.D0 Decimal.Nil)); done.
  - pose proof (DecimalPos.Unsigned.to_uint_nonnil p) as Hn.
    rewrite string_of_uint_nonnil by done. rewrite <- Hof.
    apply read_digits; try done. by rewrite Hof.
  - pose proof (DecimalPos.Unsigned.to_uint_nonnil p) as Hn.
    rewrite string_of_uint_nonnil by done. rewrite <- Hof.
    apply read_negative_digits; try done. by rewrite Hof.
Qed.

(** *** Whole lines *)

Lemma all_space_at_space sep s :
  sep <> EmptyString -> all_space sep = true -> at_space (sep +:+ s).
Proof.
  destruct sep as [|c sep]; [done|]. intros _ H. simpl in H.
  apply andb_true_iff in H as [Hc _]. by rewrite string_app_cons.
Qed.

Lemma extracted_line l ws rest fuel :
  line_ok l -> all_space ws = true ->
  extracted (S fuel) (ws +:+ render_line l +:+ rest) =
  line_entry l :: extracted fuel (newline +:+ rest).
Proof.
  intros [Ht Hts Hs Hss Hf] Hws. unfold render_line.
  rewrite !string_app_assoc. simpl.
  rewrite read_word_token; [|done..|by apply all_space_at_space].
  rewrite read_long_long_show; done.
Qed.

Lemma render_lines_cons l ls :
  render_lines (l :: ls) = render_line l +:+ render_lines ls.
Proof. reflexivity. Qed.

Lemma extracted_lines ls : forall ws rest fuel,
  Forall line_ok ls -> all_space ws = true ->
  extracted (length ls + fuel) (ws +:+ render_lines ls +:+ rest) =
  map line_entry ls ++
  extracted fuel ((if ls is [] then ws else newline) +:+ rest).
Proof.
  induction ls as [|l ls IH]; intros ws rest fuel Hls Hws; [done|].
  inversion Hls as [|? ? Hl Hls']; subst.
  rewrite render_lines_cons, string_app_assoc.
  change (length (l :: ls) + fuel)%nat with (S (length ls + fuel)).
  rewrite extracted_line by done.
  rewrite IH by done. by destruct ls.
Qed.

Lemma render_lines_length ls :
  (length ls <= String.length (render_lines ls))%nat.
Proof.
  induction ls as [|l ls IH]; [done|].
  rewrite render_lines_cons. unfold render_line.
  rewrite !string_app_length. simpl. lia.
Qed.

Lemma extracted_none fuel s : read_word s = None -> extracted fuel s = [].
Proof. intros H. destruct fuel; simpl; [done|]. by rewrite H. Qed.

(** A file of lines that are all right is loaded line by line. *)
Lemma loadFromFile_lines e ls :
  Forall line_ok ls ->
  loadFromFile e (Some (render_lines ls)) =
  (load_entries e (map line_entry ls), true).
Proof.
  intros Hls. unfold loadFromFile. f_equal. rewrite load_loop_extracted.
  pose proof (render_lines_length ls) as Hlen.
  replace (S (String.length (render_lines ls)))
    with (length ls + (S (String.length (render_lines ls)) - length ls))%nat
    by lia.
  rewrite <- (string_app_nil_r (render_lines ls)) at 2.
  rewrite <- (string_app_nil (render_lines ls +:+ EmptyString)).
  rewrite extracted_lines by done.
  rewrite extracted_none, app_nil_r; [done|].
  apply read_word_all_space. by destruct ls.
Qed.

(** *** Input that is not a number *)

Lemma not_digit c :
  bool_decide (is_Some (digit_of c)) = false -> digit_of c = None.
Proof.
  intros H%bool_decide_eq_false. destruct (digit_of c); [|done].
  destruct H. eauto.
Qed.

Lemma read_long_long_not_number s :
  starts_number s = false -> read_long_long s = None.
Proof.
  unfold starts_number, read_long_long.
  destruct (skipws s) as [|c r]; [done|].
  destruct (Ascii.eqb_spec c "-") as [->|Hm]; simpl.
  { destruct r as [|c' r']; [done|]. by intros ->%not_digit. }
  destruct (Ascii.eqb_spec c "+") as [->|Hp]; simpl.
  { destruct r as [|c' r']; [done|]. by intros ->%not_digit. }
  intros Hd%not_digit.
  assert ((match String c r with
           | String "-"%char r0 => (true, r0)
           | String "+"%char r0 => (false, r0)
           | _ => (false, String c r)
           end) = (false, String c r)) as ->.
  { destruct c as [[] [] [] [] [] [] [] []]; try done. }
  by rewrite Hd.
Qed.

(** C9, as stated, fails for a line without separator when a number
    follows on the next line: the extraction is by space-separated
    fields, not by lines, and the load goes on. *)
Lemma load_continues_after_line_without_separator :
  no_space "ab" = true /\
  ex_file = String.concat newline ["ab"; "7"; "cd 5"; ""]%string /\
  known_pairs (fst (loadFromFile (new_engine 12) (Some ex_file))) =
    [("ab", 7); ("cd", 5)]%string /\
  fst (loadFromFile (new_engine 12) (Some ex_file)) <>
  load_entries (new_engine 12) [].
Proof.
  split_and!; [by vm_compute..|]. intros H.
  apply (f_equal known_pairs) in H. vm_compute in H. discriminate.
Qed.

(** C9, amended: the load stops at the first text that is not followed,
    after space characters, by a decimal numeral: the lines before it,
    when they are well-formed, are each loaded by [load_entry]
    ([ensureWordIndex], the assignment of the frequency and
    [insertIntoTrie]), and nothing from there on is.  This is a line whose
    frequency does not start with a digit or a sign with a digit, and a
    line without separator unless the input goes on with a numeral.  The
    capacity of the engine is not negative. *)
Theorem load_stops_at_malformed e ls text junk :
  0 <= perNodeK e ->
  Forall wellformed_line ls ->
  text <> EmptyString -> no_space text = true ->
  at_space junk -> starts_number junk = false ->
  loadFromFile e (Some (render_lines ls +:+ text +:+ junk)) =
  (load_entries e (map line_entry ls), true).
Proof.
  intros _ Hls Ht Hts Hj Hn. unfold loadFromFile. f_equal.
  rewrite load_loop_extracted.
  assert (Forall line_ok ls) as Hok.
  { eapply Forall_impl; [exact Hls|]. by intros l [? _]. }
  pose proof (render_lines_length ls) as Hlen.
  set (content := render_lines ls +:+ text +:+ junk).
  assert (length ls <= String.length content)%nat as Hc.
  { unfold content. rewrite string_app_length. lia. }
  assert (exists fuel,
            S (String.length content) = (length ls + S fuel)%nat)
    as [fuel ->].
  { exists (String.length content - length ls)%nat. lia. }
  change content with (EmptyString +:+ render_lines ls +:+ text +:+ junk).
  rewrite extracted_lines by done.
  simpl. rewrite read_word_token; [|by destruct ls|done..].
  by rewrite read_long_long_not_number, app_nil_r.
Qed.

Lemma load_stops_at_malformed_witness :
  loadFromFile (new_engine 12)
    (Some (render_lines [mkLine "cat" " " 5; mkLine "car" " " 3]
           +:+ "cart" +:+ " x10")) =
  (load_entries (new_engine 12)
     (map line_entry [mkLine "cat" " " 5; mkLine "car" " " 3]), true).
Proof.
  apply (load_stops_at_malformed (new_engine 12)
           [mkLine "cat" " " 5; mkLine "car" " " 3] "cart" " x10").
  - by vm_compute.
  - repeat constructor; simpl; try done; by vm_compute.
  - discriminate.
  - reflexivity.
  - reflexivity.
  - reflexivity.
Defined.

(** ** Saving and loading *)

Lemma saveToFile_render e :
  saveToFile e true =
  Some (render_lines (map (saved_line e) (save_indices e))).
Proof.
  unfold saveToFile, render_lines. f_equal. by rewrite map_map.
Qed.

Lemma elem_of_known_indices e i :
  i ∈ known_indices e <->
  in_dict (dict e) i /\ nth (Z.to_nat i) (wordSeen e) false = true.
Proof.
  unfold known_indices. rewrite list_elem_of_filter, list_elem_of_fmap.
  rewrite Is_true_true. split.
  - intros [Hs (n & -> & Hn)]. apply elem_of_seq in Hn.
    split; [unfold in_dict; lia | done].
  - intros [[H0 H1] Hs]. split; [done|]. exists (Z.to_nat i).
    split; [lia|]. apply elem_of_seq. lia.
Qed.

Lemma known_indices_NoDup e : NoDup (known_indices e).
Proof.
  apply NoDup_filter, NoDup_fmap_2; [|apply NoDup_seq].
  intros x y. apply Nat2Z.inj.
Qed.

Lemma save_indices_perm e : save_indices e ≡ₚ known_indices e.
Proof. apply std_sort_perm. Qed.

Lemma filter_ext_in {A} (P Q : A -> Prop)
    `{!forall x, Decision (P x)} `{!forall x, Decision (Q x)} (l : list A) :
  (forall x, x ∈ l -> P x <-> Q x) -> filter P l = filter Q l.
Proof.
  induction l as [|x l IH]; intros HPQ; [done|].
  rewrite !filter_cons, IH by (intros y Hy; apply HPQ; by right).
  destruct (decide (P x)) as [HP|HP], (decide (Q x)) as [HQ|HQ]; try done.
  - destruct HQ. apply HPQ; [by left | done].
  - destruct HP. apply HPQ; [by left | done].
Qed.

(** One more term, marked in [wordSeen], at the end of the registry. *)
Lemma known_pairs_snoc e e' w f :
  length (freqs e) = length (dict e) ->
  length (wordSeen e) = length (dict e) ->
  dict e' = dict e ++ [w] -> freqs e' = freqs e ++ [f] ->
  wordSeen e' = wordSeen e ++ [true] ->
  known_pairs e' = known_pairs e ++ [(w, f)].
Proof.
  intros Hlf Hls Hd Hf Hs. unfold known_pairs, known_indices.
  rewrite Hd, Hs, length_app. simpl.
  rewrite Nat.add_1_r, seq_S, map_app, filter_app, map_app. simpl.
  rewrite filter_cons, decide_True, filter_nil.
  2:{ rewrite Nat2Z.id, app_nth2, Hls, Nat.sub_diag; [done | lia]. }
  f_equal.
  - rewrite (filter_ext_in _
               (fun i => nth (Z.to_nat i) (wordSeen e) false)).
    + apply map_ext_in. intros i Hi%list_elem_of_In.
      apply list_elem_of_filter in Hi as [_ (n & -> & Hn)%list_elem_of_fmap].
      apply elem_of_seq in Hn. unfold resolve, RankHelper.dict_at.
      rewrite Hd, Hf, Nat2Z.id, !app_nth1; [done | lia..].
    + intros i (n & -> & Hn)%list_elem_of_fmap. apply elem_of_seq in Hn.
      rewrite Nat2Z.id, app_nth1; [done | lia].
  - simpl. unfold resolve, RankHelper.dict_at.
    rewrite Hd, Hf, Nat2Z.id, !app_nth2 by lia.
    by rewrite Hlf, !Nat.sub_diag.
Qed.

Lemma insert_snoc {A} (l : list A) (n : nat) (x y : A) :
  length l = n -> <[n := x]> (l ++ [y]) = l ++ [x].
Proof.
  intros <-. rewrite <- (Nat.add_0_r (length l)) at 1. by rewrite insert_app_r.
Qed.

(** Loading a word that the registry does not have. *)
Lemma load_entry_fresh e w f :
  registry_ok e -> w ∉ dict e ->
  dict (load_entry e w f) = dict e ++ [w] /\
  freqs (load_entry e w f) = freqs e ++ [f] /\
  wordSeen (load_entry e w f) = wordSeen e ++ [true].
Proof.
  intros Hreg Hw. unfold load_entry, ensureWordIndex.
  destruct (wordToIndex e !! w) as [i|] eqn:E.
  { destruct (registry_lookup _ _ _ Hreg E) as (_ & _ & ?). done. }
  simpl. rewrite Nat2Z.id.
  rewrite (insert_snoc (freqs e)) by apply (reg_len_freqs e Hreg).
  by rewrite (insert_snoc (wordSeen e)) by apply (reg_len_seen e Hreg).
Qed.

Lemma known_pairs_load_entries entries : forall e,
  inv e -> NoDup (map fst entries) ->
  Forall (fun wf => fst wf <> EmptyString /\ in_int64 (snd wf) /\
                    fst wf ∉ dict e) entries ->
  known_pairs (load_entries e entries) = known_pairs e ++ entries.
Proof.
  induction entries as [|[w f] entries IH]; intros e He Hnd Hall.
  { by rewrite app_nil_r. }
  inversion Hall as [|? ? (Hw & Hf & Hd) Hall']; subst. simpl in *.
  apply NoDup_cons in Hnd as [Hw' Hnd].
  destruct (load_entry_fresh e w f) as (Ed & Ef & Es);
    [by destruct He | done |].
  unfold load_entries. simpl. fold (load_entries (load_entry e w f) entries).
  rewrite IH; [|by apply inv_load_entry|done|].
  - rewrite (known_pairs_snoc e _ w f); try done.
    + by rewrite <- app_assoc.
    + by destruct He as [[]].
    + by destruct He as [[]].
  - rewrite Forall_forall in Hall' |- *. intros [w2 f2] Hin.
    destruct (Hall' _ Hin) as (? & ? & Hd2). split_and!; [done..|].
    rewrite Ed. simpl in *. rewrite elem_of_app, list_elem_of_singleton.
    intros [?|Heq]; [done|]. apply Hw'.
    apply list_elem_of_fmap. exists (w2, f2).
    split; [symmetry; exact Heq | done].
Qed.

Lemma saved_lines_ok e :
  inv e ->
  (forall w f, (w, f) ∈ known_pairs e -> no_space w = true) ->
  Forall line_ok (map (saved_line e) (save_indices e)).
Proof.
  intros [Hreg _ _ _] Hns. apply Forall_forall.
  intros l (i & -> & Hi)%list_elem_of_fmap.
  rewrite save_indices_perm in Hi.
  pose proof Hi as [Hin Hs]%elem_of_known_indices.
  pose proof (dict_at_lookup (dict e) i Hin) as Hl.
  split; simpl; try done.
  - apply (reg_nonempty e Hreg). by eapply list_elem_of_lookup_2.
  - apply (Hns _ (nth (Z.to_nat i) (freqs e) 0)).
    apply list_elem_of_fmap. by exists i.
  - destruct (lookup_lt_is_Some_2 (freqs e) (Z.to_nat i)) as [x Hx].
    { rewrite (reg_len_freqs e Hreg). destruct Hin. lia. }
    rewrite nth_lookup, Hx. simpl.
    by apply (Forall_lookup_1 _ _ _ _ (reg_int64 e Hreg) Hx).
Qed.

(** The saved pairs are the known pairs, in the order of their texts. *)
Lemma saved_pairs_perm e : saved_pairs e ≡ₚ known_pairs e.
Proof. apply Permutation_map, save_indices_perm. Qed.

Lemma saved_pairs_sorted e :
  registry_ok e -> StronglySorted text_before (saved_pairs e).
Proof.
  intros Hreg. unfold saved_pairs, save_indices.
  apply (StronglySorted_fmap _
           (precedes (fun a b =>
              String.ltb (RankHelper.dict_at (dict e) a)
                         (RankHelper.dict_at (dict e) b)))).
  { intros a b H. by apply string_ltb_lt. }
  apply std_sort_sorted.
  - intros a b c. unfold precedes. rewrite !string_ltb_lt.
    apply bytewise_lt_trans.
  - apply known_indices_NoDup.
  - intros a b [Ha _]%elem_of_known_indices [Hb _]%elem_of_known_indices Hne.
    rewrite !string_ltb_lt. apply bytewise_lt_total. intros E.
    apply Hne. apply (dict_at_inj (dict e)); [|done..].
    by apply registry_NoDup.
Qed.

(** Engines with the same known pairs write the same file, in whatever
    order their terms were registered. *)
Lemma saveToFile_order_independent e1 e2 :
  registry_ok e1 -> registry_ok e2 ->
  known_pairs e1 ≡ₚ known_pairs e2 ->
  saveToFile e1 true = saveToFile e2 true.
Proof.
  intros H1 H2 Hp.
  assert (saved_pairs e1 = saved_pairs e2) as Heq.
  { apply (StronglySorted_unique_strong text_before).
    - intros p q _ _ Hpq Hqp. destruct (bytewise_lt_irrefl (fst p)).
      by eapply bytewise_lt_trans.
    - by apply saved_pairs_sorted.
    - by apply saved_pairs_sorted.
    - by rewrite !saved_pairs_perm. }
  rewrite !saveToFile_render. f_equal. f_equal.
  transitivity (map (fun p => mkLine (fst p) " " (snd p)) (saved_pairs e1)).
  - unfold saved_pairs. by rewrite map_map.
  - rewrite Heq. unfold saved_pairs. by rewrite map_map.
Qed.

(** C7, as stated, fails for a text with a space character in it: the
    saved line of "a b" (1) is read back as the word "a" followed by
    something that is not a number, and nothing is loaded. *)
Lemma round_trip_loses_text_with_space :
  known_pairs ex_space = [("a b", 1)]%string /\
  saveToFile ex_space true = Some ("a b 1" +:+ newline) /\
  known_pairs (fst (loadFromFile (new_engine DEFAULT_PER_NODE_K)
                                 (saveToFile ex_space true))) = [] /\
  ~ known_pairs (fst (loadFromFile (new_engine DEFAULT_PER_NODE_K)
                                   (saveToFile ex_space true)))
    ≡ₚ known_pairs ex_space.
Proof.
  split_and!; [by vm_compute..|]. vm_compute.
  intros H%Permutation_length. discriminate.
Qed.

Lemma known_pairs_keys_NoDup e : registry_ok e -> NoDup (known_pairs e).*1.
Proof.
  intros Hreg. unfold known_pairs. rewrite <- list_fmap_compose.
  apply (NoDup_fmap_2_strong (fun i => RankHelper.dict_at (dict e) i)).
  - intros i j [Hi _]%elem_of_known_indices [Hj _]%elem_of_known_indices.
    apply dict_at_inj; [|done..]. by apply registry_NoDup.
  - apply known_indices_NoDup.
Qed.

(** C7, amended: when no text marked in [wordSeen] has a space character
    in it, [saveToFile] writes exactly one line for each index marked in
    [wordSeen] and for no other (no index and no text twice, the lines
    being, up to their order, the known pairs), and [loadFromFile] on a
    new engine returns an engine whose [(text, frequency)] pairs are, as a
    set, those of the saved engine; the order in which the terms came in
    does not matter, as any reachable engine with the same known pairs
    writes the same file. *)
Theorem save_load_round_trip e k :
  reachable e -> 0 <= k ->
  (forall w f, (w, f) ∈ known_pairs e -> no_space w = true) ->
  exists content e',
    saveToFile e true = Some content /\
    content = render_lines (map (saved_line e) (save_indices e)) /\
    (forall i, i ∈ save_indices e <->
               in_dict (dict e) i /\
               nth (Z.to_nat i) (wordSeen e) false = true) /\
    NoDup (save_indices e) /\
    length (save_indices e) = length (known_pairs e) /\
    map line_entry (map (saved_line e) (save_indices e))
      ≡ₚ known_pairs e /\
    NoDup (map line_text (map (saved_line e) (save_indices e))) /\
    loadFromFile (new_engine k) (Some content) = (e', true) /\
    known_pairs e' ≡ₚ known_pairs e /\
    (forall e2, reachable e2 -> known_pairs e2 ≡ₚ known_pairs e ->
                saveToFile e2 true = Some content).
Proof.
  intros He%reachable_inv Hk Hns.
  pose proof (saved_lines_ok e He Hns) as Hok.
  assert (map line_entry (map (saved_line e) (save_indices e))
            ≡ₚ known_pairs e) as Hperm.
  { rewrite map_map. unfold known_pairs.
    apply Permutation_map, save_indices_perm. }
  eexists _, _. split_and!.
  - apply saveToFile_render.
  - done.
  - intros i. rewrite save_indices_perm. apply elem_of_known_indices.
  - rewrite save_indices_perm. apply known_indices_NoDup.
  - unfold known_pairs. rewrite length_map.
    apply Permutation_length, save_indices_perm.
  - done.
  - replace (map line_text (map (saved_line e) (save_indices e)))
      with ((map line_entry (map (saved_line e) (save_indices e))).*1)
      by (by rewrite !map_map).
    rewrite Hperm. apply known_pairs_keys_NoDup, inv_registry, He.
  - by apply loadFromFile_lines.
  - rewrite known_pairs_load_entries.
    + simpl. rewrite map_map. unfold known_pairs.
      apply Permutation_map, save_indices_perm.
    + by apply inv_new.
    + rewrite !map_map. simpl.
      apply (NoDup_fmap_2_strong (fun i => RankHelper.dict_at (dict e) i)).
      * intros i j Hi Hj. rewrite save_indices_perm in Hi, Hj.
        apply elem_of_known_indices in Hi as [Hi _].
        apply elem_of_known_indices in Hj as [Hj _].
        apply dict_at_inj; [|done..]. apply registry_NoDup. by destruct He.
      * rewrite save_indices_perm. apply known_indices_NoDup.
    + rewrite Forall_forall in Hok. rewrite Forall_forall.
      intros wf (l & -> & Hl)%list_elem_of_fmap.
      destruct (Hok l Hl) as [? _ _ _ ?]. split_and!; [done..|].
      by intros ?%elem_of_nil.
  - intros e2 [H2 _ _ _]%reachable_inv Hp.
    rewrite <- saveToFile_render.
    apply saveToFile_order_independent; [done|by destruct He|done].
Qed.

Lemma save_load_round_trip_witness :
  exists content e',
    saveToFile ex_cat true = Some content /\
    content = render_lines (map (saved_line ex_cat) (save_indices ex_cat)) /\
    (forall i, i ∈ save_indices ex_cat <->
               in_dict (dict ex_cat) i /\
               nth (Z.to_nat i) (wordSeen ex_cat) false = true) /\
    NoDup (save_indices ex_cat) /\
    length (save_indices ex_cat) = length (known_pairs ex_cat) /\
    map line_entry (map (saved_line ex_cat) (save_indices ex_cat))
      ≡ₚ known_pairs ex_cat /\
    NoDup (map line_text (map (saved_line ex_cat) (save_indices ex_cat))) /\
    loadFromFile (new_engine 12) (Some content) = (e', true) /\
    known_pairs e' ≡ₚ known_pairs ex_cat /\
    (forall e2, reachable e2 -> known_pairs e2 ≡ₚ known_pairs ex_cat ->
                saveToFile e2 true = Some content).
Proof.
  apply (save_load_round_trip ex_cat 12).
  - exact reachable_ex_cat.
  - lia.
  - intros w f. vm_compute. intros Hin.
    repeat (apply elem_of_cons in Hin as [[= -> ->]|Hin]; [reflexivity|]).
    by apply elem_of_nil in Hin.
Defined.

(** ** The load loop runs to its end *)

Lemma skipws_length s : (String.length (skipws s) <= String.length s)%nat.
Proof.
  induction s as [|c s IH]; simpl; [done|].
  destruct (isspace c); simpl; lia.
Qed.

Lemma take_word_length s w r :
  take_word s = (w, r) -> (String.length r <= String.length s)%nat.
Proof.
  revert w r. induction s as [|c s IH]; intros w r; simpl.
  - by intros [= <- <-].
  - destruct (isspace c); [by intros [= <- <-]|].
    destruct (take_word s) as [w' r'] eqn:E. intros [= <- <-].
    specialize (IH _ _ eq_refl). lia.
Qed.

Lemma read_word_length s w r :
  read_word s = Some (w, r) -> (String.length r < String.length s)%nat.
Proof.
  unfold read_word. pose proof (skipws_length s) as Hs.
  destruct (skipws s) as [|c s'] eqn:E; [done|].
  apply skipws_head in E. simpl. rewrite E.
  destruct (take_word s') as [w' r'] eqn:Et. intros [= <- <-].
  apply take_word_length in Et. simpl in Hs. lia.
Qed.

Lemma take_digits_length s : forall acc v r,
  take_digits acc s = (v, r) -> (String.length r <= String.length s)%nat.
Proof.
  induction s as [|c s IH]; intros acc v r; simpl.
  - by intros [= <- <-].
  - destruct (digit_of c); [|by intros [= <- <-]].
    intros H%IH. lia.
Qed.

Lemma read_long_long_length s z r :
  read_long_long s = Some (z, r) -> (String.length r <= String.length s)%nat.
Proof.
  unfold read_long_long. pose proof (skipws_length s) as Hs.
  destruct (match skipws s with
            | String "-"%char r0 => (true, r0)
            | String "+"%char r0 => (false, r0)
            | _ => (false, skipws s)
            end) as [neg s2] eqn:E.
  assert (String.length s2 <= String.length s)%nat as H2.
  { destruct (skipws s) as [|c s'] eqn:E'; [by injection E as <- <-|].
    simpl in Hs.
    destruct c as [[] [] [] [] [] [] [] []]; injection E as <- <-;
      simpl; lia. }
  destruct s2 as [|c s2]; [done|]. destruct (digit_of c); [|done].
  destruct (take_digits 0 (String c s2)) as [v rest] eqn:Et.
  apply take_digits_length in Et.
  destruct (_ && _); [|done]. intros [= <- <-]. lia.
Qed.

Lemma extracted_fuel f1 : forall f2 s,
  (String.length s < f1)%nat -> (String.length s < f2)%nat ->
  extracted f1 s = extracted f2 s.
Proof.
  induction f1 as [|f1 IH]; intros [|f2] s H1 H2; try lia. simpl.
  destruct (read_word s) as [[w s1]|] eqn:Ew; [|done].
  destruct (read_long_long s1) as [[f s2]|] eqn:Ef; [|done].
  apply read_word_length in Ew. apply read_long_long_length in Ef.
  f_equal. apply IH; lia.
Qed.

(** More rounds than [loadFromFile] grants change nothing: the loop has
    ended by itself. *)
Lemma load_loop_fuel fuel s e :
  (String.length s < fuel)%nat ->
  load_loop fuel s e = load_loop (S (String.length s)) s e.
Proof.
  intros H. rewrite !load_loop_extracted. f_equal.
  apply extracted_fuel; lia.
Qed.

(** ** Cache sizes *)

Lemma reachable_caches_sorted e p n :
  reachable e -> walk p (root e) = Some n ->
  StronglySorted (ranked (freqs e) (dict e)) (topK n).
Proof.
  intros [_ Hc _ _]%reachable_inv Hn. by destruct (Hc p n Hn).
Qed.

Lemma bounded_along create enter finish fc k w r :
  (forall n, children (enter n) = children n) ->
  (forall n, topK (enter n) = fc (topK n)) ->
  (forall n, children (finish n) = children n) ->
  (forall n, topK (finish n) = topK n) ->
  (forall v, Z.of_nat (length v) <= k -> Z.of_nat (length (fc v)) <= k) ->
  0 <= k ->
  bounded k r -> bounded k (along_path create enter finish w r).
Proof.
  intros H1 H2 H3 H4 Hfc Hk Hb p n' Hn'.
  apply (walk_along_path _ _ _ fc) in Hn'; try done.
  destruct Hn' as [[-> Ht]|[(Hp & Ht & _)|(Hp & n & Hn & Ht)]]; rewrite Ht.
  - by apply (Hb EmptyString).
  - apply Hfc. destruct (walk p r) as [n|] eqn:E; simpl; [|lia].
    by apply (Hb p n).
  - by apply (Hb p n).
Qed.

Lemma bounded_updateTopKForWord k fs d w idx r :
  0 <= k -> bounded k r -> bounded k (updateTopKForWord k fs d w idx r).
Proof.
  intros Hk Hb. rewrite updateTopKForWord_along.
  apply (bounded_along _ _ _ (update_cache k fs d idx)); try done.
  intros v _. unfold update_cache. by apply trim_length.
Qed.

Lemma bounded_load_entry e w f :
  0 <= perNodeK e -> bounded (perNodeK e) (root e) ->
  bounded (perNodeK (load_entry e w f)) (root (load_entry e w f)) /\
  perNodeK (load_entry e w f) = perNodeK e.
Proof.
  intros Hk Hb. unfold load_entry.
  destruct (ensureWordIndex e w) as [e1 idx] eqn:E.
  apply ensureWordIndex_root in E as [Hr Hk1]. simpl.
  rewrite Hk1, Hr. split; [|done].
  apply bounded_updateTopKForWord; [done|]. rewrite insertPath_along.
  by apply (bounded_along _ _ _ (fun v => v)).
Qed.

Lemma bounded_load_loop fuel : forall s e,
  0 <= perNodeK e -> bounded (perNodeK e) (root e) ->
  bounded (perNodeK (load_loop fuel s e)) (root (load_loop fuel s e)).
Proof.
  induction fuel as [|fuel IH]; intros s e Hk Hb; simpl; [done|].
  destruct (read_word s) as [[w s1]|]; [|done].
  destruct (read_long_long s1) as [[f s2]|]; [|done].
  destruct (bounded_load_entry e w f Hk Hb) as [Hb' Hk'].
  apply IH; [by rewrite Hk' | done].
Qed.

(** Every member function keeps the caches within the capacity, except
    [setPerNodeK] when it lowers the capacity. *)
Lemma bounded_step e o :
  0 <= perNodeK e -> bounded (perNodeK e) (root e) ->
  (forall k, o = OpSetPerNodeK k -> perNodeK e <= Z.max 1 k) ->
  bounded (perNodeK (step e o)) (root (step e o)).
Proof.
  intros Hk Hb Hset. pose proof (getTopK_run_engine e) as Hq.
  destruct o as [w f|w f|w|k|[content|]|p K];
    unfold step, loadFromFile, fst in *.
  - unfold insert. destruct (is_empty w); [done|].
    destruct (ensureWordIndex e w) as [e1 idx] eqn:E.
    apply ensureWordIndex_root in E as [Hr Hk1]. simpl. rewrite Hk1, Hr.
    by apply bounded_updateTopKForWord.
  - unfold updateFrequency. destruct (is_empty w); [done|].
    destruct (ensureWordIndex e w) as [e1 idx] eqn:E.
    apply ensureWordIndex_root in E as [Hr Hk1]. simpl. rewrite Hk1, Hr.
    by apply bounded_updateTopKForWord.
  - unfold remove. destruct (is_empty w); [done|].
    destruct (wordToIndex e !! w) as [idx|]; [|done].
    destruct (clearWordIndex w (root e)) as [r1|] eqn:E; [|done]. simpl.
    assert (is_Some (walk w (root e))) as Hw.
    { destruct (walk w (root e)) eqn:E'; [done|].
      by rewrite clearWordIndex_none in E. }
    rewrite clearWordIndex_along in E by done. injection E as <-.
    rewrite removeIndexFromPath_along.
    apply (bounded_along _ _ _ (erase_first idx)); try done.
    + intros v Hv. pose proof (sublist_length _ _ (erase_first_sublist idx v)).
      lia.
    + by apply (bounded_along _ _ _ (fun v => v)).
  - simpl. intros p n Hn. specialize (Hset k eq_refl).
    specialize (Hb p n Hn). lia.
  - by apply bounded_load_loop.
  - done.
  - by rewrite Hq.
Qed.

Lemma bounded_run ops : forall e,
  inv e -> bounded (perNodeK e) (root e) ->
  Forall op_typed ops ->
  Forall (fun o => forall k, o <> OpSetPerNodeK k) ops ->
  bounded (perNodeK (run e ops)) (root (run e ops)).
Proof.
  induction ops as [|o ops IH]; intros e He Hb Ht Hn; [done|].
  inversion Ht as [|? ? Hto Ht']; inversion Hn as [|? ? Hno Hn']; subst.
  simpl. apply IH; [|  |done..].
  - by apply inv_step.
  - apply bounded_step; [by destruct He as [[]] | done |].
    intros k ->. by destruct (Hno k).
Qed.

(** With the caches within the capacity, so is every answer. *)
Lemma getTopK_length e prefix K :
  0 <= perNodeK e -> bounded (perNodeK e) (root e) ->
  Z.of_nat (length (getTopK e prefix K)) <= perNodeK e.
Proof.
  intros Hk Hb. rewrite getTopK_spec.
  destruct (K <=? 0); [simpl; lia|].
  destruct (walk prefix (root e)) as [n|] eqn:E; [|simpl; lia].
  rewrite length_map, length_take. specialize (Hb prefix n E). lia.
Qed.

(** * Further properties *)

(** ** Loading is updating *)

Lemma insertPath_topK w idx node : topK (insertPath w idx node) = topK node.
Proof. by destruct w. Qed.

Lemma set_topK_insertPath w idx node v :
  set_topK (insertPath w idx node) v = insertPath w idx (set_topK node v).
Proof. by destruct w. Qed.

Lemma set_wordIndex_twice node i j :
  set_wordIndex (set_wordIndex node i) j = set_wordIndex node j.
Proof. done. Qed.

(** The maintenance loop creates the path itself: creating it first
    changes nothing. *)
Lemma updateTopKForWord_insertPath k fs d idx w : forall node,
  updateTopKForWord k fs d w idx (insertPath w idx node) =
  updateTopKForWord k fs d w idx node.
Proof.
  induction w as [|c rest IH]; intros node; simpl; [done|].
  rewrite lookup_insert_eq. simpl. rewrite insert_insert_eq.
  f_equal. f_equal.
  rewrite insertPath_topK, set_topK_insertPath. apply IH.
Qed.

Lemma load_entry_updateFrequency e w f :
  w <> EmptyString -> load_entry e w f = updateFrequency e w f.
Proof.
  intros Hw. unfold load_entry, updateFrequency, insertIntoTrie.
  destruct (is_empty w) eqn:E; [by destruct w|].
  destruct (ensureWordIndex e w) as [e1 idx]. simpl.
  by rewrite updateTopKForWord_insertPath.
Qed.

Lemma extracted_nonempty fuel : forall s,
  Forall (fun wf => fst wf <> EmptyString /\ in_int64 (snd wf))
         (extracted fuel s).
Proof.
  induction fuel as [|fuel IH]; intros s; simpl; [constructor|].
  destruct (read_word s) as [[w s1]|] eqn:Ew; [|constructor].
  destruct (read_long_long s1) as [[f s2]|] eqn:Ef; [|constructor].
  constructor; [|apply IH]. split.
  - by eapply read_word_nonempty.
  - by eapply read_long_long_range.
Qed.

Lemma load_entries_update_entries entries : forall e,
  Forall (fun wf => fst wf <> EmptyString /\ in_int64 (snd wf)) entries ->
  load_entries e entries = update_entries e entries.
Proof.
  induction entries as [|[w f] entries IH]; intros e Hall; [done|].
  inversion Hall as [|? ? [Hw _] Hall']; subst.
  unfold load_entries, update_entries. simpl.
  rewrite load_entry_updateFrequency by done. by apply IH.
Qed.

(** X1: [loadFromFile] on a file that opens does, for an engine whose
    capacity is not negative, what a call of [updateFrequency] for each
    extracted [(word, freq)] pair does, in the order of the file, and
    returns [true]; every extracted word is not empty and every extracted
    frequency is a [long long]. *)
Theorem loadFromFile_is_updateFrequency e content :
  0 <= perNodeK e ->
  loadFromFile e (Some content) =
    (update_entries e (extracted (S (String.length content)) content), true)
  /\ Forall (fun wf => fst wf <> EmptyString /\ in_int64 (snd wf))
            (extracted (S (String.length content)) content).
Proof.
  intros _. split; [|apply extracted_nonempty].
  unfold loadFromFile. f_equal. rewrite load_loop_extracted.
  apply load_entries_update_entries, extracted_nonempty.
Qed.

Lemma loadFromFile_is_updateFrequency_witness :
  loadFromFile (new_engine 12) (Some ex_file) =
    (update_entries (new_engine 12)
       (extracted (S (String.length ex_file)) ex_file), true)
  /\ Forall (fun wf => fst wf <> EmptyString /\ in_int64 (snd wf))
            (extracted (S (String.length ex_file)) ex_file).
Proof.
  apply (loadFromFile_is_updateFrequency (new_engine 12) ex_file).
  by vm_compute.
Defined.

(** ** Counting the nodes *)

Lemma countNodes_eq n : countNodes n = S (countBelow (children n)).
Proof. by destruct n. Qed.

Lemma countNodes_children n n' :
  children n = children n' -> countNodes n = countNodes n'.
Proof. intros H. by rewrite !countNodes_eq, H. Qed.

Lemma countBelow_insert_fresh m c x :
  m !! c = None ->
  countBelow (<[c := x]> m) = (countBelow m + countNodes x)%nat.
Proof.
  intros H. unfold countBelow. rewrite map_fold_insert_L; [done| |done].
  intros. lia.
Qed.

Lemma countBelow_insert m c x y :
  m !! c = Some y ->
  (countBelow (<[c := x]> m) + countNodes y =
   countBelow m + countNodes x)%nat.
Proof.
  intros H.
  rewrite <- (insert_delete_eq m c x).
  rewrite countBelow_insert_fresh by apply lookup_delete_eq.
  rewrite <- (insert_delete_id m c y H) at 2.
  rewrite countBelow_insert_fresh by apply lookup_delete_eq. lia.
Qed.

Lemma missing_children w n n' :
  children n = children n' -> missing w n = missing w n'.
Proof. intros H. destruct w; simpl; [done|]. by rewrite H. Qed.

Lemma missing_newNode w : missing w newNode = String.length w.
Proof. destruct w; simpl; [done|]. by rewrite lookup_empty. Qed.

Lemma missing_le w : forall n, (missing w n <= String.length w)%nat.
Proof.
  induction w as [|c w IH]; intros n; simpl; [lia|].
  destruct (children n !! c) as [child|]; [|lia].
  specialize (IH child). lia.
Qed.

Lemma missing_walk w : forall n, missing w n = 0%nat <-> is_Some (walk w n).
Proof.
  induction w as [|c w IH]; intros n; simpl; [by split; eauto|].
  destruct (children n !! c) as [child|]; [apply IH|].
  split; [lia|]. by intros [? ?].
Qed.

Section count_along_path.
Context (enter finish : TrieNode -> TrieNode).
Hypothesis enter_children : forall n, children (enter n) = children n.
Hypothesis finish_children : forall n, children (finish n) = children n.

(** A loop that creates missing children adds the missing nodes. *)
Lemma countNodes_along_create word : forall node,
  countNodes (along_path true enter finish word node) =
  (countNodes node + missing word node)%nat.
Proof using All.
  induction word as [|c rest IH]; intros node; simpl.
  - rewrite (countNodes_children _ node) by apply finish_children. lia.
  - destruct (children node !! c) as [child|] eqn:E.
    + rewrite (countNodes_eq (set_children _ _)). simpl.
      pose proof (countBelow_insert (children node) c
        (along_path true enter finish rest (enter child)) child E) as H.
      rewrite IH in H.
      rewrite (countNodes_children (enter child) child) in H
        by apply enter_children.
      rewrite (missing_children rest (enter child) child) in H
        by apply enter_children.
      rewrite (countNodes_eq node). lia.
    + rewrite (countNodes_eq (set_children _ _)). simpl.
      rewrite countBelow_insert_fresh by done. rewrite IH.
      rewrite (countNodes_children (enter newNode) newNode)
        by apply enter_children.
      rewrite (missing_children rest (enter newNode) newNode)
        by apply enter_children.
      rewrite missing_newNode, (countNodes_eq node).
      rewrite (countNodes_eq newNode). simpl. unfold countBelow.
      rewrite map_fold_empty. lia.
Qed.

(** A loop that stops at a missing child adds no node. *)
Lemma countNodes_along_stop word : forall node,
  countNodes (along_path false enter finish word node) = countNodes node.
Proof using All.
  induction word as [|c rest IH]; intros node; simpl.
  - by apply countNodes_children.
  - destruct (children node !! c) as [child|] eqn:E; [|done].
    rewrite (countNodes_eq (set_children _ _)). simpl.
    pose proof (countBelow_insert (children node) c
      (along_path false enter finish rest (enter child)) child E) as H.
    rewrite IH in H.
    rewrite (countNodes_children (enter child) child) in H
      by apply enter_children.
    rewrite (countNodes_eq node). lia.
Qed.
End count_along_path.

Lemma countNodes_updateTopKForWord k fs d w idx node :
  countNodes (updateTopKForWord k fs d w idx node) =
  (countNodes node + missing w node)%nat.
Proof. rewrite updateTopKForWord_along. by apply countNodes_along_create. Qed.

Lemma ensureWordIndex_root_eq e w : root (fst (ensureWordIndex e w)) = root e.
Proof. unfold ensureWordIndex. by destruct (wordToIndex e !! w). Qed.

Lemma countNodes_updateFrequency e w f :
  countNodes (root (updateFrequency e w f)) =
  (countNodes (root e) + (if is_empty w then 0 else missing w (root e)))%nat.
Proof.
  unfold updateFrequency. destruct (is_empty w); [lia|].
  pose proof (ensureWordIndex_root_eq e w) as Hr.
  destruct (ensureWordIndex e w) as [e1 idx]. simpl in *.
  by rewrite countNodes_updateTopKForWord, Hr.
Qed.

Lemma countNodes_insert e w f :
  countNodes (root (insert e w f)) =
  (countNodes (root e) + (if is_empty w then 0 else missing w (root e)))%nat.
Proof.
  unfold insert. destruct (is_empty w); [lia|].
  pose proof (ensureWordIndex_root_eq e w) as Hr.
  destruct (ensureWordIndex e w) as [e1 idx]. simpl in *.
  by rewrite countNodes_updateTopKForWord, Hr.
Qed.

Lemma countNodes_remove e w :
  countNodes (root (remove e w)) = countNodes (root e).
Proof.
  unfold remove. destruct (is_empty w); [done|].
  destruct (wordToIndex e !! w) as [idx|]; [|done].
  destruct (walk w (root e)) as [n|] eqn:Hw.
  - rewrite clearWordIndex_along by eauto. simpl.
    rewrite removeIndexFromPath_along.
    by rewrite !countNodes_along_stop.
  - by rewrite clearWordIndex_none.
Qed.

Lemma countNodes_update_entries entries : forall e,
  (countNodes (root e) <= countNodes (root (update_entries e entries)))%nat.
Proof.
  induction entries as [|[w f] entries IH]; intros e; [done|].
  unfold update_entries in *. simpl.
  etrans; [|apply IH]. rewrite countNodes_updateFrequency. lia.
Qed.

(** X2: in an engine whose capacity is not negative, inserting or
    updating a keyword adds to the trie exactly one node for each
    character of the keyword from the first missing child on: at most one
    per character, and none when the path of the keyword is there. *)
Theorem insert_adds_missing_nodes e w f :
  0 <= perNodeK e -> w <> EmptyString ->
  countNodes (root (insert e w f)) =
    (countNodes (root e) + missing w (root e))%nat /\
  countNodes (root (updateFrequency e w f)) =
    (countNodes (root e) + missing w (root e))%nat /\
  (missing w (root e) <= String.length w)%nat /\
  (missing w (root e) = 0%nat <-> is_Some (walk w (root e))).
Proof.
  intros _ Hw. rewrite countNodes_insert, countNodes_updateFrequency.
  destruct w; [done|]. simpl is_empty. cbv iota.
  repeat split; try apply missing_le; apply missing_walk.
Qed.

Lemma insert_adds_missing_nodes_witness :
  countNodes (root (insert ex_cat "cab" 1)) =
    (countNodes (root ex_cat) + missing "cab" (root ex_cat))%nat /\
  missing "cab" (root ex_cat) = 1%nat.
Proof.
  split; [|by vm_compute].
  apply (insert_adds_missing_nodes ex_cat "cab" 1);
    [by vm_compute | discriminate].
Defined.

(** X3: no member function deletes a node: the node count printed by
    [debugStats] never goes down, and [remove], [setPerNodeK] and
    [getTopK] leave both numbers of [debugStats] as they are. *)
Theorem nodes_never_deleted e o :
  (snd (debugStats e) <= snd (debugStats (step e o)))%nat /\
  (match o with
   | OpRemove _ | OpSetPerNodeK _ | OpGetTopK _ _ =>
       debugStats (step e o) = debugStats e
   | _ => True
   end).
Proof.
  unfold debugStats, snd.
  destruct o as [w f|w f|w|k|[content|]|p K]; unfold step.
  - rewrite countNodes_insert. split; [lia|done].
  - rewrite countNodes_updateFrequency. split; [lia|done].
  - rewrite countNodes_remove. split; [lia|]. f_equal.
    unfold remove. destruct (is_empty w); [done|].
    destruct (wordToIndex e !! w); [|done].
    by destruct (clearWordIndex w (root e)).
  - done.
  - split; [|done]. unfold loadFromFile, fst.
    rewrite load_loop_extracted, load_entries_update_entries
      by apply extracted_nonempty.
    apply countNodes_update_entries.
  - done.
  - by rewrite getTopK_run_engine.
Qed.

(** ** The terminal markers *)

Section marker_along_path.
Context (create : bool) (enter finish : TrieNode -> TrieNode).
Context (fw : Z -> Z).
Hypothesis enter_children : forall n, children (enter n) = children n.
Hypothesis enter_wordIndex : forall n, wordIndex (enter n) = wordIndex n.
Hypothesis finish_children : forall n, children (finish n) = children n.
Hypothesis finish_wordIndex :
  forall n, wordIndex (finish n) = fw (wordIndex n).

Lemma marker_of_enter p n :
  marker_of (walk p (enter n)) = marker_of (walk p n).
Proof using enter_children enter_wordIndex.
  destruct p as [|c p]; simpl; [apply enter_wordIndex|].
  by rewrite enter_children.
Qed.

(** The marker found at any path after the loop, in terms of the trie
    before it. *)
Lemma walk_along_path_marker word : forall node p n',
  walk p (along_path create enter finish word node) = Some n' ->
  wordIndex n' =
    (if decide (p = word) then fw (marker_of (walk p node))
     else marker_of (walk p node)) /\
  (create = false -> is_Some (walk p node)).
Proof using All.
  induction word as [|c rest IH]; intros node p n' Hw.
  - simpl in Hw. destruct p as [|c' p'].
    + simpl in Hw. injection Hw as <-. rewrite decide_True by done.
      split; [apply finish_wordIndex | by eauto].
    + simpl in Hw. rewrite finish_children in Hw.
      rewrite decide_False by done. simpl. unfold marker_of.
      destruct (children node !! c') as [ch|]; [|done].
      rewrite Hw. split; [done | by eauto].
  - destruct p as [|c' p'].
    + rewrite decide_False by done. split; [|by eauto].
      simpl in Hw. injection Hw as <-. simpl.
      destruct (children node !! c); [done|]. by destruct create.
    + simpl in Hw |- *.
      destruct (children node !! c) as [child|] eqn:E.
      * simpl in Hw. destruct (decide (c' = c)) as [->|Hne].
        -- rewrite lookup_insert_eq in Hw. rewrite E.
           apply IH in Hw as [Hw Hs].
           rewrite marker_of_enter in Hw. split.
           ++ rewrite Hw.
              destruct (decide (p' = rest)) as [->|Hne].
              ** by rewrite decide_True.
              ** rewrite decide_False; [done | congruence].
           ++ intros Hc. destruct (Hs Hc) as [x Hx].
              destruct p'; [by eauto|].
              rewrite walk_enter in Hx by done. by eauto.
        -- rewrite lookup_insert_ne in Hw by done.
           rewrite decide_False by congruence.
           destruct (children node !! c') as [ch|]; [|done].
           rewrite Hw. split; [done | by eauto].
      * destruct create.
        -- simpl in Hw. destruct (decide (c' = c)) as [->|Hne].
           ++ rewrite lookup_insert_eq in Hw. rewrite E.
              apply IH in Hw as [Hw _]. rewrite marker_of_enter in Hw.
              split; [|done]. rewrite Hw.
              assert (marker_of (walk p' newNode) = marker_of None) as ->.
              { destruct p'; [done|]. simpl. by rewrite lookup_empty. }
              destruct (decide (p' = rest)) as [->|Hne].
              ** by rewrite decide_True.
              ** rewrite decide_False; [done | congruence].
           ++ rewrite lookup_insert_ne in Hw by done.
              rewrite decide_False by congruence.
              destruct (children node !! c') as [ch|]; [|done].
              rewrite Hw. split; [done | by eauto].
        -- simpl in Hw. destruct (decide (c' = c)) as [->|Hne].
           ++ by rewrite E in Hw.
           ++ rewrite decide_False by congruence.
              destruct (children node !! c') as [ch|]; [|done].
              rewrite Hw. split; [done | by eauto].
Qed.
End marker_along_path.

Lemma markers_new k : markers_ok (new_engine k).
Proof.
  intros p n Hn. unfold expected_marker. simpl.
  destruct p as [|c p]; simpl in Hn.
  - by injection Hn as <-.
  - by rewrite lookup_empty in Hn.
Qed.

Lemma nth_insert_ne {A} (l : list A) i j x d :
  i <> j -> nth j (<[i := x]> l) d = nth j l d.
Proof. intros H. by rewrite !nth_lookup, list_lookup_insert_ne. Qed.

Lemma nth_insert_eq {A} (l : list A) i x d :
  (i < length l)%nat -> nth i (<[i := x]> l) d = x.
Proof. intros H. by rewrite nth_lookup, list_lookup_insert_eq. Qed.

(** The markers away from [w] after [ensureWordIndex]. *)
Lemma ensureWordIndex_markers e w e1 idx :
  inv e -> markers_ok e -> ensureWordIndex e w = (e1, idx) ->
  forall p n, p <> w -> walk p (root e1) = Some n ->
              wordIndex n = expected_marker e1 p.
Proof.
  intros He Hm. unfold ensureWordIndex.
  destruct (wordToIndex e !! w) as [i|] eqn:E; intros [= <- <-] p n Hp Hn.
  - by apply Hm.
  - simpl in Hn. rewrite (Hm p n Hn). unfold expected_marker. simpl.
    rewrite lookup_insert_ne by done.
    destruct (wordToIndex e !! p) as [i|] eqn:Ei; [|done].
    destruct (registry_lookup _ _ _ (inv_registry e He) Ei) as ([? ?] & _).
    rewrite app_nth1; [done|].
    rewrite (reg_len_seen e (inv_registry e He)). lia.
Qed.

Lemma markers_assign_update e1 w idx fs r0 :
  registry_ok e1 -> wordToIndex e1 !! w = Some idx ->
  (forall w', w' ∈ dict e1 -> w' <> w -> is_Some (walk w' r0)) ->
  (forall p n, p <> w -> walk p r0 = Some n ->
               wordIndex n = expected_marker e1 p) ->
  markers_ok (mkEngine
                (updateTopKForWord (perNodeK e1) fs (dict e1) w idx r0)
                (perNodeK e1) (dict e1) fs
                (<[Z.to_nat idx := true]> (wordSeen e1)) (wordToIndex e1)).
Proof.
  intros Hreg Hw Hp Hm p n Hn. simpl in Hn.
  rewrite updateTopKForWord_along in Hn.
  apply (walk_along_path_marker _ _ _ (fun _ => idx)) in Hn as [Hn _];
    try done.
  unfold marker_of in Hn.
  destruct (registry_lookup _ _ _ Hreg Hw) as ([Hi0 Hi1] & Hd & _).
  unfold expected_marker. simpl.
  destruct (decide (p = w)) as [->|Hne].
  - rewrite Hw, nth_insert_eq; [done|].
    rewrite (reg_len_seen e1 Hreg). lia.
  - rewrite Hn. destruct (wordToIndex e1 !! p) as [i|] eqn:Ei.
    + destruct (registry_lookup _ _ _ Hreg Ei) as ([Hj0 Hj1] & Hdi & Hin).
      destruct (Hp p Hin Hne) as [n0 Hn0]. rewrite Hn0. simpl.
      rewrite (Hm p n0 Hne Hn0). unfold expected_marker. rewrite Ei.
      rewrite nth_insert_ne; [done|].
      intros Heq. apply Hne. rewrite <- Hdi, <- Hd. f_equal. lia.
    + destruct (walk p r0) as [n0|] eqn:Hn0; [|done]. simpl.
      rewrite (Hm p n0 Hne Hn0). unfold expected_marker. by rewrite Ei.
Qed.

Lemma markers_updateFrequency e w f :
  inv e -> markers_ok e -> markers_ok (updateFrequency e w f).
Proof.
  intros He Hm. unfold updateFrequency.
  destruct (is_empty w) eqn:Ew; [done|].
  destruct (ensureWordIndex e w) as [e1 idx] eqn:E.
  pose proof (ensureWordIndex_markers _ _ _ _ He Hm E) as Hm1.
  apply ensureWordIndex_spec in E
    as (Hreg & _ & _ & _ & Hw & _ & Hp & _); [|done|by intros ->].
  by apply markers_assign_update.
Qed.

Lemma markers_insert e w f :
  inv e -> markers_ok e -> markers_ok (insert e w f).
Proof.
  intros He Hm. unfold insert.
  destruct (is_empty w) eqn:Ew; [done|].
  destruct (ensureWordIndex e w) as [e1 idx] eqn:E.
  pose proof (ensureWordIndex_markers _ _ _ _ He Hm E) as Hm1.
  apply ensureWordIndex_spec in E
    as (Hreg & _ & _ & _ & Hw & _ & Hp & _); [|done|by intros ->].
  by apply markers_assign_update.
Qed.

Lemma markers_remove e w :
  inv e -> markers_ok e -> markers_ok (remove e w).
Proof.
  intros He Hm. unfold remove. destruct (is_empty w); [done|].
  destruct (wordToIndex e !! w) as [idx|] eqn:E; [|done].
  destruct (registry_lookup _ _ _ (inv_registry e He) E)
    as ([Hi0 Hi1] & Hd & Hin).
  rewrite clearWordIndex_along by (by apply (inv_paths e He)).
  intros p n Hn. simpl in Hn. rewrite removeIndexFromPath_along in Hn.
  apply (walk_along_path_marker _ _ _ (fun z => z)) in Hn as [Hn Hs];
    try done.
  destruct (Hs eq_refl) as [n1 Hn1]. rewrite Hn1 in Hn.
  unfold marker_of in Hn. simpl in Hn.
  assert (wordIndex n = wordIndex n1) as -> by (by destruct (decide _)).
  apply (walk_along_path_marker _ _ _ (fun _ => -1)) in Hn1 as [Hn1 Hs1];
    try done.
  destruct (Hs1 eq_refl) as [n0 Hn0]. rewrite Hn0 in Hn1.
  unfold marker_of in Hn1. simpl in Hn1.
  unfold expected_marker. simpl.
  destruct (decide (p = w)) as [->|Hne].
  - rewrite E, nth_insert_eq; [done|].
    rewrite (reg_len_seen e (inv_registry e He)). lia.
  - rewrite Hn1, (Hm p n0 Hn0). unfold expected_marker.
    destruct (wordToIndex e !! p) as [i|] eqn:Ei; [|done].
    destruct (registry_lookup _ _ _ (inv_registry e He) Ei)
      as ([Hj0 Hj1] & Hdi & _).
    rewrite nth_insert_ne; [done|].
    intros Heq. apply Hne. rewrite <- Hdi, <- Hd. f_equal. lia.
Qed.

Lemma inv_update_entries entries : forall e,
  Forall (fun wf => fst wf <> EmptyString /\ in_int64 (snd wf)) entries ->
  inv e -> inv (update_entries e entries).
Proof.
  induction entries as [|[w f] entries IH]; intros e Hall He; [done|].
  inversion Hall as [|? ? [_ Hf] Hall']; subst.
  unfold update_entries in *. simpl. apply IH; [done|].
  by apply inv_updateFrequency.
Qed.

Lemma markers_update_entries entries : forall e,
  Forall (fun wf => fst wf <> EmptyString /\ in_int64 (snd wf)) entries ->
  inv e -> markers_ok e -> markers_ok (update_entries e entries).
Proof.
  induction entries as [|[w f] entries IH]; intros e Hall He Hm; [done|].
  inversion Hall as [|? ? [_ Hf] Hall']; subst.
  unfold update_entries in *. simpl. apply IH; [done| |].
  - by apply inv_updateFrequency.
  - by apply markers_updateFrequency.
Qed.

Lemma loadFromFile_update_entries e content :
  fst (loadFromFile e (Some content)) =
  update_entries e (extracted (S (String.length content)) content).
Proof.
  unfold loadFromFile, fst. rewrite load_loop_extracted.
  apply load_entries_update_entries, extracted_nonempty.
Qed.

Lemma markers_step e o :
  inv e -> markers_ok e -> markers_ok (step e o).
Proof.
  intros He Hm. destruct o as [w f|w f|w|k|[content|]|p K]; unfold step.
  - by apply markers_insert.
  - by apply markers_updateFrequency.
  - by apply markers_remove.
  - done.
  - rewrite loadFromFile_update_entries.
    apply markers_update_entries; auto using extracted_nonempty.
  - done.
  - by rewrite getTopK_run_engine.
Qed.

Lemma reachable_markers e : reachable e -> markers_ok e.
Proof.
  induction 1 as [k Hk|e o He IH Ho]; [apply markers_new|].
  apply markers_step; [by apply reachable_inv | done].
Qed.

(** X4: in every reachable engine the node at the end of a path [p]
    carries a [wordIndex] other than [-1] exactly when [p] is a registered
    word that is marked in [wordSeen], and that [wordIndex] is the index
    of [p]. *)
Theorem terminal_marker_iff_known e p i :
  reachable e ->
  (exists n, walk p (root e) = Some n /\ wordIndex n = i /\ i <> -1) <->
  (wordToIndex e !! p = Some i /\
   nth (Z.to_nat i) (wordSeen e) false = true).
Proof.
  intros He. pose proof (reachable_markers e He) as Hm.
  pose proof (reachable_inv e He) as Hinv. split.
  - intros (n & Hn & Hi & Hne). rewrite (Hm p n Hn) in Hi.
    unfold expected_marker in Hi.
    destruct (wordToIndex e !! p) as [j|]; [|lia].
    destruct (nth (Z.to_nat j) (wordSeen e) false) eqn:Es; [|lia].
    by subst.
  - intros [Hi Hs].
    destruct (registry_lookup _ _ _ (inv_registry e Hinv) Hi)
      as ([Hi0 Hi1] & _ & Hin).
    destruct (inv_paths e Hinv p Hin) as [n Hn]. exists n.
    split; [done|]. split; [|lia].
    rewrite (Hm p n Hn). unfold expected_marker. by rewrite Hi, Hs.
Qed.

Lemma terminal_marker_iff_known_witness :
  (exists n, walk "car" (root ex_cat) = Some n /\ wordIndex n = 1 /\ 1 <> -1)
  <-> (wordToIndex ex_cat !! "car" = Some 1 /\
       nth (Z.to_nat 1) (wordSeen ex_cat) false = true).
Proof. apply (terminal_marker_iff_known ex_cat "car" 1 reachable_ex_cat). Defined.

(** ** Removing twice *)

Lemma set_topK_id node : set_topK node (topK node) = node.
Proof. by destruct node. Qed.

Lemma set_wordIndex_id node : set_wordIndex node (wordIndex node) = node.
Proof. by destruct node. Qed.

(** Clearing a marker that is clear changes nothing. *)
Lemma clear_marker_fixed w : forall node,
  (forall n, walk w node = Some n -> wordIndex n = -1) ->
  along_path false (fun n => n) (fun n => set_wordIndex n (-1)) w node = node.
Proof.
  induction w as [|c rest IH]; intros node H; simpl.
  - rewrite <- (H node eq_refl). apply set_wordIndex_id.
  - destruct (children node !! c) as [child|] eqn:E; [|done].
    rewrite IH.
    + by rewrite insert_id, set_children_id.
    + intros n Hn. apply H. simpl. by rewrite E.
Qed.

(** Erasing an index that is in no cache on the path changes nothing. *)
Lemma removeIndexFromPath_fixed idx w : forall node,
  absent idx node -> removeIndexFromPath w idx node = node.
Proof.
  induction w as [|c rest IH]; intros node H; simpl; [done|].
  destruct (children node !! c) as [child|] eqn:E; [|done].
  assert (idx ∉ topK child) as Hc.
  { apply (H (String c EmptyString)). simpl. by rewrite E. }
  rewrite erase_first_absent, set_topK_id by done.
  rewrite IH.
  - by rewrite insert_id, set_children_id.
  - intros p n Hn. apply (H (String c p)). simpl. by rewrite E.
Qed.

Lemma remove_registered e w idx :
  inv e -> w <> EmptyString -> wordToIndex e !! w = Some idx ->
  remove e w =
    mkEngine (removeIndexFromPath w idx
                (along_path false (fun n => n)
                            (fun n => set_wordIndex n (-1)) w (root e)))
             (perNodeK e) (dict e) (<[Z.to_nat idx := 0]> (freqs e))
             (<[Z.to_nat idx := false]> (wordSeen e)) (wordToIndex e).
Proof.
  intros He Hw E. unfold remove. destruct w; [done|]. simpl is_empty.
  cbv iota. rewrite E.
  destruct (registry_lookup _ _ _ (inv_registry e He) E) as (_ & _ & Hin).
  by rewrite clearWordIndex_along by (by apply (inv_paths e He)).
Qed.

(** X5: in a reachable engine a second [remove] of the same keyword
    changes nothing. *)
Theorem remove_idempotent e w :
  reachable e -> remove (remove e w) w = remove e w.
Proof.
  intros Hr. pose proof (reachable_inv e Hr) as He.
  destruct (decide (w = EmptyString)) as [->|Hw]; [reflexivity|].
  destruct (wordToIndex e !! w) as [idx|] eqn:E.
  - assert (reachable (remove e w)) as Hr'.
    { by apply (reachable_step e (OpRemove w)). }
    pose proof (reachable_inv _ Hr') as He'.
    pose proof (reachable_markers _ Hr') as Hm'.
    destruct (registry_lookup _ _ _ (inv_registry e He) E)
      as ([Hi0 Hi1] & Hd & Hin).
    assert (wordToIndex (remove e w) !! w = Some idx) as E'.
    { by rewrite (remove_registered e w idx). }
    assert (nth (Z.to_nat idx) (wordSeen (remove e w)) false = false) as Hs.
    { rewrite (remove_registered e w idx) by done. simpl.
      apply nth_insert_eq. rewrite (reg_len_seen e (inv_registry e He)). lia. }
    rewrite (remove_registered (remove e w) w idx) by done.
    rewrite clear_marker_fixed, removeIndexFromPath_fixed.
    + rewrite (remove_registered e w idx) by done. simpl.
      by rewrite !list_insert_insert_eq.
    + apply (inv_unseen _ He'); [|done].
      rewrite (remove_registered e w idx) by done. simpl. split; lia.
    + intros n Hn. rewrite (Hm' w n Hn). unfold expected_marker.
      by rewrite E', Hs.
  - assert (remove e w = e) as Heq.
    { unfold remove. destruct (is_empty w); [done|]. by rewrite E. }
    by rewrite !Heq.
Qed.

Lemma remove_idempotent_witness :
  remove (remove ex_cat "car") "car" = remove ex_cat "car".
Proof. apply (remove_idempotent ex_cat "car" reachable_ex_cat). Defined.

(** ** The answers of [getTopK] *)

Lemma getTopK_ids e p K :
  inv e ->
  exists ids,
    getTopK e p K = map (resolve e) ids /\
    cache_ok (freqs e) (dict e) p ids /\
    (Z.of_nat (length ids) <= Z.max 0 K) /\
    Forall (fun i => nth (Z.to_nat i) (wordSeen e) false = true) ids.
Proof.
  intros He. rewrite getTopK_spec.
  destruct (Z.leb_spec K 0) as [HK|HK].
  { exists []. split_and!; [done|apply cache_ok_nil|simpl; lia|constructor]. }
  destruct (walk p (root e)) as [n|] eqn:Hn.
  2:{ exists []. split_and!; [done|apply cache_ok_nil|simpl; lia|constructor]. }
  eexists. split; [done|]. split_and!.
  - eapply cache_ok_sublist; [apply sublist_take|]. by apply (inv_caches e He).
  - rewrite length_take. lia.
  - rewrite Forall_forall. intros i Hi.
    assert (i ∈ topK n) as Hi' by (by eapply subseteq_take).
    destruct (inv_caches e He p n Hn) as [_ _ Hm].
    rewrite Forall_forall in Hm. destruct (Hm i Hi') as [Hd _].
    destruct (nth (Z.to_nat i) (wordSeen e) false) eqn:Es; [done|].
    by destruct (inv_unseen e He i Hd Es p n Hn).
Qed.

(** X6: every suggestion of a reachable engine is a registered word that
    is marked in [wordSeen] and starts with the prefix, paired with its
    current frequency. *)
Theorem suggestions_sound e p K w f :
  reachable e -> (w, f) ∈ getTopK e p K ->
  String.prefix p w = true /\
  exists i, wordToIndex e !! w = Some i /\
            nth (Z.to_nat i) (wordSeen e) false = true /\
            nth (Z.to_nat i) (freqs e) 0 = f.
Proof.
  intros He%reachable_inv Hin.
  destruct (getTopK_ids e p K He) as (ids & Heq & [_ _ Hm] & _ & Hs).
  rewrite Heq in Hin.
  apply list_elem_of_fmap in Hin as (i & [= -> ->] & Hi).
  rewrite Forall_forall in Hm, Hs.
  destruct (Hm i Hi) as [Hd [_ Hp]]. split; [done|]. exists i.
  split_and!; [|by apply Hs|done].
  apply (reg_index e (inv_registry e He)). split; [by destruct Hd|].
  by apply dict_at_lookup.
Qed.

Lemma suggestions_sound_witness :
  String.prefix "ca" "cart" = true /\
  exists i, wordToIndex ex_cat !! "cart" = Some i /\
            nth (Z.to_nat i) (wordSeen ex_cat) false = true /\
            nth (Z.to_nat i) (freqs ex_cat) 0 = 10.
Proof.
  apply (suggestions_sound ex_cat "ca" 3 "cart" 10 reachable_ex_cat).
  replace (getTopK ex_cat "ca" 3)
    with [("cart", 10); ("cat", 5); ("car", 3)]%string by (by vm_compute).
  apply elem_of_cons. by left.
Defined.

Lemma StronglySorted_map_in {A B} (R : A -> A -> Prop) (R' : B -> B -> Prop)
    (f : A -> B) (l : list A) :
  (forall a b, a ∈ l -> b ∈ l -> R a b -> R' (f a) (f b)) ->
  StronglySorted R l -> StronglySorted R' (map f l).
Proof.
  intros H Hs. induction Hs as [|x l Hs IH Hx]; simpl; [constructor|].
  constructor.
  - apply IH. intros a b Ha Hb. apply H; by right.
  - rewrite Forall_forall in Hx. apply Forall_forall.
    intros y (a & -> & Ha)%list_elem_of_fmap.
    apply H; [by left | by right | by apply Hx].
Qed.

(** X7: the suggestions of a reachable engine are in rank order, higher
    frequency first and equal frequencies by ascending text, and no text
    is suggested twice. *)
Theorem suggestions_in_rank_order e p K :
  reachable e ->
  StronglySorted suggestion_before (getTopK e p K) /\
  NoDup (map fst (getTopK e p K)).
Proof.
  intros He%reachable_inv.
  destruct (getTopK_ids e p K He) as (ids & -> & [Hnd Hso Hm] & _ & _).
  rewrite Forall_forall in Hm.
  pose proof (reg_len_freqs e (inv_registry e He)) as Hlen. split.
  - apply (StronglySorted_map_in (ranked (freqs e) (dict e))); [|done].
    intros a b Ha Hb Hab. destruct (Hm a Ha) as [Hda _].
    destruct (Hm b Hb) as [Hdb _].
    apply higher_iff in Hab.
    rewrite !(freq_or_0_in (freqs e) (dict e)) in Hab by done.
    unfold suggestion_before, resolve. simpl.
    destruct Hab as [?|[? ?]]; [left; lia | right; split; [lia|done]].
  - rewrite map_map. simpl.
    apply (NoDup_fmap_2_strong (fun i => RankHelper.dict_at (dict e) i));
      [|done].
    intros a b Ha Hb. destruct (Hm a Ha) as [Hda _].
    destruct (Hm b Hb) as [Hdb _].
    apply dict_at_inj; [|done..]. by apply registry_NoDup, inv_registry.
Qed.

Lemma suggestions_in_rank_order_witness :
  StronglySorted suggestion_before (getTopK ex_cat "c" 2) /\
  NoDup (map fst (getTopK ex_cat "c" 2)).
Proof. apply (suggestions_in_rank_order ex_cat "c" 2 reachable_ex_cat). Defined.

Lemma take_min_length {A} (v : list A) K :
  take (Z.to_nat (Z.min K (Z.of_nat (length v)))) v = take (Z.to_nat K) v.
Proof.
  destruct (Z.le_gt_cases K (Z.of_nat (length v))) as [H|H].
  - by rewrite Z.min_l.
  - rewrite Z.min_r, Nat2Z.id by lia. rewrite !take_ge; [done|lia|lia].
Qed.

(** X8: [getTopK] returns at most [K] suggestions, and its answer for a
    smaller [K] is the front of its answer for a larger one, in every
    engine. *)
Theorem getTopK_front e p K K' :
  K <= K' ->
  getTopK e p K = take (Z.to_nat K) (getTopK e p K') /\
  Z.of_nat (length (getTopK e p K)) <= Z.max 0 K.
Proof.
  intros HK. rewrite !getTopK_spec.
  destruct (Z.leb_spec K 0) as [H0|H0].
  { replace (Z.to_nat K) with 0%nat by lia. simpl. split; [done|lia]. }
  destruct (Z.leb_spec K' 0) as [H0'|H0']; [lia|].
  destruct (walk p (root e)) as [n|]; [|rewrite take_nil; simpl; split; [done|lia]].
  split.
  - rewrite !take_min_length, <- fmap_take, take_take. do 2 f_equal. lia.
  - rewrite length_map, length_take. lia.
Qed.

Lemma getTopK_front_witness :
  getTopK ex_cat "ca" 1 = take (Z.to_nat 1) (getTopK ex_cat "ca" 3) /\
  Z.of_nat (length (getTopK ex_cat "ca" 1)) <= Z.max 0 1.
Proof. apply (getTopK_front ex_cat "ca" 1 3). lia. Defined.

(** ** The capacity *)

Lemma bounded_kept ops : forall e,
  inv e -> bounded (perNodeK e) (root e) -> Forall op_typed ops ->
  capacity_kept e ops ->
  bounded (perNodeK (run e ops)) (root (run e ops)).
Proof.
  induction ops as [|o ops IH]; intros e He Hb Ht Hk; [done|].
  inversion Ht as [|? ? Hto Ht']; subst. destruct Hk as [Hk1 Hk2].
  simpl. apply IH; [by apply inv_step| |done..].
  apply bounded_step; [by destruct He as [[]] | done |].
  by intros k ->.
Qed.

(** X9: as long as no operation lowers the capacity, no cache of the
    trie holds more indices than the capacity and no query returns more
    suggestions than the capacity. *)
Theorem capacity_respected k ops :
  0 <= k -> Forall op_typed ops -> capacity_kept (new_engine k) ops ->
  bounded (perNodeK (run (new_engine k) ops))
          (root (run (new_engine k) ops)) /\
  forall p K,
    Z.of_nat (length (getTopK (run (new_engine k) ops) p K)) <=
    perNodeK (run (new_engine k) ops).
Proof.
  intros Hk Ht Hkept.
  assert (bounded (perNodeK (run (new_engine k) ops))
                  (root (run (new_engine k) ops))) as Hb.
  { apply bounded_kept; [by apply inv_new| |done..].
    intros p n Hn. simpl in *. destruct p as [|c p]; simpl in Hn.
    - injection Hn as <-. simpl. lia.
    - by rewrite lookup_empty in Hn. }
  split; [done|]. intros p K. apply getTopK_length; [|done].
  assert (reachable (run (new_engine k) ops)) as Hr.
  { clear Hkept Hb. generalize (reachable_new k Hk).
    generalize (new_engine k). induction Ht as [|o ops Ho Ht IH]; [done|].
    intros e He. simpl. apply IH. by apply reachable_step. }
  apply reachable_inv in Hr. by destruct Hr as [[]].
Qed.

Lemma capacity_respected_witness :
  bounded (perNodeK (run (new_engine 1) [OpInsert "a" 1; OpInsert "ab" 2]))
          (root (run (new_engine 1) [OpInsert "a" 1; OpInsert "ab" 2])) /\
  forall p K,
    Z.of_nat (length (getTopK (run (new_engine 1)
                                   [OpInsert "a" 1; OpInsert "ab" 2]) p K)) <=
    perNodeK (run (new_engine 1) [OpInsert "a" 1; OpInsert "ab" 2]).
Proof.
  apply (capacity_respected 1 [OpInsert "a" 1; OpInsert "ab" 2]).
  - lia.
  - repeat constructor; by vm_compute.
  - by vm_compute.
Defined.

(** ** Caches that are not full are complete *)

Lemma walk_prefix p : forall w r,
  String.prefix p w = true -> is_Some (walk w r) -> is_Some (walk p r).
Proof.
  induction p as [|c p IH]; intros w r Hp Hw; [by eauto|].
  destruct w as [|c' w]; [done|].
  apply prefix_cons in Hp as [<- Hp]. simpl in Hw |- *.
  destruct (children r !! c) as [child|]; [|done]. by eapply IH.
Qed.

Lemma update_cache_saturated k fs d p idx v :
  0 <= k ->
  full_or_complete k d (Some idx) p v ->
  full_or_complete k d None p (update_cache k fs d idx v).
Proof.
  intros Hk Hv. unfold update_cache.
  set (v1 := if found idx v then v else v ++ [idx]).
  set (v2 := std_sort (RankHelper.higher fs d) v1).
  assert (v2 ≡ₚ v1) as Hperm by apply std_sort_perm.
  assert (length v2 = length v1) as Hlen by (by rewrite Hperm).
  assert (length v <= length v1 <= S (length v))%nat as Hl1.
  { unfold v1. destruct (found idx v); [lia|]. rewrite length_app. simpl. lia. }
  rewrite trim_take by done.
  destruct (Z.le_gt_cases (Z.of_nat (length v2)) k) as [Hle|Hgt].
  - rewrite take_ge by lia. destruct Hv as [Hfull|Hcomp].
    + left. lia.
    + right. intros i Hi _ Hp. rewrite Hperm. unfold v1.
      destruct (decide (i = idx)) as [->|Hne].
      * destruct (found idx v) eqn:E; [by apply found_iff|].
        apply elem_of_app. right. by apply list_elem_of_singleton.
      * assert (i ∈ v) by (apply Hcomp; [done|congruence|done]).
        destruct (found idx v); [done|]. apply elem_of_app. by left.
  - left. rewrite length_take. lia.
Qed.

Lemma saturated_update k fs d w idx r :
  0 <= k -> NoDup d -> in_dict d idx -> RankHelper.dict_at d idx = w ->
  (forall w', w' ∈ d -> w' <> w -> is_Some (walk w' r)) ->
  saturated k d (Some idx) r ->
  saturated k d None (updateTopKForWord k fs d w idx r).
Proof.
  intros Hk Hnd Hidx Hw Hp Hs p n' Hn' Hne.
  rewrite updateTopKForWord_along in Hn'.
  apply (walk_along_path _ _ _ (update_cache k fs d idx)) in Hn'; try done.
  destruct Hn' as [[-> _]|[(Hpth & Ht & _)|(Hpth & n & Hn & Ht)]];
    [done|..]; rewrite Ht.
  - apply update_cache_saturated; [done|].
    destruct (walk p r) as [n|] eqn:Hn; simpl; [by apply Hs|].
    right. intros i Hi Hskip Hon.
    assert (is_Some (walk p r)) as [? ?]; [|congruence].
    apply (walk_prefix p (RankHelper.dict_at d i)); [by destruct Hon|].
    apply Hp.
    + eapply list_elem_of_lookup_2. by apply dict_at_lookup.
    + intros E. apply Hskip. f_equal. apply (dict_at_inj d); congruence.
  - destruct (Hs p n Hn Hne) as [Hfull|Hcomp]; [by left|].
    right. intros i Hi _ Hon. apply Hcomp; [done| |done].
    intros [= ->]. destruct Hon as [_ Hon]. congruence.
Qed.

Lemma ensureWordIndex_saturated e w e1 idx :
  inv e -> saturated (perNodeK e) (dict e) None (root e) ->
  ensureWordIndex e w = (e1, idx) ->
  saturated (perNodeK e1) (dict e1) (Some idx) (root e1).
Proof.
  intros He Hs. unfold ensureWordIndex.
  destruct (wordToIndex e !! w) as [i|] eqn:E; intros [= <- <-].
  - intros p n Hn Hne. destruct (Hs p n Hn Hne) as [?|Hc]; [by left|].
    right. intros j Hj _ Hon. by apply Hc.
  - simpl. intros p n Hn Hne. destruct (Hs p n Hn Hne) as [?|Hc]; [by left|].
    right. intros j [Hj0 Hj1] Hskip Hon. rewrite length_app in Hj1.
    simpl in Hj1.
    assert (j <> Z.of_nat (length (dict e))) by congruence.
    assert (in_dict (dict e) j) as Hj by (unfold in_dict; lia).
    rewrite dict_at_app in Hon by done. by apply Hc.
Qed.

Lemma saturated_assign e1 w idx fs seen r0 :
  registry_ok e1 -> in_dict (dict e1) idx ->
  RankHelper.dict_at (dict e1) idx = w ->
  (forall w', w' ∈ dict e1 -> w' <> w -> is_Some (walk w' r0)) ->
  saturated (perNodeK e1) (dict e1) (Some idx) r0 ->
  saturated (perNodeK e1) (dict e1) None
    (root (mkEngine
             (updateTopKForWord (perNodeK e1) fs (dict e1) w idx r0)
             (perNodeK e1) (dict e1) fs seen (wordToIndex e1))).
Proof.
  intros Hreg Hidx Hw Hp Hs. simpl. apply saturated_update; try done.
  - by destruct Hreg.
  - by apply registry_NoDup.
Qed.

Lemma saturated_updateFrequency e w f :
  inv e -> saturated (perNodeK e) (dict e) None (root e) ->
  saturated (perNodeK (updateFrequency e w f))
            (dict (updateFrequency e w f)) None
            (root (updateFrequency e w f)).
Proof.
  intros He Hs. unfold updateFrequency.
  destruct (is_empty w) eqn:Ew; [done|].
  destruct (ensureWordIndex e w) as [e1 idx] eqn:E.
  pose proof (ensureWordIndex_saturated _ _ _ _ He Hs E) as Hs1.
  pose proof (ensureWordIndex_root _ _ _ _ E) as [Hr _].
  apply ensureWordIndex_spec in E
    as (Hreg & _ & Hidx & Hw & _ & _ & Hp & _); [|done|by intros ->].
  apply (saturated_assign e1 w idx); try done.
Qed.

Lemma saturated_insert e w f :
  inv e -> saturated (perNodeK e) (dict e) None (root e) ->
  saturated (perNodeK (insert e w f)) (dict (insert e w f)) None
            (root (insert e w f)).
Proof.
  intros He Hs. unfold insert.
  destruct (is_empty w) eqn:Ew; [done|].
  destruct (ensureWordIndex e w) as [e1 idx] eqn:E.
  pose proof (ensureWordIndex_saturated _ _ _ _ He Hs E) as Hs1.
  apply ensureWordIndex_spec in E
    as (Hreg & _ & Hidx & Hw & _ & _ & Hp & _); [|done|by intros ->].
  apply (saturated_assign e1 w idx); try done.
Qed.

Lemma saturated_update_entries entries : forall e,
  Forall (fun wf => fst wf <> EmptyString /\ in_int64 (snd wf)) entries ->
  inv e -> saturated (perNodeK e) (dict e) None (root e) ->
  saturated (perNodeK (update_entries e entries))
            (dict (update_entries e entries)) None
            (root (update_entries e entries)).
Proof.
  induction entries as [|[w f] entries IH]; intros e Hall He Hs; [done|].
  inversion Hall as [|? ? [_ Hf] Hall']; subst.
  unfold update_entries in *. simpl. apply IH; [done| |].
  - by apply inv_updateFrequency.
  - by apply saturated_updateFrequency.
Qed.

Lemma saturated_step e o :
  inv e -> grows o ->
  saturated (perNodeK e) (dict e) None (root e) ->
  saturated (perNodeK (step e o)) (dict (step e o)) None (root (step e o)).
Proof.
  intros He Hg Hs. destruct o as [w f|w f|w|k|[content|]|p K]; unfold step.
  - by apply saturated_insert.
  - by apply saturated_updateFrequency.
  - done.
  - done.
  - rewrite loadFromFile_update_entries.
    apply saturated_update_entries; auto using extracted_nonempty.
  - done.
  - by rewrite getTopK_run_engine.
Qed.

Lemma saturated_run ops : forall e,
  inv e -> Forall op_typed ops -> Forall grows ops ->
  saturated (perNodeK e) (dict e) None (root e) ->
  inv (run e ops) /\
  saturated (perNodeK (run e ops)) (dict (run e ops)) None
            (root (run e ops)).
Proof.
  induction ops as [|o ops IH]; intros e He Ht Hg Hs; [done|].
  inversion Ht as [|? ? Hto Ht']; inversion Hg as [|? ? Hgo Hg']; subst.
  simpl. apply IH; [by apply inv_step|done..|by apply saturated_step].
Qed.

Lemma perNodeK_step_grows e o : grows o -> perNodeK (step e o) = perNodeK e.
Proof.
  intros Hg. destruct o as [w f|w f|w|k|[content|]|p K]; unfold step;
    try done.
  - unfold insert. destruct (is_empty w); [done|].
    pose proof (ensureWordIndex_root e w) as H.
    destruct (ensureWordIndex e w) as [e1 idx]. simpl.
    by destruct (H e1 idx eq_refl).
  - unfold updateFrequency. destruct (is_empty w); [done|].
    pose proof (ensureWordIndex_root e w) as H.
    destruct (ensureWordIndex e w) as [e1 idx]. simpl.
    by destruct (H e1 idx eq_refl).
  - rewrite loadFromFile_update_entries.
    generalize (extracted (S (String.length content)) content).
    intros l. revert e. induction l as [|[w f] l IH]; intros e; [done|].
    unfold update_entries in *. simpl. rewrite IH.
    unfold updateFrequency. destruct (is_empty w); [done|].
    pose proof (ensureWordIndex_root e w) as H.
    destruct (ensureWordIndex e w) as [e1 idx]. simpl.
    by destruct (H e1 idx eq_refl).
  - by rewrite getTopK_run_engine.
Qed.

Lemma perNodeK_run_grows ops : forall e,
  Forall grows ops -> perNodeK (run e ops) = perNodeK e.
Proof.
  induction ops as [|o ops IH]; intros e Hg; [done|].
  inversion Hg as [|? ? Hgo Hg']; subst. simpl.
  by rewrite IH, perNodeK_step_grows.
Qed.

(** X10: in an engine built with capacity [k] by insertions, updates,
    loads and queries only, a query for a non-empty prefix that returns
    fewer suggestions than both [K] and [k] has returned every registered
    word that starts with the prefix. *)
Theorem short_answer_is_complete k ops p K w i :
  0 <= k -> Forall op_typed ops -> Forall grows ops ->
  p <> EmptyString ->
  wordToIndex (run (new_engine k) ops) !! w = Some i ->
  String.prefix p w = true ->
  Z.of_nat (length (getTopK (run (new_engine k) ops) p K)) < Z.min K k ->
  (w, nth (Z.to_nat i) (freqs (run (new_engine k) ops)) 0)
    ∈ getTopK (run (new_engine k) ops) p K.
Proof.
  intros Hk Ht Hg Hp Hi Hpre Hlen.
  destruct (saturated_run ops (new_engine k)) as [He Hs]; try done.
  { by apply inv_new. }
  { intros q n Hn Hq. destruct q as [|c q]; [done|]. simpl in Hn.
    by rewrite lookup_empty in Hn. }
  rewrite perNodeK_run_grows in Hs by done. simpl in Hs.
  set (e := run (new_engine k) ops) in *.
  destruct (registry_lookup _ _ _ (inv_registry e He) Hi)
    as (Hd & Hw & Hin).
  destruct (walk_prefix p w (root e) Hpre (inv_paths e He w Hin)) as [n Hn].
  rewrite getTopK_spec in Hlen |- *. rewrite Hn in Hlen |- *.
  destruct (Z.leb_spec K 0) as [HK|HK]; [simpl in Hlen; lia|].
  rewrite length_map, length_take in Hlen.
  rewrite take_ge by lia.
  apply list_elem_of_fmap. exists i. split.
  - unfold resolve. by rewrite Hw.
  - destruct (Hs p n Hn Hp) as [Hfull|Hcomp]; [lia|].
    apply Hcomp; [done|done|]. split; [done|]. by rewrite Hw.
Qed.

Lemma short_answer_is_complete_witness :
  ("car"%string,
   nth (Z.to_nat 1)
       (freqs (run (new_engine 5)
                   [OpInsert "cat" 5; OpInsert "car" 3; OpInsert "dog" 1]))
       0)
    ∈ getTopK (run (new_engine 5)
                   [OpInsert "cat" 5; OpInsert "car" 3; OpInsert "dog" 1])
              "ca" 4.
Proof.
  apply (short_answer_is_complete 5
           [OpInsert "cat" 5; OpInsert "car" 3; OpInsert "dog" 1]
           "ca" 4 "car" 1).
  - lia.
  - repeat constructor; by vm_compute.
  - repeat constructor.
  - discriminate.
  - by vm_compute.
  - reflexivity.
  - by vm_compute.
Defined.

(** ** The registry *)

(** X11: in every reachable engine the three vectors of the registry have
    one length, no word is registered twice, no registered word is empty,
    [wordToIndex] is the inverse of [dict], and every frequency is a
    [long long]. *)
Theorem registry_consistent e :
  reachable e ->
  length (freqs e) = length (dict e) /\
  length (wordSeen e) = length (dict e) /\
  NoDup (dict e) /\
  (EmptyString ∉ dict e) /\
  (forall w i, wordToIndex e !! w = Some i <->
               0 <= i /\ dict e !! Z.to_nat i = Some w) /\
  Forall in_int64 (freqs e).
Proof.
  intros He%reachable_inv. pose proof (inv_registry e He) as Hreg.
  destruct Hreg as [Hlf Hls Hidx Hne Hrange Hk] eqn:E. split_and!; try done.
  - by apply registry_NoDup.
  - intros H. by apply (Hne _ H).
Qed.

Lemma registry_consistent_witness :
  length (freqs ex_cat) = length (dict ex_cat) /\
  length (wordSeen ex_cat) = length (dict ex_cat) /\
  NoDup (dict ex_cat) /\
  (EmptyString ∉ dict ex_cat) /\
  (forall w i, wordToIndex ex_cat !! w = Some i <->
               0 <= i /\ dict ex_cat !! Z.to_nat i = Some w) /\
  Forall in_int64 (freqs ex_cat).
Proof. apply (registry_consistent ex_cat reachable_ex_cat). Defined.

Lemma ensureWordIndex_grows e w :
  dict e `prefix_of` dict (fst (ensureWordIndex e w)) /\
  wordToIndex e ⊆ wordToIndex (fst (ensureWordIndex e w)).
Proof.
  unfold ensureWordIndex. destruct (wordToIndex e !! w) eqn:E; simpl.
  - done.
  - split; [by apply prefix_app_r | by apply insert_subseteq].
Qed.

Lemma updateFrequency_grows e w f :
  dict e `prefix_of` dict (updateFrequency e w f) /\
  wordToIndex e ⊆ wordToIndex (updateFrequency e w f).
Proof.
  unfold updateFrequency. destruct (is_empty w); [done|].
  pose proof (ensureWordIndex_grows e w) as H.
  by destruct (ensureWordIndex e w) as [e1 idx].
Qed.

Lemma insert_grows e w f :
  dict e `prefix_of` dict (insert e w f) /\
  wordToIndex e ⊆ wordToIndex (insert e w f).
Proof.
  unfold insert. destruct (is_empty w); [done|].
  pose proof (ensureWordIndex_grows e w) as H.
  by destruct (ensureWordIndex e w) as [e1 idx].
Qed.

Lemma remove_registry e w :
  dict (remove e w) = dict e /\ wordToIndex (remove e w) = wordToIndex e.
Proof.
  unfold remove. destruct (is_empty w); [done|].
  destruct (wordToIndex e !! w); [|done].
  by destruct (clearWordIndex w (root e)).
Qed.

Lemma update_entries_grows entries : forall e,
  dict e `prefix_of` dict (update_entries e entries) /\
  wordToIndex e ⊆ wordToIndex (update_entries e entries).
Proof.
  induction entries as [|[w f] entries IH]; intros e; [done|].
  unfold update_entries in *. simpl.
  destruct (IH (updateFrequency e w f)) as [H1 H2].
  destruct (updateFrequency_grows e w f) as [H3 H4].
  split; etrans; eauto.
Qed.

Lemma step_grows e o :
  dict e `prefix_of` dict (step e o) /\
  wordToIndex e ⊆ wordToIndex (step e o).
Proof.
  destruct o as [w f|w f|w|k|[content|]|p K]; unfold step.
  - apply insert_grows.
  - apply updateFrequency_grows.
  - by destruct (remove_registry e w) as [-> ->].
  - done.
  - rewrite loadFromFile_update_entries. apply update_entries_grows.
  - done.
  - by rewrite getTopK_run_engine.
Qed.

(** X12: the registry only grows: whatever the operations, the
    dictionary before them is the front of the dictionary after them, and
    every word keeps the index it has; no index is given up or given to
    another word, also not by [remove]. *)
Theorem indices_are_stable e ops :
  dict e `prefix_of` dict (run e ops) /\
  wordToIndex e ⊆ wordToIndex (run e ops).
Proof.
  revert e. induction ops as [|o ops IH]; intros e; [done|].
  simpl. destruct (IH (step e o)) as [H1 H2].
  destruct (step_grows e o) as [H3 H4]. split; etrans; eauto.
Qed.

(** ** The known pairs *)

Lemma resolve_fst e i : fst (resolve e i) = RankHelper.dict_at (dict e) i.
Proof. done. Qed.

Section assign.
Context (e : Engine) (r : TrieNode) (k x : Z) (b : bool) (idx : Z).
Context (w : string).
Hypothesis dict_NoDup : NoDup (dict e).
Hypothesis idx_in : in_dict (dict e) idx.
Hypothesis idx_word : RankHelper.dict_at (dict e) idx = w.
Hypothesis len_seen : length (wordSeen e) = length (dict e).
Hypothesis len_freqs : length (freqs e) = length (dict e).

(** The engine after the entry of [idx] is assigned. *)
Abbreviation assigned :=
  (mkEngine r k (dict e) (<[Z.to_nat idx := x]> (freqs e))
            (<[Z.to_nat idx := b]> (wordSeen e)) (wordToIndex e)).

Lemma assigned_other i :
  in_dict (dict e) i -> i <> idx ->
  nth (Z.to_nat i) (wordSeen assigned) false =
    nth (Z.to_nat i) (wordSeen e) false /\
  resolve assigned i = resolve e i /\
  other_text w (resolve e i).
Proof using All.
  intros Hi Hne.
  assert (Z.to_nat idx <> Z.to_nat i) by (destruct idx_in, Hi; lia).
  split_and!.
  - simpl. by rewrite nth_insert_ne.
  - unfold resolve. simpl. by rewrite nth_insert_ne.
  - unfold other_text. rewrite resolve_fst. intros E. apply Hne.
    apply (dict_at_inj (dict e)); congruence.
Qed.

Lemma assigned_self :
  nth (Z.to_nat idx) (wordSeen assigned) false = b /\
  resolve assigned idx = (w, x) /\
  ~ other_text w (resolve e idx).
Proof using All.
  split_and!.
  - simpl. apply nth_insert_eq. destruct idx_in. lia.
  - unfold resolve. simpl. rewrite idx_word. f_equal.
    apply nth_insert_eq. destruct idx_in. lia.
  - unfold other_text. rewrite resolve_fst. tauto.
Qed.

Lemma known_pairs_assigned_absent (L : list Z) :
  Forall (in_dict (dict e)) L -> idx ∉ L ->
  map (resolve assigned)
      (filter (fun i => nth (Z.to_nat i) (wordSeen assigned) false) L) =
  filter (other_text w)
    (map (resolve e)
         (filter (fun i => nth (Z.to_nat i) (wordSeen e) false) L)).
Proof using All.
  induction L as [|i L IH]; intros Hin Hni; [done|].
  apply Forall_cons in Hin as [Hdi Hin'].
  apply not_elem_of_cons in Hni as [Hne Hni].
  destruct (assigned_other i Hdi) as (Hs & Hr & Ho); [congruence|].
  rewrite !filter_cons, Hs.
  destruct (decide (nth (Z.to_nat i) (wordSeen e) false)); simpl.
  - rewrite filter_cons, decide_True by done. rewrite Hr. f_equal. auto.
  - auto.
Qed.

Lemma known_pairs_assigned_list (L : list Z) :
  Forall (in_dict (dict e)) L -> NoDup L -> idx ∈ L ->
  map (resolve assigned)
      (filter (fun i => nth (Z.to_nat i) (wordSeen assigned) false) L) ≡ₚ
  (if b then [(w, x)] else []) ++
  filter (other_text w)
    (map (resolve e)
         (filter (fun i => nth (Z.to_nat i) (wordSeen e) false) L)).
Proof using All.
  induction L as [|i L IH]; intros Hin Hnd Hel.
  { by apply elem_of_nil in Hel. }
  apply Forall_cons in Hin as [Hdi Hin'].
  apply NoDup_cons in Hnd as [Hi Hnd].
  destruct (decide (i = idx)) as [->|Hne].
  - destruct assigned_self as (Hs & Hr & Ho).
    rewrite (filter_cons _ idx), Hs.
    rewrite (filter_cons (fun i => nth (Z.to_nat i) (wordSeen e) false)).
    assert (filter (other_text w)
              (map (resolve e)
                 (if decide (nth (Z.to_nat idx) (wordSeen e) false)
                  then idx :: filter (fun i =>
                         nth (Z.to_nat i) (wordSeen e) false) L
                  else filter (fun i =>
                         nth (Z.to_nat i) (wordSeen e) false) L)) =
            filter (other_text w)
              (map (resolve e)
                 (filter (fun i =>
                    nth (Z.to_nat i) (wordSeen e) false) L))) as ->.
    { destruct (decide _); [|done]. simpl.
      by rewrite filter_cons, decide_False. }
    rewrite <- known_pairs_assigned_absent by done.
    destruct b.
    + rewrite decide_True by done. simpl. by rewrite Hr.
    + rewrite decide_False by (by intros []). simpl. reflexivity.
  - apply elem_of_cons in Hel as [?|Hel]; [congruence|].
    destruct (assigned_other i Hdi Hne) as (Hs & Hr & Ho).
    rewrite !filter_cons, Hs.
    destruct (decide (nth (Z.to_nat i) (wordSeen e) false)); simpl.
    + rewrite filter_cons, decide_True by done.
      rewrite Hr, IH by done. by rewrite Permutation_middle.
    + auto.
Qed.

(** Nothing moves when the mark is taken away. *)
Lemma known_pairs_unmarked_list (L : list Z) :
  b = false -> Forall (in_dict (dict e)) L ->
  map (resolve assigned)
      (filter (fun i => nth (Z.to_nat i) (wordSeen assigned) false) L) =
  filter (other_text w)
    (map (resolve e)
         (filter (fun i => nth (Z.to_nat i) (wordSeen e) false) L)).
Proof using All.
  intros Hb. induction L as [|i L IH]; intros Hin; [done|].
  apply Forall_cons in Hin as [Hdi Hin'].
  destruct (decide (i = idx)) as [->|Hne].
  - destruct assigned_self as (Hs & Hr & Ho).
    rewrite (filter_cons _ idx), Hs.
    destruct (decide (Is_true b)) as [Hib|_]; [by rewrite Hb in Hib|].
    rewrite IH by done.
    rewrite (filter_cons (fun i => nth (Z.to_nat i) (wordSeen e) false)).
    destruct (decide _); [|done]. simpl.
    by rewrite filter_cons, decide_False.
  - destruct (assigned_other i Hdi Hne) as (Hs & Hr & Ho).
    rewrite !filter_cons, Hs.
    destruct (decide (nth (Z.to_nat i) (wordSeen e) false)); simpl.
    + rewrite filter_cons, decide_True by done. rewrite Hr. f_equal. auto.
    + auto.
Qed.
End assign.

Lemma indices_NoDup n : NoDup (map Z.of_nat (seq 0 n)).
Proof. apply NoDup_fmap_2; [|apply NoDup_seq]. intros a b E. lia. Qed.

Lemma indices_in_dict d :
  Forall (in_dict d) (map Z.of_nat (seq 0 (length d))).
Proof.
  apply Forall_forall. intros i (n & -> & Hn)%list_elem_of_fmap.
  apply elem_of_seq in Hn. unfold in_dict. lia.
Qed.

Lemma known_pairs_assign e r x idx w :
  registry_ok e -> wordToIndex e !! w = Some idx ->
  known_pairs (mkEngine r (perNodeK e) (dict e)
                        (<[Z.to_nat idx := x]> (freqs e))
                        (<[Z.to_nat idx := true]> (wordSeen e))
                        (wordToIndex e))
  ≡ₚ (w, x) :: filter (other_text w) (known_pairs e).
Proof.
  intros Hreg Hi.
  destruct (registry_lookup _ _ _ Hreg Hi) as (Hidx & Hw & _).
  unfold known_pairs, known_indices. simpl.
  apply (known_pairs_assigned_list e r (perNodeK e) x true idx w
           (registry_NoDup e Hreg) Hidx Hw (reg_len_seen e Hreg)
           (reg_len_freqs e Hreg)).
  - apply indices_in_dict.
  - apply indices_NoDup.
  - apply list_elem_of_fmap. exists (Z.to_nat idx). destruct Hidx.
    split; [lia|]. apply elem_of_seq. lia.
Qed.

Lemma known_pairs_ensureWordIndex e w :
  registry_ok e ->
  known_pairs (fst (ensureWordIndex e w)) = known_pairs e.
Proof.
  intros Hreg. unfold ensureWordIndex.
  pose proof (reg_len_seen e Hreg) as Hls.
  pose proof (reg_len_freqs e Hreg) as Hlf.
  destruct (wordToIndex e !! w) eqn:E; [done|]. simpl.
  unfold known_pairs, known_indices. simpl.
  rewrite length_app. simpl.
  rewrite Nat.add_1_r, seq_S, map_app, filter_app. simpl.
  rewrite filter_cons, decide_False, filter_nil, app_nil_r.
  2:{ rewrite Nat2Z.id, app_nth2, (reg_len_seen e Hreg), Nat.sub_diag;
        [simpl; tauto | lia]. }
  rewrite (filter_ext_in _
             (fun i => nth (Z.to_nat i) (wordSeen e) false)).
  - apply map_ext_in. intros i Hi%list_elem_of_In.
    apply list_elem_of_filter in Hi as [_ (n & -> & Hn)%list_elem_of_fmap].
    apply elem_of_seq in Hn. unfold resolve, RankHelper.dict_at. simpl.
    rewrite Nat2Z.id, !app_nth1; [done | lia..].
  - intros i (n & -> & Hn)%list_elem_of_fmap. apply elem_of_seq in Hn.
    rewrite Nat2Z.id, app_nth1; [done | lia].
Qed.

Lemma filter_all {A} (P : A -> Prop) `{forall x, Decision (P x)}
    (l : list A) :
  Forall P l -> filter P l = l.
Proof.
  induction 1 as [|x l Hx Hl IH]; [done|].
  by rewrite filter_cons_True, IH.
Qed.

Lemma filter_other_text_id e w :
  registry_ok e -> wordToIndex e !! w = None ->
  filter (other_text w) (known_pairs e) = known_pairs e.
Proof.
  intros Hreg Hn. apply filter_all. apply Forall_forall.
  intros wf (i & -> & Hi)%list_elem_of_fmap.
  apply elem_of_known_indices in Hi as [[Hi0 Hi1] _].
  unfold other_text. rewrite resolve_fst. intros E.
  assert (wordToIndex e !! w = Some i); [|congruence].
  apply (reg_index e Hreg). split; [done|]. rewrite <- E.
  apply dict_at_lookup. split; lia.
Qed.

Lemma known_pairs_remove e w :
  inv e -> known_pairs (remove e w) = filter (other_text w) (known_pairs e).
Proof.
  intros He. pose proof (inv_registry e He) as Hreg.
  destruct (wordToIndex e !! w) as [idx|] eqn:E.
  - destruct (registry_lookup _ _ _ Hreg E) as (Hidx & Hw & Hin).
    assert (w <> EmptyString) as Hne by (by apply (reg_nonempty e Hreg)).
    rewrite (remove_registered e w idx) by done.
    unfold known_pairs, known_indices. simpl.
    apply (known_pairs_unmarked_list e _ (perNodeK e) 0 false idx w
             (registry_NoDup e Hreg) Hidx Hw (reg_len_seen e Hreg)
             (reg_len_freqs e Hreg)); [done|].
    apply indices_in_dict.
  - rewrite filter_other_text_id by done.
    unfold remove. destruct (is_empty w); [done|]. by rewrite E.
Qed.

(** X13: in a reachable engine [remove] takes the pair of the keyword out
    of the known pairs (the pairs that [saveToFile] writes) and leaves
    every other pair, and the order of the pairs, as they are. *)
Theorem remove_drops_pair e w :
  reachable e ->
  known_pairs (remove e w) = filter (other_text w) (known_pairs e).
Proof. intros He%reachable_inv. by apply known_pairs_remove. Qed.

Lemma remove_drops_pair_witness :
  known_pairs (remove ex_cat "car") =
  filter (other_text "car") (known_pairs ex_cat).
Proof. apply (remove_drops_pair ex_cat "car" reachable_ex_cat). Defined.

Lemma frequency_of_ensure e w e1 idx :
  registry_ok e -> ensureWordIndex e w = (e1, idx) ->
  nth (Z.to_nat idx) (freqs e1) 0 = frequency_of e w.
Proof.
  intros Hreg. unfold ensureWordIndex, frequency_of.
  destruct (wordToIndex e !! w) as [i|] eqn:E; intros [= <- <-]; [done|].
  simpl. rewrite Nat2Z.id, app_nth2, (reg_len_freqs e Hreg), Nat.sub_diag;
    [done|]. rewrite (reg_len_freqs e Hreg). lia.
Qed.

Lemma filter_known_pairs_ensure e w e1 idx :
  inv e -> w <> EmptyString -> ensureWordIndex e w = (e1, idx) ->
  registry_ok e1 /\ wordToIndex e1 !! w = Some idx /\
  known_pairs e1 = known_pairs e.
Proof.
  intros He Hw E. pose proof (known_pairs_ensureWordIndex e w
    (inv_registry e He)) as Hk. rewrite E in Hk.
  apply ensureWordIndex_spec in E
    as (Hreg & _ & _ & _ & Hi & _); [|done|done].
  done.
Qed.

Lemma known_pairs_updateFrequency e w f :
  inv e -> w <> EmptyString ->
  known_pairs (updateFrequency e w f)
    ≡ₚ (w, f) :: filter (other_text w) (known_pairs e).
Proof.
  intros He Hw.
  unfold updateFrequency. destruct w; [done|]. simpl is_empty. cbv iota.
  destruct (ensureWordIndex e _) as [e1 idx] eqn:E.
  destruct (filter_known_pairs_ensure _ _ _ _ He Hw E)
    as (Hreg & Hi & <-).
  apply (known_pairs_assign e1 _ f idx); done.
Qed.

Lemma known_pairs_insert e w f :
  inv e -> w <> EmptyString ->
  known_pairs (insert e w f)
    ≡ₚ (w, wrap64 (frequency_of e w + f))
       :: filter (other_text w) (known_pairs e).
Proof.
  intros He Hw.
  unfold insert. destruct w; [done|]. simpl is_empty. cbv iota.
  destruct (ensureWordIndex e _) as [e1 idx] eqn:E.
  rewrite (frequency_of_ensure e _ e1 idx (inv_registry e He) E).
  destruct (filter_known_pairs_ensure _ _ _ _ He Hw E)
    as (Hreg & Hi & <-).
  apply (known_pairs_assign e1 _ _ idx); done.
Qed.

(** X14: in a reachable engine [updateFrequency] of a non-empty keyword
    makes the pair of the keyword [(keyword, newFreq)], and [insert] makes
    it [(keyword, old + freq)] in 64-bit arithmetic, with [old] the
    frequency the registry holds for the keyword ([0] for a word without
    index); every other known pair stays as it is. *)
Theorem update_sets_pair e w f :
  reachable e -> w <> EmptyString ->
  known_pairs (updateFrequency e w f)
    ≡ₚ (w, f) :: filter (other_text w) (known_pairs e) /\
  known_pairs (insert e w f)
    ≡ₚ (w, wrap64 (frequency_of e w + f))
       :: filter (other_text w) (known_pairs e).
Proof.
  intros He%reachable_inv Hw. split.
  - by apply known_pairs_updateFrequency.
  - by apply known_pairs_insert.
Qed.

Lemma update_sets_pair_witness :
  known_pairs (updateFrequency ex_cat "car" 7)
    ≡ₚ ("car"%string, 7)
       :: filter (other_text "car") (known_pairs ex_cat) /\
  known_pairs (insert ex_cat "car" 7)
    ≡ₚ ("car"%string, wrap64 (frequency_of ex_cat "car" + 7))
       :: filter (other_text "car") (known_pairs ex_cat).
Proof.
  apply (update_sets_pair ex_cat "car" 7 reachable_ex_cat). discriminate.
Defined.

(** ** The saved file *)

(** X15: [saveToFile] on a file that opens writes, for a reachable
    engine, the known pairs one per line as [<text> <frequency>], in
    strictly ascending byte-wise order of the texts; when the file does
    not open nothing is written. *)
Theorem saved_in_text_order e :
  reachable e ->
  saveToFile e true =
    Some (render_lines
            (map (fun p => mkLine (fst p) " " (snd p)) (saved_pairs e))) /\
  StronglySorted text_before (saved_pairs e) /\
  saved_pairs e ≡ₚ known_pairs e /\
  saveToFile e false = None.
Proof.
  intros He%reachable_inv. split_and!.
  - rewrite saveToFile_render. unfold saved_pairs. by rewrite map_map.
  - apply saved_pairs_sorted, inv_registry, He.
  - apply saved_pairs_perm.
  - done.
Qed.

Lemma saved_in_text_order_witness :
  saveToFile ex_cat true =
    Some (render_lines
            (map (fun p => mkLine (fst p) " " (snd p)) (saved_pairs ex_cat)))
  /\ StronglySorted text_before (saved_pairs ex_cat) /\
  saved_pairs ex_cat ≡ₚ known_pairs ex_cat /\
  saveToFile ex_cat false = None.
Proof. apply (saved_in_text_order ex_cat reachable_ex_cat). Defined.

(** ** The line appended by [insert] *)

Lemma unseen_zero_new k : unseen_zero (new_engine k).
Proof. intros i [? Hi]. simpl in Hi. lia. Qed.

Lemma unseen_zero_ensure e w :
  registry_ok e -> unseen_zero e -> unseen_zero (fst (ensureWordIndex e w)).
Proof.
  intros Hreg Hz. unfold ensureWordIndex.
  pose proof (reg_len_seen e Hreg) as Hls.
  pose proof (reg_len_freqs e Hreg) as Hlf.
  destruct (wordToIndex e !! w); [done|]. simpl.
  intros i [Hi0 Hi1]. simpl in *. rewrite length_app in Hi1. simpl in Hi1.
  destruct (decide (i < Z.of_nat (length (dict e)))) as [Hlt|Hge].
  - rewrite !app_nth1 by lia. apply Hz. split; lia.
  - intros _. rewrite app_nth2 by lia.
    replace (Z.to_nat i - length (freqs e))%nat with 0%nat by lia. done.
Qed.

Lemma unseen_zero_assign e r x b idx :
  registry_ok e -> in_dict (dict e) idx -> unseen_zero e ->
  (b = false -> x = 0) ->
  unseen_zero (mkEngine r (perNodeK e) (dict e)
                        (<[Z.to_nat idx := x]> (freqs e))
                        (<[Z.to_nat idx := b]> (wordSeen e))
                        (wordToIndex e)).
Proof.
  intros Hreg [Hi0 Hi1] Hz Hb i Hi. simpl in *.
  pose proof (reg_len_seen e Hreg) as Hls.
  pose proof (reg_len_freqs e Hreg) as Hlf.
  destruct (decide (i = idx)) as [->|Hne].
  - rewrite !nth_insert_eq by lia. auto.
  - rewrite !nth_insert_ne by (destruct Hi; lia). by apply Hz.
Qed.

Lemma unseen_zero_updateFrequency e w f :
  inv e -> unseen_zero e -> unseen_zero (updateFrequency e w f).
Proof.
  intros He Hz. unfold updateFrequency.
  destruct (is_empty w) eqn:Ew; [done|].
  pose proof (unseen_zero_ensure e w (inv_registry e He) Hz) as Hz1.
  destruct (ensureWordIndex e w) as [e1 idx] eqn:E.
  apply ensureWordIndex_spec in E
    as (Hreg & _ & Hidx & _); [|done|by intros ->].
  by apply unseen_zero_assign.
Qed.

Lemma unseen_zero_insert e w f :
  inv e -> unseen_zero e -> unseen_zero (insert e w f).
Proof.
  intros He Hz. unfold insert.
  destruct (is_empty w) eqn:Ew; [done|].
  pose proof (unseen_zero_ensure e w (inv_registry e He) Hz) as Hz1.
  destruct (ensureWordIndex e w) as [e1 idx] eqn:E.
  apply ensureWordIndex_spec in E
    as (Hreg & _ & Hidx & _); [|done|by intros ->].
  by apply unseen_zero_assign.
Qed.

Lemma unseen_zero_remove e w :
  inv e -> unseen_zero e -> unseen_zero (remove e w).
Proof.
  intros He Hz.
  destruct (decide (w = EmptyString)) as [->|Hw]; [done|].
  destruct (wordToIndex e !! w) as [idx|] eqn:E.
  - rewrite (remove_registered e w idx) by done.
    destruct (registry_lookup _ _ _ (inv_registry e He) E) as (Hidx & _).
    apply unseen_zero_assign; auto. by apply inv_registry.
  - unfold remove. destruct (is_empty w); [done|]. by rewrite E.
Qed.

Lemma unseen_zero_update_entries entries : forall e,
  Forall (fun wf => fst wf <> EmptyString /\ in_int64 (snd wf)) entries ->
  inv e -> unseen_zero e -> unseen_zero (update_entries e entries).
Proof.
  induction entries as [|[w f] entries IH]; intros e Hall He Hz; [done|].
  inversion Hall as [|? ? [_ Hf] Hall']; subst.
  unfold update_entries in *. simpl. apply IH; [done| |].
  - by apply inv_updateFrequency.
  - by apply unseen_zero_updateFrequency.
Qed.

Lemma unseen_zero_step e o :
  inv e -> unseen_zero e -> unseen_zero (step e o).
Proof.
  intros He Hz. destruct o as [w f|w f|w|k|[content|]|p K]; unfold step.
  - by apply unseen_zero_insert.
  - by apply unseen_zero_updateFrequency.
  - by apply unseen_zero_remove.
  - done.
  - rewrite loadFromFile_update_entries.
    apply unseen_zero_update_entries; auto using extracted_nonempty.
  - done.
  - by rewrite getTopK_run_engine.
Qed.

Lemma reachable_unseen_zero e : reachable e -> unseen_zero e.
Proof.
  induction 1 as [k Hk|e o He IH Ho]; [apply unseen_zero_new|].
  apply unseen_zero_step; [by apply reachable_inv | done].
Qed.

Lemma is_known_ensure e w e1 idx :
  registry_ok e -> ensureWordIndex e w = (e1, idx) ->
  nth (Z.to_nat idx) (wordSeen e1) false = is_known e w.
Proof.
  intros Hreg. unfold ensureWordIndex, is_known.
  destruct (wordToIndex e !! w) as [i|] eqn:E; intros [= <- <-]; [done|].
  simpl. rewrite Nat2Z.id, app_nth2, (reg_len_seen e Hreg), Nat.sub_diag;
    [done|]. rewrite (reg_len_seen e Hreg). lia.
Qed.

Lemma unknown_frequency e w :
  inv e -> unseen_zero e -> is_known e w = false -> frequency_of e w = 0.
Proof.
  intros He Hz. unfold is_known, frequency_of.
  destruct (wordToIndex e !! w) as [i|] eqn:E; [|done].
  destruct (registry_lookup _ _ _ (inv_registry e He) E) as (Hi & _).
  by apply Hz.
Qed.

Lemma insert_isNew_known e w :
  inv e -> unseen_zero e -> w <> EmptyString ->
  insert_isNew e w = negb (is_known e w).
Proof.
  intros He Hz Hw. unfold insert_isNew.
  destruct (ensureWordIndex e w) as [e1 idx] eqn:E.
  rewrite (frequency_of_ensure e w e1 idx (inv_registry e He) E).
  rewrite (is_known_ensure e w e1 idx (inv_registry e He) E).
  apply ensureWordIndex_spec in E
    as (_ & _ & _ & Hd & _); [|done|done].
  rewrite Hd, String.eqb_refl, andb_true_r.
  destruct (is_known e w) eqn:Ek; simpl; [apply andb_false_r|].
  by rewrite unknown_frequency.
Qed.

Lemma is_known_insert e w f :
  inv e -> w <> EmptyString -> is_known (insert e w f) w = true.
Proof.
  intros He Hw. unfold insert, is_known. destruct w; [done|].
  simpl is_empty. cbv iota.
  destruct (ensureWordIndex e _) as [e1 idx] eqn:E.
  apply ensureWordIndex_spec in E
    as (Hreg & _ & [Hi0 Hi1] & _ & Hi & _); [|done|done].
  simpl. rewrite Hi. apply nth_insert_eq.
  rewrite (reg_len_seen e1 Hreg). lia.
Qed.

(** X16: in a reachable engine [insert] of a non-empty keyword finds the
    word new, and appends a line to the autosave file, exactly when the
    word is not marked in [wordSeen] (it has no index, or was removed);
    the line is [<keyword> <freq>] in 64-bit arithmetic, and a second
    [insert] of the keyword appends nothing. *)
Theorem autosave_only_unknown e w f :
  reachable e -> w <> EmptyString ->
  insert_isNew e w = negb (is_known e w) /\
  insert_autosave_line e w f =
    (if is_known e w then None
     else Some (w +:+ " " +:+ show_long_long (wrap64 f) +:+ newline)) /\
  (forall f', insert_autosave_line (insert e w f) w f' = None).
Proof.
  intros Hr Hw. pose proof (reachable_inv e Hr) as He.
  pose proof (reachable_unseen_zero e Hr) as Hz.
  pose proof (insert_isNew_known e w He Hz Hw) as Hnew.
  split_and!; [done| |].
  - unfold insert_autosave_line. rewrite Hnew.
    destruct w; [done|]. simpl is_empty. cbv iota.
    destruct (ensureWordIndex e _) as [e1 idx] eqn:E.
    rewrite (frequency_of_ensure e _ e1 idx (inv_registry e He) E).
    destruct (is_known e _) eqn:Ek; simpl; [done|].
    by rewrite unknown_frequency.
  - intros f'. unfold insert_autosave_line.
    rewrite insert_isNew_known, is_known_insert; try done.
    + destruct (is_empty w); [done|].
      by destruct (ensureWordIndex (insert e w f) w).
    + by apply inv_insert.
    + by apply unseen_zero_insert.
Qed.

Lemma autosave_only_unknown_witness :
  insert_isNew ex_cat "dog" = negb (is_known ex_cat "dog") /\
  insert_autosave_line ex_cat "dog" 4 =
    (if is_known ex_cat "dog" then None
     else Some ("dog" +:+ " " +:+ show_long_long (wrap64 4) +:+ newline)) /\
  (forall f', insert_autosave_line (insert ex_cat "dog" 4) "dog" f' = None).
Proof.
  apply (autosave_only_unknown ex_cat "dog" 4 reachable_ex_cat). discriminate.
Defined.

(** ** Trimming a command line *)

Lemma pop_back_spaces_all_space s :
  all_space s = true -> Cli.pop_back_spaces s = EmptyString.
Proof.
  induction s as [|c s IH]; simpl; [done|].
  intros [Hc Hs]%andb_true_iff. by rewrite IH, Hc.
Qed.

Lemma pop_back_spaces_app s b :
  all_space b = true ->
  Cli.pop_back_spaces (s +:+ b) = Cli.pop_back_spaces s.
Proof.
  intros Hb. induction s as [|c s IH]; step_app.
  - by apply pop_back_spaces_all_space.
  - simpl. by rewrite IH.
Qed.

Lemma pop_back_spaces_fixed s :
  ends_with_space s = false -> Cli.pop_back_spaces s = s.
Proof.
  induction s as [|c s IH]; [done|]. intros H.
  destruct s as [|c' s'].
  - simpl in *. by rewrite H.
  - change (Cli.pop_back_spaces (String c (String c' s')))
      with (match Cli.pop_back_spaces (String c' s') with
            | EmptyString =>
                if isspace c then EmptyString else String c EmptyString
            | r' => String c r'
            end).
    by rewrite IH.
Qed.

Lemma pop_back_spaces_split s :
  exists b, all_space b = true /\ s = Cli.pop_back_spaces s +:+ b /\
            ends_with_space (Cli.pop_back_spaces s) = false.
Proof.
  induction s as [|c s (b & Hb & Hs & He)]; [by exists EmptyString|].
  simpl. destruct (Cli.pop_back_spaces s) as [|c' r'] eqn:E.
  - rewrite string_app_nil in Hs. subst b.
    destruct (isspace c) eqn:Ec.
    + exists (String c s). simpl. by rewrite Ec, Hb.
    + exists s. simpl. by rewrite Ec.
  - exists b. split_and!; [done| |done].
    rewrite string_app_cons. by f_equal.
Qed.

Lemma skipws_split s :
  exists a, all_space a = true /\ s = a +:+ skipws s /\
            starts_with_space (skipws s) = false.
Proof.
  induction s as [|c s (a & Ha & Hs & Hst)]; [by exists EmptyString|].
  simpl. destruct (isspace c) eqn:Ec.
  - exists (String c a). simpl. rewrite Ec, Ha. split_and!; [done| |done].
    rewrite string_app_cons. by f_equal.
  - exists EmptyString. simpl. by rewrite Ec.
Qed.

Lemma skipws_fixed s : starts_with_space s = false -> skipws s = s.
Proof. destruct s as [|c s]; simpl; [done|]. by intros ->. Qed.

Lemma ends_with_space_app a s :
  s <> EmptyString -> ends_with_space (a +:+ s) = ends_with_space s.
Proof.
  intros Hs. induction a as [|c a IH]; step_app; [done|].
  destruct (a +:+ s) as [|c' r] eqn:E.
  - destruct a; [by destruct s | done].
  - done.
Qed.

(** X17: [trim] cuts a line into the space characters at its front,
    the trimmed line, and the space characters at its back; the trimmed
    line neither starts nor ends with a space character. *)
Theorem cli_trim_splits s :
  exists a b,
    all_space a = true /\ all_space b = true /\
    s = a +:+ Cli.trim s +:+ b /\
    starts_with_space (Cli.trim s) = false /\
    ends_with_space (Cli.trim s) = false.
Proof.
  unfold Cli.trim.
  destruct (pop_back_spaces_split s) as (b & Hb & Hs & He).
  destruct (skipws_split (Cli.pop_back_spaces s)) as (a & Ha & Hp & Hst).
  exists a, b. split_and!; try done.
  - rewrite <- string_app_assoc, <- Hp. done.
  - destruct (skipws (Cli.pop_back_spaces s)) as [|c r] eqn:E; [done|].
    rewrite Hp, ends_with_space_app in He; done.
Qed.

(** X18: a text that neither starts nor ends with a space character is
    what [trim] returns for the text with space characters put before and
    after it; so [trim] is idempotent, and it returns the empty line for
    a line of space characters. *)
Theorem cli_trim_core a c b :
  all_space a = true -> all_space b = true ->
  starts_with_space c = false -> ends_with_space c = false ->
  Cli.trim (a +:+ c +:+ b) = c.
Proof.
  intros Ha Hb Hs He. unfold Cli.trim.
  rewrite <- string_app_assoc, pop_back_spaces_app by done.
  destruct c as [|x c].
  - rewrite string_app_nil_r, pop_back_spaces_all_space by done. done.
  - rewrite pop_back_spaces_fixed.
    + rewrite skipws_all_space by done. by apply skipws_fixed.
    + by rewrite ends_with_space_app.
Qed.

Lemma cli_trim_core_witness :
  Cli.trim ("  " +:+ "add cat 5" +:+ String "009" " ") = "add cat 5"%string.
Proof.
  apply (cli_trim_core "  " "add cat 5" (String "009" " ")); reflexivity.
Defined.

(** ** The caches hold the best-ranked words *)

Lemma ranked_ext fs fs' d a b :
  RankHelper.freq_or_0 fs' a = RankHelper.freq_or_0 fs a ->
  RankHelper.freq_or_0 fs' b = RankHelper.freq_or_0 fs b ->
  ranked fs d a b -> ranked fs' d a b.
Proof.
  intros Ha Hb. unfold ranked. by rewrite (higher_ext fs d fs' d a b).
Qed.

Lemma update_cache_dominant k fs fs' d p idx v :
  0 <= k -> NoDup d -> in_dict d idx ->
  on_path p (RankHelper.dict_at d idx) ->
  NoDup v ->
  Forall (fun i => in_dict d i /\ on_path p (RankHelper.dict_at d i)) v ->
  (forall i, i <> idx ->
     RankHelper.freq_or_0 fs' i = RankHelper.freq_or_0 fs i) ->
  (idx ∈ v -> RankHelper.freq_or_0 fs idx <= RankHelper.freq_or_0 fs' idx) ->
  full_or_complete k d (Some idx) p v ->
  dominant fs d (Some idx) p v ->
  dominant fs' d None p (update_cache k fs' d idx v).
Proof.
  intros Hk Hd Hidx Hp Hnd Hv Hsame Hgrow Hfc Hdom. unfold update_cache.
  set (v1 := if found idx v then v else v ++ [idx]).
  assert ((idx ∈ v /\ v1 = v) \/ ((idx ∉ v) /\ v1 = v ++ [idx])) as Hv1.
  { unfold v1. destruct (found idx v) eqn:E.
    - left. by apply found_iff in E.
    - right. by apply found_false in E. }
  assert (idx ∈ v1) as Hidx1.
  { destruct Hv1 as [[? ->]|[_ ->]]; [done|].
    apply elem_of_app. right. by apply list_elem_of_singleton. }
  assert (forall y, y ∈ v1 -> y <> idx -> y ∈ v) as Hv1v.
  { intros y Hy Hne. destruct Hv1 as [[_ E]|[_ E]]; rewrite E in Hy; [done|].
    apply elem_of_app in Hy as [?|?%list_elem_of_singleton]; done. }
  assert (forall y, y ∈ v -> y ∈ v1) as Hvv1.
  { intros y Hy. destruct Hv1 as [[_ ->]|[_ ->]]; [done|].
    apply elem_of_app. by left. }
  assert (NoDup v1) as Hnd1.
  { destruct Hv1 as [[_ ->]|[Hni ->]]; [done|].
    apply NoDup_app. split_and!; [done| |apply NoDup_singleton].
    intros x Hx ->%list_elem_of_singleton. done. }
  assert (forall y, y ∈ v1 -> in_dict d y) as Hin1.
  { rewrite Forall_forall in Hv. intros y Hy.
    destruct (decide (y = idx)) as [->|Hne]; [done|].
    by apply Hv, Hv1v. }
  set (v2 := std_sort (RankHelper.higher fs' d) v1).
  assert (v2 ≡ₚ v1) as Hperm by apply std_sort_perm.
  assert (StronglySorted (ranked fs' d) v2) as Hs2.
  { apply std_sort_sorted; [apply ranked_trans | done |].
    intros x y Hx Hy Hne. apply (ranked_total_in fs' d); auto. }
  assert (NoDup v2) as Hnd2 by (by rewrite Hperm).
  rewrite trim_take by done. set (n := Z.to_nat k).
  rewrite <- (take_drop n v2) in Hs2, Hnd2.
  assert (forall x y, x ∈ take n v2 -> y ∈ drop n v2 -> ranked fs' d x y)
    as Hrest.
  { intros x y Hx Hy. by eapply StronglySorted_app_1_elem_of. }
  apply NoDup_app in Hnd2 as (_ & Hdisj & _).
  intros i j Hi _ Hon Hni Hj.
  destruct (decide (i ∈ v2)) as [Hi2|Hi2].
  { rewrite <- (take_drop n v2) in Hi2.
    apply elem_of_app in Hi2 as [?|?]; [done|]. by apply Hrest. }
  rewrite Hperm in Hi2.
  assert (i <> idx) as Hne by (by intros ->).
  assert (i ∉ v) as Hiv by (intros ?; by apply Hi2, Hvv1).
  assert (j ∈ v1) as Hj1.
  { rewrite <- Hperm. by eapply subseteq_take. }
  destruct (decide (j = idx)) as [->|Hnj].
  2:{ apply (ranked_ext fs); [by apply Hsame..|].
      apply Hdom; try done; [congruence | by apply Hv1v]. }
  destruct Hv1 as [[Hel _]|[Hnel E]].
  - unfold ranked.
    apply (higher_grows fs fs' d idx); [done | by apply Hgrow | done |].
    apply Hdom; try done. congruence.
  - destruct Hfc as [Hfull|Hcomp].
    2:{ destruct Hiv. apply Hcomp; [done|congruence|done]. }
    assert (length v2 = S (length v)) as Hlen.
    { rewrite Hperm, E, length_app. simpl. lia. }
    destruct (drop n v2) as [|y rest] eqn:Edrop.
    { pose proof (length_drop v2 n) as Hl. rewrite Edrop in Hl.
      simpl in Hl. lia. }
    assert (y ∈ drop n v2) as Hy by (rewrite Edrop; by left).
    assert (y <> idx) as Hyne.
    { intros ->. apply (Hdisj idx Hj). by rewrite <- Edrop. }
    assert (y ∈ v) as Hyv.
    { apply Hv1v; [|done]. rewrite <- Hperm.
      rewrite <- (take_drop n v2). apply elem_of_app. by right. }
    apply (ranked_trans fs' d _ y).
    + apply Hrest; [done|]. by rewrite <- Edrop.
    + apply (ranked_ext fs); [by apply Hsame..|].
      apply Hdom; try done. congruence.
Qed.

Lemma saturated_default k d idx w r p :
  NoDup d -> in_dict d idx -> RankHelper.dict_at d idx = w ->
  (forall w', w' ∈ d -> w' <> w -> is_Some (walk w' r)) ->
  saturated k d (Some idx) r -> p <> EmptyString ->
  full_or_complete k d (Some idx) p (topK (default newNode (walk p r))).
Proof.
  intros Hnd Hidx Hw Hp Hs Hne.
  destruct (walk p r) as [n|] eqn:Hn; simpl; [by apply Hs|].
  right. intros i Hi Hskip Hon.
  assert (is_Some (walk p r)) as [? ?]; [|congruence].
  apply (walk_prefix p (RankHelper.dict_at d i)); [by destruct Hon|].
  apply Hp.
  - eapply list_elem_of_lookup_2. by apply dict_at_lookup.
  - intros E. apply Hskip. f_equal. apply (dict_at_inj d); congruence.
Qed.

Lemma dominant_update k fs x d w idx r :
  0 <= k -> NoDup d -> length fs = length d ->
  in_dict d idx -> RankHelper.dict_at d idx = w ->
  (forall w', w' ∈ d -> w' <> w -> is_Some (walk w' r)) ->
  caches_ok fs d r ->
  saturated k d (Some idx) r ->
  dominant_all fs d (Some idx) r ->
  (~ absent idx r -> nth (Z.to_nat idx) fs 0 <= x) ->
  dominant_all (<[Z.to_nat idx := x]> fs) d None
    (updateTopKForWord k (<[Z.to_nat idx := x]> fs) d w idx r).
Proof.
  intros Hk Hnd Hlen Hidx Hw Hp Hc Hs Hdom Hraise p n' Hn' Hne.
  assert (forall i, i <> idx ->
            RankHelper.freq_or_0 (<[Z.to_nat idx := x]> fs) i =
            RankHelper.freq_or_0 fs i) as Hsame.
  { intros i Hi. apply freq_or_0_insert_ne; [by destruct Hidx | done]. }
  rewrite updateTopKForWord_along in Hn'.
  apply (walk_along_path _ _ _
           (update_cache k (<[Z.to_nat idx := x]> fs) d idx)) in Hn';
    try done.
  destruct Hn' as [[-> _]|[(Hpth & Ht & _)|(Hpth & n & Hn & Ht)]];
    [done|..]; rewrite Ht.
  - apply (update_cache_dominant k fs); try done.
    + by rewrite Hw.
    + destruct (walk p r) as [n|] eqn:Hn; simpl; [|constructor].
      by destruct (Hc p n Hn).
    + destruct (walk p r) as [n|] eqn:Hn; simpl; [|constructor].
      by destruct (Hc p n Hn).
    + intros Hel.
      rewrite (freq_or_0_in fs d), (freq_or_0_in _ d); try done.
      2:{ by rewrite length_insert. }
      rewrite nth_insert_eq by (destruct Hidx; lia).
      apply Hraise. intros Habs.
      destruct (walk p r) as [n|] eqn:Hn; simpl in Hel.
      * by apply (Habs p n Hn).
      * by apply elem_of_nil in Hel.
    + by apply (saturated_default k d idx w r).
    + destruct (walk p r) as [n|] eqn:Hn; simpl; [by apply Hdom|].
      intros i j _ _ _ _ Hj. by apply elem_of_nil in Hj.
  - intros i j Hi _ Hon Hni Hj.
    destruct (Hc p n Hn) as [_ _ Hm]. rewrite Forall_forall in Hm.
    destruct (Hm j Hj) as [Hdj [_ Hpj]].
    assert (i <> idx) as Hi'.
    { intros ->. destruct Hon as [_ Hon]. congruence. }
    assert (j <> idx) as Hj' by (intros ->; congruence).
    apply (ranked_ext fs); [by apply Hsame..|].
    apply (Hdom p n Hn Hne); try done. congruence.
Qed.

Lemma ensureWordIndex_dominant e w e1 idx :
  inv e -> dominant_all (freqs e) (dict e) None (root e) ->
  ensureWordIndex e w = (e1, idx) ->
  dominant_all (freqs e1) (dict e1) (Some idx) (root e1).
Proof.
  intros He Hdom. unfold ensureWordIndex.
  destruct (wordToIndex e !! w) as [i0|] eqn:E; intros [= <- <-].
  - intros p n Hn Hne i j Hi _ Hon Hni Hj. by apply (Hdom p n Hn Hne).
  - simpl. intros p n Hn Hne i j [Hi0 Hi1] Hskip Hon Hni Hj.
    rewrite length_app in Hi1. simpl in Hi1.
    assert (i <> Z.of_nat (length (dict e))) by congruence.
    assert (in_dict (dict e) i) as Hi by (unfold in_dict; lia).
    rewrite dict_at_app in Hon by done.
    destruct (inv_caches e He p n Hn) as [_ _ Hm].
    rewrite Forall_forall in Hm. destruct (Hm j Hj) as [Hdj _].
    unfold ranked.
    rewrite (higher_ext (freqs e) (dict e));
      [by apply (Hdom p n Hn Hne) | apply freq_or_0_app..
       | by apply dict_at_app | by apply dict_at_app].
Qed.

Lemma dominant_assign e1 w idx x seen :
  registry_ok e1 -> in_dict (dict e1) idx ->
  RankHelper.dict_at (dict e1) idx = w ->
  caches_ok (freqs e1) (dict e1) (root e1) ->
  (forall w', w' ∈ dict e1 -> w' <> w -> is_Some (walk w' (root e1))) ->
  unseen_absent (dict e1) (wordSeen e1) (root e1) ->
  saturated (perNodeK e1) (dict e1) (Some idx) (root e1) ->
  dominant_all (freqs e1) (dict e1) (Some idx) (root e1) ->
  (nth (Z.to_nat idx) (wordSeen e1) false = true ->
   nth (Z.to_nat idx) (freqs e1) 0 <= x) ->
  dominant_all
    (freqs (mkEngine
              (updateTopKForWord (perNodeK e1)
                 (<[Z.to_nat idx := x]> (freqs e1)) (dict e1) w idx
                 (root e1))
              (perNodeK e1) (dict e1) (<[Z.to_nat idx := x]> (freqs e1))
              seen (wordToIndex e1)))
    (dict e1) None
    (updateTopKForWord (perNodeK e1) (<[Z.to_nat idx := x]> (freqs e1))
                       (dict e1) w idx (root e1)).
Proof.
  intros Hreg Hidx Hw Hc Hp Hu Hs Hdom Hraise. simpl.
  apply dominant_update; try done.
  - by destruct Hreg.
  - by apply registry_NoDup.
  - by destruct Hreg.
  - intros Habs. apply Hraise.
    destruct (nth (Z.to_nat idx) (wordSeen e1) false) eqn:Es; [done|].
    destruct Habs. by apply Hu.
Qed.

Lemma dominant_updateFrequency e w f :
  inv e -> saturated (perNodeK e) (dict e) None (root e) ->
  dominant_all (freqs e) (dict e) None (root e) ->
  (is_known e w = true -> frequency_of e w <= f) ->
  dominant_all (freqs (updateFrequency e w f))
               (dict (updateFrequency e w f)) None
               (root (updateFrequency e w f)).
Proof.
  intros He Hs Hdom Hraise. unfold updateFrequency.
  destruct (is_empty w) eqn:Ew; [done|].
  destruct (ensureWordIndex e w) as [e1 idx] eqn:E.
  pose proof (ensureWordIndex_saturated _ _ _ _ He Hs E) as Hs1.
  pose proof (ensureWordIndex_dominant _ _ _ _ He Hdom E) as Hd1.
  pose proof (is_known_ensure e w e1 idx (inv_registry e He) E) as Hk.
  pose proof (frequency_of_ensure e w e1 idx (inv_registry e He) E) as Hf.
  apply ensureWordIndex_spec in E
    as (Hreg & Hc & Hidx & Hw & _ & _ & Hp & Hu); [|done|by intros ->].
  apply (dominant_assign e1 w idx f); try done.
  rewrite Hk, Hf. done.
Qed.

Lemma dominant_insert e w f :
  inv e -> saturated (perNodeK e) (dict e) None (root e) ->
  dominant_all (freqs e) (dict e) None (root e) ->
  (is_known e w = true -> 0 <= f /\ frequency_of e w + f <= INT64_MAX) ->
  dominant_all (freqs (insert e w f)) (dict (insert e w f)) None
               (root (insert e w f)).
Proof.
  intros He Hs Hdom Hraise. unfold insert.
  destruct (is_empty w) eqn:Ew; [done|].
  destruct (ensureWordIndex e w) as [e1 idx] eqn:E.
  pose proof (ensureWordIndex_saturated _ _ _ _ He Hs E) as Hs1.
  pose proof (ensureWordIndex_dominant _ _ _ _ He Hdom E) as Hd1.
  pose proof (is_known_ensure e w e1 idx (inv_registry e He) E) as Hk.
  pose proof (frequency_of_ensure e w e1 idx (inv_registry e He) E) as Hf.
  apply ensureWordIndex_spec in E
    as (Hreg & Hc & Hidx & Hw & _ & _ & Hp & Hu); [|done|by intros ->].
  apply (dominant_assign e1 w idx); try done.
  rewrite Hk, Hf. intros Hkn. destruct (Hraise Hkn) as [Hf0 Hmax].
  assert (in_int64 (frequency_of e w)) as [Hlo Hhi].
  { rewrite <- Hf. destruct Hidx as [Hi0 Hi1].
    destruct (lookup_lt_is_Some_2 (freqs e1) (Z.to_nat idx)) as [y Hy].
    { rewrite (reg_len_freqs e1 Hreg). lia. }
    rewrite nth_lookup, Hy. simpl.
    by apply (Forall_lookup_1 _ _ _ _ (reg_int64 e1 Hreg) Hy). }
  rewrite wrap64_id; [lia|]. unfold in_int64 in *. lia.
Qed.

Lemma bounded_grows e o :
  grows o -> inv e -> bounded (perNodeK e) (root e) ->
  bounded (perNodeK (step e o)) (root (step e o)).
Proof.
  intros Hg He Hb. apply bounded_step; [|done|].
  - by destruct He as [[]].
  - intros k ->. done.
Qed.

Lemma raises_grows e o : raises e o -> grows o.
Proof. by destruct o as [w f|w f|w|k|[content|]|p K]. Qed.

Lemma tops_new k : 0 <= k -> tops (new_engine k).
Proof.
  intros Hk.
  assert (forall p n, walk p (root (new_engine k)) = Some n ->
                      p <> EmptyString -> False) as Hnone.
  { intros p n Hn Hp. destruct p as [|c p]; [done|]. simpl in Hn.
    by rewrite lookup_empty in Hn. }
  split.
  - by apply inv_new.
  - intros p n Hn. destruct p as [|c p]; simpl in Hn.
    + injection Hn as <-. simpl. lia.
    + by rewrite lookup_empty in Hn.
  - intros p n Hn Hp. by destruct (Hnone p n Hn Hp).
  - intros p n Hn Hp. by destruct (Hnone p n Hn Hp).
Qed.

Lemma tops_updateFrequency e w f :
  tops e -> in_int64 f ->
  (is_known e w = true -> frequency_of e w <= f) ->
  tops (updateFrequency e w f).
Proof.
  intros [He Hb Hs Hd] Hf Hraise. split.
  - by apply inv_updateFrequency.
  - by apply (bounded_grows e (OpUpdateFrequency w f)).
  - by apply saturated_updateFrequency.
  - by apply dominant_updateFrequency.
Qed.

Lemma tops_update_entries entries : forall e,
  Forall (fun wf => fst wf <> EmptyString /\ in_int64 (snd wf)) entries ->
  tops e -> raising_entries e entries -> tops (update_entries e entries).
Proof.
  induction entries as [|[w f] entries IH]; intros e Hall He Hr; [done|].
  inversion Hall as [|? ? [_ Hf] Hall']; subst. destruct Hr as [Hr1 Hr2].
  unfold update_entries in *. simpl. apply IH; [done| |done].
  by apply tops_updateFrequency.
Qed.

Lemma tops_step e o :
  tops e -> op_typed o -> raises e o -> tops (step e o).
Proof.
  intros He Ht Hr. destruct o as [w f|w f|w|k|[content|]|p K];
    unfold step; try done.
  - destruct He as [He Hb Hs Hd]. split.
    + by apply inv_insert.
    + by apply (bounded_grows e (OpInsert w f)).
    + by apply saturated_insert.
    + by apply dominant_insert.
  - by apply tops_updateFrequency.
  - rewrite loadFromFile_update_entries.
    apply tops_update_entries; auto using extracted_nonempty.
  - by rewrite getTopK_run_engine.
Qed.

Lemma tops_run ops : forall e,
  tops e -> Forall op_typed ops -> raising_run e ops -> tops (run e ops).
Proof.
  induction ops as [|o ops IH]; intros e He Ht Hr; [done|].
  inversion Ht as [|? ? Hto Ht']; subst. destruct Hr as [Hr1 Hr2].
  simpl. apply IH; [|done..]. by apply tops_step.
Qed.

Lemma raising_run_grows ops : forall e,
  raising_run e ops -> Forall grows ops.
Proof.
  induction ops as [|o ops IH]; intros e Hr; [constructor|].
  destruct Hr as [Hr1 Hr2]. constructor; [by eapply raises_grows|].
  by eapply IH.
Qed.

Lemma elem_of_prefix_indices e p i :
  i ∈ prefix_indices e p <->
  in_dict (dict e) i /\ nth (Z.to_nat i) (wordSeen e) false = true /\
  String.prefix p (RankHelper.dict_at (dict e) i) = true.
Proof.
  unfold prefix_indices.
  rewrite list_elem_of_filter, elem_of_known_indices, Is_true_true. tauto.
Qed.

Lemma prefix_indices_NoDup e p : NoDup (prefix_indices e p).
Proof. apply NoDup_filter, known_indices_NoDup. Qed.

Lemma prefix_indices_comparable e p :
  registry_ok e ->
  comparable (RankHelper.higher (freqs e) (dict e)) (prefix_indices e p).
Proof.
  intros Hreg x y Hx%elem_of_prefix_indices Hy%elem_of_prefix_indices Hne.
  apply (ranked_total_in (freqs e) (dict e)); try tauto.
  by apply registry_NoDup.
Qed.

(** A cache is the front of the sorted list of the known words through
    its node. *)
Lemma cache_is_top e p n :
  tops e -> walk p (root e) = Some n -> p <> EmptyString ->
  topK n =
  take (Z.to_nat (perNodeK e))
       (std_sort (RankHelper.higher (freqs e) (dict e))
                 (prefix_indices e p)).
Proof.
  intros [He Hb Hs Hd] Hn Hp.
  pose proof (inv_registry e He) as Hreg.
  destruct (inv_caches e He p n Hn) as [Hnd Hso Hm].
  rewrite Forall_forall in Hm.
  set (v := topK n) in *. set (S := prefix_indices e p).
  set (R := filter (fun i => i ∉ v) S).
  set (rest := std_sort (RankHelper.higher (freqs e) (dict e)) R).
  assert (forall x, x ∈ v -> x ∈ S) as HvS.
  { intros x Hx. apply elem_of_prefix_indices.
    destruct (Hm x Hx) as [Hdx [_ Hpx]]. split_and!; [done| |done].
    destruct (nth (Z.to_nat x) (wordSeen e) false) eqn:Es; [done|].
    by destruct (inv_unseen e He x Hdx Es p n Hn). }
  assert (forall x, x ∈ rest <-> x ∈ S /\ x ∉ v) as Hrest.
  { intros x. unfold rest. rewrite std_sort_perm. unfold R.
    rewrite list_elem_of_filter. tauto. }
  assert (NoDup R) as HndR by (apply NoDup_filter, prefix_indices_NoDup).
  assert (v ++ rest =
          std_sort (RankHelper.higher (freqs e) (dict e)) S) as Hcand.
  { apply (std_sort_unique _ (ranked_trans (freqs e) (dict e))
                             (ranked_irrefl (freqs e) (dict e))).
    - apply prefix_indices_NoDup.
    - by apply prefix_indices_comparable.
    - apply NoDup_Permutation.
      + apply NoDup_app. split_and!; [done| |].
        * intros x Hx Hx'%Hrest. tauto.
        * unfold rest. by rewrite std_sort_perm.
      + apply prefix_indices_NoDup.
      + intros x. rewrite elem_of_app, Hrest. split.
        * intros [?|[? _]]; auto.
        * intros Hx. destruct (decide (x ∈ v)); auto.
    - apply StronglySorted_app_2; [|done|].
      + intros x1 x2 Hx1 [Hx2 Hni]%Hrest.
        apply elem_of_prefix_indices in Hx2 as (Hd2 & _ & Hp2).
        by apply (Hd p n Hn Hp x2 x1).
      + apply std_sort_sorted; [apply ranked_trans | done |].
        intros x y [_ Hx]%list_elem_of_filter [_ Hy]%list_elem_of_filter.
        by apply (prefix_indices_comparable e p). }
  rewrite <- Hcand. pose proof (Hb p n Hn) as Hlen. fold v in Hlen.
  destruct (Hs p n Hn Hp) as [Hfull|Hcomp]; fold v in Hfull || idtac.
  - symmetry. apply take_app_length'. lia.
  - assert (rest = []) as ->.
    { destruct rest as [|x rest'] eqn:E; [done|].
      assert (x ∈ S /\ x ∉ v) as [Hx Hni].
      { apply Hrest. by left. }
      apply elem_of_prefix_indices in Hx as (Hdx & _ & Hpx).
      destruct Hni. by apply Hcomp. }
    rewrite app_nil_r, take_ge; [done | lia].
Qed.

(** X19: in an engine built with capacity [k] from operations that
    remove no word, do not set the capacity and do not lower the
    frequency of a known word, a query for a non-empty prefix returns
    exactly the [min(K, k)] best-ranked known words that start with the
    prefix, in rank order, with their current frequencies. *)
Theorem getTopK_returns_best k ops p K :
  0 <= k -> Forall op_typed ops -> raising_run (new_engine k) ops ->
  p <> EmptyString ->
  getTopK (run (new_engine k) ops) p K =
  prefix_top (run (new_engine k) ops) p (Z.min K k).
Proof.
  intros Hk Ht Hr Hp.
  pose proof (tops_run ops (new_engine k) (tops_new k Hk) Ht Hr) as He.
  pose proof (perNodeK_run_grows ops (new_engine k)
                (raising_run_grows ops _ Hr)) as Hcap.
  simpl in Hcap. set (e := run (new_engine k) ops) in *.
  rewrite getTopK_spec. unfold prefix_top.
  destruct (Z.leb_spec K 0) as [HK|HK].
  { replace (Z.to_nat (Z.min K k)) with 0%nat by lia. done. }
  destruct (walk p (root e)) as [n|] eqn:Hn.
  - rewrite take_min_length, (cache_is_top e p n He Hn Hp), Hcap.
    rewrite take_take. do 2 f_equal. lia.
  - assert (prefix_indices e p = []) as ->.
    { destruct (prefix_indices e p) as [|i l] eqn:E; [done|].
      assert (i ∈ prefix_indices e p) as Hi by (rewrite E; by left).
      apply elem_of_prefix_indices in Hi as (Hd & _ & Hpre).
      assert (is_Some (walk p (root e))) as [? ?]; [|congruence].
      apply (walk_prefix p (RankHelper.dict_at (dict e) i)); [done|].
      apply (inv_paths e (tops_inv e He)).
      eapply list_elem_of_lookup_2. by apply dict_at_lookup. }
    simpl. by rewrite take_nil.
Qed.

Lemma getTopK_returns_best_witness :
  getTopK (run (new_engine 2)
               [OpInsert "cat" 5; OpInsert "car" 3; OpInsert "cart" 10;
                OpInsert "car" 4])
          "ca" 5 =
  prefix_top (run (new_engine 2)
                  [OpInsert "cat" 5; OpInsert "car" 3; OpInsert "cart" 10;
                   OpInsert "car" 4])
             "ca" (Z.min 5 2).
Proof.
  apply (getTopK_returns_best 2
           [OpInsert "cat" 5; OpInsert "car" 3; OpInsert "cart" 10;
            OpInsert "car" 4] "ca" 5).
  - lia.
  - repeat constructor; by vm_compute.
  - simpl raising_run. unfold raises.
    repeat split; try (intros H; by vm_compute in H); by vm_compute.
  - discriminate.
Defined.

(** ** The vocabulary is a map from text to frequency *)

Lemma list_to_map_filter_other (l : list (string * Z)) w :
  (list_to_map (filter (other_text w) l) : gmap string Z) =
  delete w (list_to_map l).
Proof.
  induction l as [|[w' f'] l IH]; simpl.
  - by rewrite delete_empty.
  - rewrite filter_cons. unfold other_text at 1. simpl.
    destruct (decide (w' <> w)) as [Hne|Heq].
    + simpl. rewrite IH. by rewrite delete_insert_ne.
    + assert (w' = w) as -> by (by destruct (decide (w' = w))).
      by rewrite IH, delete_insert_eq.
Qed.

Lemma known_map_lookup e w :
  inv e ->
  known_map e !! w =
  if is_known e w then Some (frequency_of e w) else None.
Proof.
  intros He. pose proof (inv_registry e He) as Hreg.
  unfold known_map, is_known, frequency_of.
  destruct (wordToIndex e !! w) as [i|] eqn:E.
  - destruct (registry_lookup _ _ _ Hreg E) as (Hi & Hw & _).
    destruct (nth (Z.to_nat i) (wordSeen e) false) eqn:Es.
    + apply elem_of_list_to_map; [by apply known_pairs_keys_NoDup|].
      apply list_elem_of_fmap. exists i. split.
      * unfold resolve. by rewrite Hw.
      * by apply elem_of_known_indices.
    + apply not_elem_of_list_to_map. unfold known_pairs.
      rewrite <- list_fmap_compose.
      intros (j & Hj & [Hdj Hsj]%elem_of_known_indices)%list_elem_of_fmap.
      simpl in Hj. assert (j = i) as ->; [|congruence].
      apply (dict_at_inj (dict e)); [by apply registry_NoDup|done..|].
      congruence.
  - apply not_elem_of_list_to_map. unfold known_pairs.
    rewrite <- list_fmap_compose.
    intros (j & Hj & [Hdj Hsj]%elem_of_known_indices)%list_elem_of_fmap.
    simpl in Hj. assert (wordToIndex e !! w = Some j); [|congruence].
    apply (reg_index e Hreg). split; [by destruct Hdj|]. rewrite Hj.
    by apply dict_at_lookup.
Qed.

Lemma known_map_empty_word e : inv e -> known_map e !! EmptyString = None.
Proof.
  intros He. rewrite known_map_lookup by done. unfold is_known.
  destruct (wordToIndex e !! EmptyString) as [i|] eqn:E; [|done].
  destruct (registry_lookup _ _ _ (inv_registry e He) E) as (_ & _ & Hin).
  by destruct (reg_nonempty e (inv_registry e He) _ Hin).
Qed.

Lemma known_map_assigned e e' w x :
  inv e ->
  known_pairs e' ≡ₚ (w, x) :: filter (other_text w) (known_pairs e) ->
  registry_ok e' ->
  known_map e' = <[w := x]> (known_map e).
Proof.
  intros He Hp Hreg'. unfold known_map.
  rewrite (list_to_map_proper _ _ (known_pairs_keys_NoDup e' Hreg') Hp).
  simpl. by rewrite list_to_map_filter_other, insert_delete_eq.
Qed.

Lemma known_map_updateFrequency e w f :
  inv e -> in_int64 f -> w <> EmptyString ->
  known_map (updateFrequency e w f) = <[w := f]> (known_map e).
Proof.
  intros He Hf Hw. apply known_map_assigned; [done| |].
  - by apply known_pairs_updateFrequency.
  - by apply inv_registry, inv_updateFrequency.
Qed.

Lemma known_map_insert e w f :
  inv e -> unseen_zero e -> w <> EmptyString ->
  known_map (insert e w f) =
  <[w := wrap64 (default 0 (known_map e !! w) + f)]> (known_map e).
Proof.
  intros He Hz Hw.
  assert (default 0 (known_map e !! w) = frequency_of e w) as ->.
  { rewrite known_map_lookup by done.
    destruct (is_known e w) eqn:Ek; [done|]. simpl.
    by rewrite unknown_frequency. }
  apply known_map_assigned; [done| |].
  - by apply known_pairs_insert.
  - by apply inv_registry, inv_insert.
Qed.

Lemma known_map_remove e w :
  inv e -> known_map (remove e w) = delete w (known_map e).
Proof.
  intros He. unfold known_map.
  by rewrite known_pairs_remove, list_to_map_filter_other.
Qed.

Lemma known_map_update_entries entries : forall e,
  Forall (fun wf => fst wf <> EmptyString /\ in_int64 (snd wf)) entries ->
  inv e ->
  known_map (update_entries e entries) =
  fold_left (fun m wf => <[fst wf := snd wf]> m) entries (known_map e).
Proof.
  induction entries as [|[w f] entries IH]; intros e Hall He; [done|].
  inversion Hall as [|? ? [Hw Hf] Hall']; subst. simpl in Hw, Hf.
  unfold update_entries in *. simpl.
  rewrite IH; [|done|by apply inv_updateFrequency].
  by rewrite known_map_updateFrequency.
Qed.

Lemma known_map_step e o :
  inv e -> unseen_zero e -> op_typed o ->
  known_map (step e o) = model_step (known_map e) o.
Proof.
  intros He Hz Ht. destruct o as [w f|w f|w|k|[content|]|p K];
    unfold step, model_step.
  - destruct w as [|c w]; [done|]. simpl is_empty. cbv iota.
    by apply known_map_insert.
  - destruct w as [|c w]; [done|]. simpl is_empty. cbv iota.
    by apply known_map_updateFrequency.
  - by apply known_map_remove.
  - done.
  - rewrite loadFromFile_update_entries.
    apply known_map_update_entries; [apply extracted_nonempty | done].
  - done.
  - by rewrite getTopK_run_engine.
Qed.

(** X20: the known words of a reachable engine behave as a map from text
    to frequency: [insert] adds the delta to the entry of the keyword
    ([0] when there is none) in 64-bit arithmetic, [updateFrequency] and
    every loaded pair set the entry, [remove] deletes it, and
    [setPerNodeK] and [getTopK] leave the map as it is. *)
Theorem vocabulary_is_a_map e ops :
  reachable e -> Forall op_typed ops ->
  known_map (run e ops) = fold_left model_step ops (known_map e).
Proof.
  intros Hr Ht. revert e Hr.
  induction Ht as [|o ops Ho Ht IH]; intros e Hr; [done|].
  simpl. rewrite IH by (by apply reachable_step).
  f_equal. apply known_map_step; [|  |done].
  - by apply reachable_inv.
  - by apply reachable_unseen_zero.
Qed.

Lemma vocabulary_is_a_map_witness :
  known_map (run ex_cat [OpInsert "car" 4; OpRemove "cat";
                         OpUpdateFrequency "dog" 2]) =
  fold_left model_step
            [OpInsert "car" 4; OpRemove "cat"; OpUpdateFrequency "dog" 2]
            (known_map ex_cat).
Proof.
  apply (vocabulary_is_a_map ex_cat
           [OpInsert "car" 4; OpRemove "cat"; OpUpdateFrequency "dog" 2]
           reachable_ex_cat).
  repeat constructor; by vm_compute.
Defined.

(** ** The rank order and the answers *)

Lemma tops_getTopK e p K :
  tops e -> p <> EmptyString ->
  getTopK e p K = prefix_top e p (Z.min K (perNodeK e)).
Proof.
  intros He Hp. rewrite getTopK_spec. unfold prefix_top.
  destruct (Z.leb_spec K 0) as [HK|HK].
  { replace (Z.to_nat (Z.min K (perNodeK e))) with 0%nat by lia. done. }
  destruct (walk p (root e)) as [n|] eqn:Hn.
  - rewrite take_min_length, (cache_is_top e p n He Hn Hp).
    rewrite take_take. do 2 f_equal. lia.
  - assert (prefix_indices e p = []) as ->.
    { destruct (prefix_indices e p) as [|i l] eqn:E; [done|].
      assert (i ∈ prefix_indices e p) as Hi by (rewrite E; by left).
      apply elem_of_prefix_indices in Hi as (Hd & _ & Hpre).
      assert (is_Some (walk p (root e))) as [? ?]; [|congruence].
      apply (walk_prefix p (RankHelper.dict_at (dict e) i)); [done|].
      apply (inv_paths e (tops_inv e He)).
      eapply list_elem_of_lookup_2. by apply dict_at_lookup. }
    simpl. by rewrite take_nil.
Qed.

(** The three words of the example, inserted in any order with a
    capacity of three or more. *)
Lemma ex_cat_any_order k ops :
  3 <= k -> ops ≡ₚ ex_cat_ops ->
  getTopK (run (new_engine k) ops) "ca" 3 =
  [("cart", 10); ("cat", 5); ("car", 3)]%string.
Proof.
  intros Hk Hp. symmetry in Hp. apply permutations_Permutation in Hp.
  assert (0 <= k) as Hk0 by lia.
  assert (forall ops', Forall op_typed ops' ->
            raising_run (new_engine k) ops' ->
            perNodeK (run (new_engine k) ops') = k ->
            prefix_top (run (new_engine k) ops') "ca" 3 =
              [("cart", 10); ("cat", 5); ("car", 3)]%string ->
            getTopK (run (new_engine k) ops') "ca" 3 =
              [("cart", 10); ("cat", 5); ("car", 3)]%string) as Hgo.
  { intros ops' Ht Hr Hcap Htop.
    rewrite tops_getTopK; [|by apply tops_run; [apply tops_new|..]|done].
    by rewrite Hcap, Z.min_l. }
  vm_compute in Hp.
  repeat (apply elem_of_cons in Hp as [->|Hp]);
    [..|by apply elem_of_nil in Hp];
    (apply Hgo;
     [ repeat constructor; by vm_compute
     | simpl raising_run; unfold raises;
       repeat split; try (intros H; by vm_compute in H); by vm_compute
     | reflexivity
     | by vm_compute ]).
Qed.

(** C4: for indices of the registry, [higher(a, b)] holds exactly when the
    frequency of [a] is greater, or the frequencies are equal and the text
    of [a] is before the text of [b] in byte-wise order; the relation is
    irreflexive and transitive, and it orders any two indices with
    distinct texts.  The answer of [getTopK] on a reachable engine lists
    indices that are in this order, each before all that follow it.
    After "cat" (5), "car" (3) and "cart" (10) are inserted, in any order
    and with a capacity of three or more, [getTopK("ca", 3)] is
    [cart (10), cat (5), car (3)]. *)
Theorem higher_is_rank_order (fs : list Z) (d : list string) :
  length fs = length d ->
  (forall a b, in_dict d a -> in_dict d b ->
     (RankHelper.higher fs d a b = true <->
      nth (Z.to_nat a) fs 0 > nth (Z.to_nat b) fs 0 \/
      (nth (Z.to_nat a) fs 0 = nth (Z.to_nat b) fs 0 /\
       bytewise_lt (RankHelper.dict_at d a) (RankHelper.dict_at d b)))) /\
  (forall a, ~ ranked fs d a a) /\
  (forall a b c, ranked fs d a b -> ranked fs d b c -> ranked fs d a c) /\
  (forall a b,
     RankHelper.dict_at d a <> RankHelper.dict_at d b ->
     ranked fs d a b \/ ranked fs d b a) /\
  (forall e p K, reachable e ->
     exists ids,
       getTopK e p K = map (resolve e) ids /\
       Forall (in_dict (dict e)) ids /\
       StronglySorted
         (fun a b => RankHelper.higher (freqs e) (dict e) a b = true) ids) /\
  (forall k ops, 3 <= k -> ops ≡ₚ ex_cat_ops ->
     getTopK (run (new_engine k) ops) "ca" 3 =
     [("cart", 10); ("cat", 5); ("car", 3)]%string) /\
  getTopK ex_cat "ca" 3 = [("cart", 10); ("cat", 5); ("car", 3)]%string.
Proof.
  intros Hlen. split_and!.
  - intros a b Ha Hb. rewrite higher_iff, !(freq_or_0_in fs d) by done.
    split; (intros [?|[? ?]]; [left; lia | right; split; [lia | done]]).
  - apply ranked_irrefl.
  - apply ranked_trans.
  - apply ranked_total.
  - intros e p K He%reachable_inv.
    destruct (getTopK_ids e p K He) as (ids & Heq & [_ Hso Hm] & _).
    exists ids. split_and!; [done| |done].
    eapply Forall_impl; [exact Hm|]. by intros i [? _].
  - apply ex_cat_any_order.
  - by vm_compute.
Qed.

Lemma higher_is_rank_order_witness :
  (forall a b, in_dict (dict ex_cat) a -> in_dict (dict ex_cat) b ->
     (RankHelper.higher (freqs ex_cat) (dict ex_cat) a b = true <->
      nth (Z.to_nat a) (freqs ex_cat) 0 > nth (Z.to_nat b) (freqs ex_cat) 0 \/
      (nth (Z.to_nat a) (freqs ex_cat) 0 = nth (Z.to_nat b) (freqs ex_cat) 0 /\
       bytewise_lt (RankHelper.dict_at (dict ex_cat) a)
                   (RankHelper.dict_at (dict ex_cat) b)))) /\
  (forall a, ~ ranked (freqs ex_cat) (dict ex_cat) a a) /\
  (forall a b c, ranked (freqs ex_cat) (dict ex_cat) a b ->
                 ranked (freqs ex_cat) (dict ex_cat) b c ->
                 ranked (freqs ex_cat) (dict ex_cat) a c) /\
  (forall a b,
     RankHelper.dict_at (dict ex_cat) a <> RankHelper.dict_at (dict ex_cat) b ->
     ranked (freqs ex_cat) (dict ex_cat) a b \/
     ranked (freqs ex_cat) (dict ex_cat) b a) /\
  (forall e p K, reachable e ->
     exists ids,
       getTopK e p K = map (resolve e) ids /\
       Forall (in_dict (dict e)) ids /\
       StronglySorted
         (fun a b => RankHelper.higher (freqs e) (dict e) a b = true) ids) /\
  (forall k ops, 3 <= k -> ops ≡ₚ ex_cat_ops ->
     getTopK (run (new_engine k) ops) "ca" 3 =
     [("cart", 10); ("cat", 5); ("car", 3)]%string) /\
  getTopK ex_cat "ca" 3 = [("cart", 10); ("cat", 5); ("car", 3)]%string.
Proof.
  apply (higher_is_rank_order (freqs ex_cat) (dict ex_cat)). reflexivity.
Defined.
